(** * berish-emitter: event registry and single-flight coordinator

    A shallow embedding of [EventEmitter] (the registry) and of
    [CacheEmitter] (the deduplication coordinator built on it).

    The repository holds the registry twice.  The one the tests and
    [CacheEmitter] go with keeps its off-triggers in a table of their own
    ([_offTriggers]) and is embedded at top level; the earlier one
    (eventEmitter.ts) files them as ordinary subscriptions, and the
    operations in which it differs are embedded in [Legacy].

    - Identifiers are strings.  An event name is a string, a number or
      a symbol, and names are compared with [===]: [NaN] equals nothing,
      itself included, and the number [1] is not the string ['1'],
      although a template literal renders both alike; a symbol cannot
      be rendered by a template literal at all.
    - JavaScript callbacks are function references whose behaviour is not
      fixed by the library: a callback is a name of type [Callback], and
      what it does when invoked is given by [run], which may change the
      registry (callbacks can re-enter it), change the rest of the program
      ([Env]), return a promise, or throw.
    - Every operation threads a [Sys]: the world the callbacks see, plus a
      log of the callbacks the operation itself invoked, in order.
    - An operation returns ([Ok]) or throws ([Raise]).
    - A promise returned by a callback is a number; it settles later, as
      the history of settlements says.  [Promise.all] is the language's:
      fulfilled when all inputs are, rejected by the first rejection. *)

From Stdlib Require Import List Ascii String Bool Arith Lia.
Import ListNotations.
Open Scope string_scope.

Set Implicit Arguments.

(** A number, as far as a name goes: [NaN], or any other number, which
    [===] and the conversion to a string tell apart exactly as far as
    its rendering [String(n)] does ([+0] and [-0] are both ["0"]). *)
Inductive JsNumber :=
| NaN
| Num (rendering : string).

(** [string | number | symbol].  A symbol has an identity and the
    description it was created with. *)
Inductive EventNameType :=
| NameString (s : string)
| NameNumber (n : JsNumber)
| NameSymbol (identity : nat) (description : string).

Coercion NameString : string >-> EventNameType.

Definition PromiseId := nat.

(** [a === b] on names. *)
Definition strict_eq (a b : EventNameType) : bool :=
  match a, b with
  | NameString x, NameString y => String.eqb x y
  | NameNumber (Num x), NameNumber (Num y) => String.eqb x y
  | NameSymbol i x, NameSymbol j y => Nat.eqb i j && String.eqb x y
  | _, _ => false
  end.

(** [Object.is(a, b)] on names: the same value, [NaN] included. *)
Definition same_value (a b : EventNameType) : bool :=
  match a, b with
  | NameNumber NaN, NameNumber NaN => true
  | _, _ => strict_eq a b
  end.

(** ** Helpers from the collection library and the language *)

(** [LINQ.first(pred)] and [array.filter(pred)[0]]: the first match, or
    nothing ([undefined]). *)
Definition linq_first {A} (pred : A -> bool) (l : list A) : option A := find pred l.

(** [LINQ.distinct(m => m)]: duplicates dropped, first occurrences kept in
    their order.  What counts as a duplicate is the library's affair
    ([same]). *)
Fixpoint distinct {A} (same : A -> A -> bool) (l : list A) : list A :=
  match l with
  | [] => []
  | x :: r => x :: filter (fun y => negb (same y x)) (distinct same r)
  end.

(** [array.some(pred)]. *)
Definition some {A} (pred : A -> bool) (l : list A) : bool := existsb pred l.

(** A value that is an event name or [undefined], converted to a string
    as a template literal does it: a symbol makes the conversion throw a
    [TypeError] (no result). *)
Definition to_template (eventName : option EventNameType) : option string :=
  match eventName with
  | Some (NameString s) => Some s
  | Some (NameNumber NaN) => Some "NaN"
  | Some (NameNumber (Num rendering)) => Some rendering
  | Some (NameSymbol _ _) => None
  | None => Some "undefined"
  end.

(** [name.toString()], which renders a symbol too. *)
Definition to_string (name : EventNameType) : string :=
  match name with
  | NameString s => s
  | NameNumber NaN => "NaN"
  | NameNumber (Num rendering) => rendering
  | NameSymbol _ description => "Symbol(" ++ description ++ ")"
  end.

Definition is_symbol (name : EventNameType) : bool :=
  match name with
  | NameSymbol _ _ => true
  | _ => false
  end.

(** The names under which the off-triggers are filed, once the template
    literal has converted what it was given. *)
Definition getOffName (eventHash : string) : string := "trigger_off_" ++ eventHash.
Definition getOffEventName (eventName : string) : string := "trigger_off_event_" ++ eventName.
Definition getOffAllName : string := "trigger_off_all".

(** ** Data of the registry *)

Section Registry.

(** Payloads ([any]), with the [null] passed to off-triggers. *)
Variable Data : Type.
Variable null : Data.
(** Thrown values and rejection reasons. *)
Variable Exn : Type.
(** Function references. *)
Variable Callback : Type.
(** What a callback can reach besides the emitter. *)
Variable Env : Type.
(** [guid.guid()]: the n-th identifier it hands out. *)
Variable guid : nat -> string.
(** The [TypeError] of a symbol converted to a string. *)
Variable type_error : Exn.
(** When [LINQ.distinct] takes two names for duplicates. *)
Variable linq_same : EventNameType -> EventNameType -> bool.

Record EventObject := mkEvent {
  eventName : EventNameType;
  eventHash : string;
  callback : Callback
}.

Record StateObject := mkState {
  stateName : EventNameType;
  data : Data
}.

Record EventEmitter := mkEmitter {
  _events : list EventObject;
  _offTriggers : list EventObject;
  _states : list StateObject
}.

Definition new_emitter : EventEmitter := mkEmitter [] [] [].

(** What callbacks see and may change. *)
Record World := mkWorld {
  emitter : EventEmitter;
  guids : nat;
  env : Env
}.

(** What a callback hands back: a plain value or a promise. *)
Inductive Ret := RVoid | RPromise (p : PromiseId).

Inductive CbResult :=
| Returned (r : Ret) (w : World)
| Threw (e : Exn) (w : World).

Definition world_after (r : CbResult) : World :=
  match r with
  | Returned _ w => w
  | Threw _ w => w
  end.

Definition threw (r : CbResult) : bool :=
  match r with
  | Returned _ _ => false
  | Threw _ _ => true
  end.

(** One invocation of a callback by the registry: [callback(arg, hash)]. *)
Record Firing := mkFiring {
  fired_callback : Callback;
  fired_arg : Data;
  fired_hash : string
}.

Record Sys := mkSys {
  world : World;
  fired : list Firing
}.

(** ** The monad of registry operations: state and exceptions *)

Inductive Result (A : Type) :=
| Ok (a : A) (s : Sys)
| Raise (e : Exn) (s : Sys).
Arguments Ok {A} a s.
Arguments Raise {A} e s.

Definition M (A : Type) := Sys -> Result A.

Definition ret {A} (a : A) : M A := fun s => Ok a s.

Definition bind {A B} (m : M A) (k : A -> M B) : M B :=
  fun s => match m s with
           | Ok a s' => k a s'
           | Raise e s' => Raise e s'
           end.

Definition throw {A} (e : Exn) : M A := fun s => Raise e s.

Definition try_catch {A} (m : M A) (handler : Exn -> M A) : M A :=
  fun s => match m s with
           | Ok a s' => Ok a s'
           | Raise e s' => handler e s'
           end.

Definition gets {A} (f : EventEmitter -> A) : M A :=
  fun s => Ok (f (emitter (world s))) s.

Definition modify (f : EventEmitter -> EventEmitter) : M unit :=
  fun s => Ok tt (mkSys (mkWorld (f (emitter (world s))) (guids (world s)) (env (world s)))
                        (fired s)).

Definition fresh_guid : M string :=
  fun s => Ok (guid (guids (world s)))
              (mkSys (mkWorld (emitter (world s)) (S (guids (world s))) (env (world s)))
                     (fired s)).

Definition when (b : bool) (m : M unit) : M unit := if b then m else ret tt.

Definition sys_after {A} (r : Result A) : Sys :=
  match r with
  | Ok _ s => s
  | Raise _ s => s
  end.

Definition raised {A} (r : Result A) : bool :=
  match r with
  | Ok _ _ => false
  | Raise _ _ => true
  end.

Notation "x <- m ;; k" := (bind m (fun x => k))
  (at level 61, m at next level, right associativity).
Notation "m ;;; k" := (bind m (fun _ => k))
  (at level 61, right associativity).

(** [xs.map(f)] where [f] has effects: left to right, an exception
    abandons the rest. *)
Fixpoint mapM {A B} (f : A -> M B) (xs : list A) : M (list B) :=
  match xs with
  | [] => ret []
  | x :: r => y <- f x ;; ys <- mapM f r ;; ret (y :: ys)
  end.

(** [xs.forEach(f)]. *)
Fixpoint forEach {A} (f : A -> M unit) (xs : list A) : M unit :=
  match xs with
  | [] => ret tt
  | x :: r => f x ;;; forEach f r
  end.

(** ** Callbacks *)

Variable run : Callback -> Data -> string -> World -> CbResult.

(** [cb(arg, hash)], logged. *)
Definition call_cb (cb : Callback) (arg : Data) (hash : string) : M Ret :=
  fun s =>
    let log := (fired s ++ [mkFiring cb arg hash])%list in
    match run cb arg hash (world s) with
    | Returned r w => Ok r (mkSys w log)
    | Threw e w => Raise e (mkSys w log)
    end.

(** [event.callback(data, event.eventHash)]. *)
Definition invoke (arg : Data) (event : EventObject) : M Ret :=
  call_cb (callback event) arg (eventHash event).

(** ** Queries *)

Definition getEvents (name : EventNameType) (em : EventEmitter) : list EventObject :=
  filter (fun m => strict_eq (eventName m) name) (_events em).

(** [getEvents] at a value that may be [undefined]: no subscription is
    named [undefined]. *)
Definition getEvents_any (name : option EventNameType) (em : EventEmitter)
  : list EventObject :=
  match name with
  | Some n => getEvents n em
  | None => []
  end.

Definition has (hash : string) (em : EventEmitter) : bool :=
  some (fun m => String.eqb (eventHash m) hash) (_events em).

Definition hasState (name : EventNameType) (em : EventEmitter) : bool :=
  some (fun m => strict_eq (stateName m) name) (_states em).

Definition hasEvent (name : EventNameType) (em : EventEmitter) : bool :=
  some (fun m => strict_eq (eventName m) name) (_events em).

Definition getState (name : EventNameType) (em : EventEmitter) : option Data :=
  option_map data (find (fun m => strict_eq (stateName m) name) (_states em)).

(** ** Subscribing *)

Definition push_event (o : EventObject) (em : EventEmitter) : EventEmitter :=
  mkEmitter (_events em ++ [o])%list (_offTriggers em) (_states em).

Definition on (name : EventNameType) (cb : Callback) : M string :=
  hash <- fresh_guid ;;
  modify (push_event (mkEvent name hash cb)) ;;;
  present <- gets (hasState name) ;;
  (if present then
     stateEvent <- gets (fun em =>
       linq_first (fun m => strict_eq (stateName m) name) (_states em)) ;;
     match stateEvent with
     | Some st => call_cb cb (data st) hash ;;; ret tt
     | None => ret tt
     end
   else ret tt) ;;;
  ret hash.

(** ** Off-triggers *)

Definition push_trigger (o : EventObject) (em : EventEmitter) : EventEmitter :=
  mkEmitter (_events em) (_offTriggers em ++ [o])%list (_states em).

Definition _onTriggerOff (name : string) (cb : Callback) : M string :=
  g <- fresh_guid ;;
  let hash := "trigger_off_" ++ g in
  modify (push_trigger (mkEvent name hash cb)) ;;;
  ret hash.

Definition _offTriggerOff (hash : string) : M unit :=
  modify (fun em =>
    mkEmitter (_events em)
              (filter (fun m => negb (String.eqb (eventHash m) hash)) (_offTriggers em))
              (_states em)).

Definition triggerOff (hash : string) (cb : Callback) : M string :=
  _onTriggerOff (getOffName hash) cb.

Definition triggerOffEvent (name : EventNameType) (cb : Callback) : M string :=
  match to_template (Some name) with
  | Some rendered => _onTriggerOff (getOffEventName rendered) cb
  | None => throw type_error
  end.

Definition triggerOffAll (cb : Callback) : M string :=
  _onTriggerOff getOffAllName cb.

Definition offTriggerOff (hash : string) : M unit := _offTriggerOff hash.

(** The triggers filed under one name, in registration order. *)
Definition triggers_named (name : string) (em : EventEmitter) : list EventObject :=
  filter (fun m => strict_eq (eventName m) (NameString name)) (_offTriggers em).

Definition fire_triggers (name : string) : M unit :=
  offEvents <- gets (triggers_named name) ;;
  mapM (invoke null) offEvents ;;; ret tt.

Definition _offEmit (hash : string) : M unit :=
  fire_triggers (getOffName hash).

Definition _offEventEmit (name : option EventNameType) : M unit :=
  match to_template name with
  | Some rendered => fire_triggers (getOffEventName rendered)
  | None => throw type_error
  end.

Definition _offAllEmit : M unit :=
  fire_triggers getOffAllName.

Definition _offAction (hash : string) : M unit :=
  modify (fun em =>
    mkEmitter (filter (fun m => negb (String.eqb (eventHash m) hash)) (_events em))
              (_offTriggers em) (_states em)).

Definition _offEventAction (name : EventNameType) : M unit :=
  modify (fun em =>
    mkEmitter (filter (fun m => negb (strict_eq (eventName m) name)) (_events em))
              (_offTriggers em) (_states em)).

Definition _offAllAction : M unit :=
  modify (fun em => mkEmitter [] (_offTriggers em) (_states em)).

(** ** Unsubscribing *)

(** The body of the [try] block of [off]. *)
Definition off_cascade (hash : string) (name : option EventNameType) : M unit :=
  _offEmit hash ;;;
  remaining <- gets (getEvents_any name) ;;
  when (List.length remaining <=? 0)%nat (_offEventEmit name) ;;;
  all <- gets _events ;;
  when (List.length all <=? 0)%nat _offAllEmit.

Definition off (hash : string) : M unit :=
  currentEvent <- gets (fun em =>
    linq_first (fun m => String.eqb (eventHash m) hash) (_events em)) ;;
  let name := option_map eventName currentEvent in
  _offAction hash ;;;
  try_catch (off_cascade hash name) (fun _ => ret tt).

Definition offEvent_cascade (hashes : list string) (name : EventNameType) : M unit :=
  forEach _offEmit hashes ;;;
  _offEventEmit (Some name) ;;;
  all <- gets _events ;;
  when (List.length all <=? 0)%nat _offAllEmit.

Definition offEvent (name : EventNameType) : M unit :=
  hashes <- gets (fun em => map eventHash (getEvents name em)) ;;
  _offEventAction name ;;;
  try_catch (offEvent_cascade hashes name) (fun _ => ret tt).

Definition offAll_cascade (hashes : list string) (names : list EventNameType) : M unit :=
  forEach _offEmit hashes ;;;
  forEach (fun n => _offEventEmit (Some n)) names ;;;
  _offAllEmit.

Definition offAll : M unit :=
  hashes <- gets (fun em => map eventHash (_events em)) ;;
  names <- gets (fun em => distinct linq_same (map eventName (_events em))) ;;
  try_catch (offAll_cascade hashes names) (fun _ => ret tt) ;;;
  _offAllAction.

(** ** Emitting *)

Definition emitSync (name : EventNameType) (d : Data) : M unit :=
  events <- gets (getEvents name) ;;
  mapM (invoke d) events ;;; ret tt.

(** What one [async event => event.callback(...)] wrapper yields: the
    promise of the callback's return value, or a promise rejected with
    what the callback threw. *)
Inductive Handle :=
| HReturned (r : Ret)
| HThrown (e : Exn).

(** The promise an [async] emit returns: [Promise.all] over the
    handles, or a promise rejected before [Promise.all] was reached. *)
Inductive Completion :=
| AllOf (hs : list Handle)
| Failed (e : Exn).

Definition async_invoke (arg : Data) (event : EventObject) : M Handle :=
  try_catch (r <- invoke arg event ;; ret (HReturned r)) (fun e => ret (HThrown e)).

Definition emitAsync (name : EventNameType) (d : Data) : M Completion :=
  events <- gets (getEvents name) ;;
  hs <- mapM (async_invoke d) events ;;
  ret (AllOf hs).

(** ** State snapshots *)

Definition removeState (name : EventNameType) : M unit :=
  modify (fun em =>
    mkEmitter (_events em) (_offTriggers em)
              (filter (fun m => negb (strict_eq (stateName m) name)) (_states em))).

Definition push_state (st : StateObject) (em : EventEmitter) : EventEmitter :=
  mkEmitter (_events em) (_offTriggers em) (_states em ++ [st])%list.

Definition set_state (name : EventNameType) (d : Data) : M unit :=
  present <- gets (hasState name) ;;
  when present (removeState name) ;;;
  modify (push_state (mkState name d)).

Definition emitStateSync (name : EventNameType) (d : Data) : M unit :=
  set_state name d ;;;
  emitSync name d.

Definition emitStateAsync (name : EventNameType) (d : Data) : M Completion :=
  set_state name d ;;;
  emitAsync name d.

(** ** Vocabulary for the properties *)

(** The log entry of firing a trigger or a subscription with [arg]. *)
Definition firing_of (arg : Data) (o : EventObject) : Firing :=
  mkFiring (callback o) arg (eventHash o).

(** The system in which a callback subscribed by [on] runs when a
    snapshot is replayed to it: the subscription is registered and its
    identifier drawn. *)
Definition subscribed (name : EventNameType) (cb : Callback) (s : Sys) : World :=
  mkWorld (push_event (mkEvent name (guid (guids (world s))) cb) (emitter (world s)))
          (S (guids (world s))) (env (world s)).

Definition snapshots_named (name : EventNameType) (em : EventEmitter) : list StateObject :=
  filter (fun m => strict_eq (stateName m) name) (_states em).

(** At most one snapshot that [===] finds under a name. *)
Definition states_unique (em : EventEmitter) : Prop :=
  forall name, List.length (snapshots_named name em) <= 1.

(** The snapshots stored with a name, whether [===] finds them or not
    (those stored with [NaN] are never found). *)
Definition snapshots_of (name : EventNameType) (em : EventEmitter) : list StateObject :=
  filter (fun m => same_value (stateName m) name) (_states em).

(** An operation keeps a property of the registry, whether it returns
    or throws. *)
Definition keeps (P : EventEmitter -> Prop) {A} (m : M A) : Prop :=
  forall s, P (emitter (world s)) -> P (emitter (world (sys_after (m s)))).

(** No callback ever throws. *)
Definition never_throws : Prop :=
  forall cb d h w, threw (run cb d h w) = false.

(** The triggers in [hooks] fired one after the other, each on [null]
    and its own hash. *)
Definition fire_all (hooks : list EventObject) (s : Sys) : Sys :=
  fold_left (fun s o => sys_after (invoke null o s)) hooks s.

(** The triggers filed under [name] at this moment, fired. *)
Definition fire_named (name : string) (s : Sys) : Sys :=
  fire_all (triggers_named name (emitter (world s))) s.

(** None of the triggers in [hooks] throws when they are fired one
    after the other from [s]. *)
Fixpoint fires_quietly (hooks : list EventObject) (s : Sys) : Prop :=
  match hooks with
  | [] => True
  | o :: r =>
      threw (run (callback o) null (eventHash o) (world s)) = false /\
      fires_quietly r (sys_after (invoke null o s))
  end.

Definition quiet_named (name : string) (s : Sys) : Prop :=
  fires_quietly (triggers_named name (emitter (world s))) s.

Definition firings_named (name : string) (s : Sys) : list Firing :=
  map (firing_of null) (triggers_named name (emitter (world s))).

Definition no_subscription (name : EventNameType) (s : Sys) : bool :=
  (List.length (getEvents name (emitter (world s))) <=? 0)%nat.

Definition registry_empty (s : Sys) : bool :=
  (List.length (_events (emitter (world s))) <=? 0)%nat.

(** The system once the subscriptions with identifier [hash] are taken
    out of the table. *)
Definition without (hash : string) (s : Sys) : Sys :=
  mkSys (mkWorld
           (mkEmitter
              (filter (fun m => negb (String.eqb (eventHash m) hash))
                      (_events (emitter (world s))))
              (_offTriggers (emitter (world s))) (_states (emitter (world s))))
           (guids (world s)) (env (world s)))
        (fired s).

(** What unsubscribing [hash], registered by the subscription [o], is
    said to do: the subscription is removed; then the triggers of the
    identifier are fired; then, if the name of [o] has no subscription at
    that point, the triggers filed under the rendering of that name;
    then, if the registry has no subscription at that point, the
    triggers of the whole registry; [off] returns normally. *)
Definition unsubscribe_cascade (hash : string) (o : EventObject) (s : Sys) : Prop :=
  let name := eventName o in
  let s0 := without hash s in
  let s1 := fire_named (getOffName hash) s0 in
  let drained := no_subscription name s1 in
  let s2 := if drained then fire_named (getOffEventName (to_string name)) s1 else s1 in
  let cleared := registry_empty s2 in
  let s3 := if cleared then fire_named getOffAllName s2 else s2 in
  off hash s = Ok tt s3 /\
  has hash (emitter (world s0)) = false /\
  fired s3 =
    (fired s
     ++ firings_named (getOffName hash) s0
     ++ (if drained then firings_named (getOffEventName (to_string name)) s1 else [])
     ++ (if cleared then firings_named getOffAllName s2 else []))%list.

(** None of the triggers that unsubscribing [hash] fires throws. *)
Definition unsubscribe_quiet (hash : string) (o : EventObject) (s : Sys) : Prop :=
  let name := eventName o in
  let s0 := without hash s in
  let s1 := fire_named (getOffName hash) s0 in
  let drained := no_subscription name s1 in
  let s2 := if drained then fire_named (getOffEventName (to_string name)) s1 else s1 in
  quiet_named (getOffName hash) s0 /\
  (drained = true -> quiet_named (getOffEventName (to_string name)) s1) /\
  (registry_empty s2 = true -> quiet_named getOffAllName s2).

(** What unsubscribing an identifier is said to do when no subscription
    carries it: nothing at all. *)
Definition unsubscribe_noop (hash : string) (s : Sys) : Prop :=
  off hash s = Ok tt s.

(** The triggers filed under each of [names] fired, name after name:
    the system this leaves, and the firings it logs. *)
Definition fire_each (names : list string) (s : Sys) : Sys :=
  fold_left (fun s n => fire_named n s) names s.

Fixpoint firings_each (names : list string) (s : Sys) : list Firing :=
  match names with
  | [] => []
  | n :: r => (firings_named n s ++ firings_each r (fire_named n s))%list
  end.

Fixpoint quiet_each (names : list string) (s : Sys) : Prop :=
  match names with
  | [] => True
  | n :: r => quiet_named n s /\ quiet_each r (fire_named n s)
  end.

Definition cleared_of_subscriptions (s : Sys) : Sys :=
  mkSys (mkWorld
           (mkEmitter [] (_offTriggers (emitter (world s))) (_states (emitter (world s))))
           (guids (world s)) (env (world s)))
        (fired s).

(** What [offAll] is said to do: the triggers of every identifier are
    fired, then those of every name, and at the end those of the whole
    registry; [offAll] returns normally and no subscription is left. *)
Definition clear_cascade (s : Sys) : Prop :=
  let removed := map (fun m => getOffName (eventHash m)) (_events (emitter (world s))) in
  let drained :=
    map (fun n => getOffEventName (to_string n))
        (distinct linq_same (map eventName (_events (emitter (world s))))) in
  let s1 := fire_each removed s in
  let s2 := fire_each drained s1 in
  let s3 := fire_named getOffAllName s2 in
  offAll s = Ok tt (cleared_of_subscriptions s3) /\
  _events (emitter (world (cleared_of_subscriptions s3))) = [] /\
  fired (cleared_of_subscriptions s3) =
    (fired s
     ++ firings_each removed s
     ++ firings_each drained s1
     ++ firings_named getOffAllName s2)%list.

(** None of the triggers that [offAll] fires throws. *)
Definition clear_quiet (s : Sys) : Prop :=
  let removed := map (fun m => getOffName (eventHash m)) (_events (emitter (world s))) in
  let drained :=
    map (fun n => getOffEventName (to_string n))
        (distinct linq_same (map eventName (_events (emitter (world s))))) in
  let s1 := fire_each removed s in
  let s2 := fire_each drained s1 in
  quiet_each removed s /\ quiet_each drained s1 /\ quiet_named getOffAllName s2.

End Registry.

Arguments Ok {Data Exn Callback Env A} a s.
Arguments Raise {Data Exn Callback Env A} e s.
Arguments ret {Data Exn Callback Env A} a s.
Arguments gets {Data Exn Callback Env A} f s.
Arguments modify {Data Exn Callback Env} f s.
Arguments fresh_guid {Data Exn Callback Env} guid s.
Arguments Returned {Data Exn Callback Env} r w.
Arguments Threw {Data Exn Callback Env} e w.
Arguments _onTriggerOff {Data Exn Callback Env} guid name cb s.
Arguments _offTriggerOff {Data Exn Callback Env} hash s.
Arguments triggerOff {Data Exn Callback Env} guid hash cb s.
Arguments triggerOffEvent {Data Exn Callback Env} guid type_error name cb s.
Arguments throw {Data Exn Callback Env A} e s.
Arguments triggerOffAll {Data Exn Callback Env} guid cb s.
Arguments offTriggerOff {Data Exn Callback Env} hash s.
Arguments _offAction {Data Exn Callback Env} hash s.
Arguments _offEventAction {Data Exn Callback Env} name s.
Arguments _offAllAction {Data Exn Callback Env} s.
Arguments removeState {Data Exn Callback Env} name s.
Arguments set_state {Data Exn Callback Env} name d s.
Arguments states_unique {Data Callback} em.
Arguments HReturned {Exn} r.
Arguments HThrown {Exn} e.
Arguments AllOf {Exn} hs.
Arguments Failed {Exn} e.

(** ** Promises

    A promise handed back by a callback settles later, at most once.  A
    history is the list of settlements in the order they happen after the
    emit. *)

Section Promises.

Variable Exn : Type.

Inductive Settlement :=
| Fulfil (p : PromiseId)
| Reject (p : PromiseId) (reason : Exn).



Inductive Status :=
| Pending
| Fulfilled
| Rejected (reason : Exn).


(** [Promise.all]: the inputs not yet fulfilled, and the state of the
    promise it returned. *)
Record PromiseAll := mkAll {
  waiting : list PromiseId;
  result : Status
}.

Fixpoint first_thrown (hs : list (Handle Exn)) : option Exn :=
  match hs with
  | [] => None
  | HThrown e :: _ => Some e
  | HReturned _ :: r => first_thrown r
  end.

Fixpoint promises_of (hs : list (Handle Exn)) : list PromiseId :=
  match hs with
  | [] => []
  | HReturned (RPromise p) :: r => p :: promises_of r
  | _ :: r => promises_of r
  end.

(** The inputs that are settled at the call are taken in index order: a
    rejected one rejects the result; plain values count as fulfilled. *)
Definition all_start (hs : list (Handle Exn)) : PromiseAll :=
  let ps := promises_of hs in
  mkAll ps
        match first_thrown hs with
        | Some e => Rejected e
        | None => match ps with
                  | [] => Fulfilled
                  | _ :: _ => Pending
                  end
        end.

(** One input settles.  A fulfilment leaves the result pending until no
    input is waiting; a rejection rejects the result at once, if it is
    still pending. *)
Definition all_step (a : PromiseAll) (ev : Settlement) : PromiseAll :=
  match ev with
  | Fulfil p =>
      let ws := filter (fun q => negb (Nat.eqb q p)) (waiting a) in
      mkAll ws
            match result a, ws with
            | Pending, [] => Fulfilled
            | st, _ => st
            end
  | Reject p reason =>
      if existsb (Nat.eqb p) (waiting a)
      then mkAll (waiting a)
                 match result a with
                 | Pending => Rejected reason
                 | st => st
                 end
      else a
  end.

Definition all_status (hs : list (Handle Exn)) (hist : list Settlement) : Status :=
  result (fold_left all_step hist (all_start hs)).

Definition completion_status (c : Completion Exn) (hist : list Settlement) : Status :=
  match c with
  | AllOf hs => all_status hs hist
  | Failed e => Rejected e
  end.




End Promises.

Arguments Fulfil {Exn} p.
Arguments Pending {Exn}.
Arguments Fulfilled {Exn}.

(** ** The earlier registry (eventEmitter.ts)

    The same subscription and state tables and the same [on], [emitSync],
    state and query operations; the off-triggers are ordinary
    subscriptions under the names [off_<hash>] and [off_event_<name>],
    there is no trigger for the whole registry, and nothing is caught. *)

Module Legacy.
Section Registry.

Variable Data : Type.
Variable undefined : Data.
Variables Exn Callback Env : Type.
Variable guid : nat -> string.
Variable type_error : Exn.
Variable run : Callback -> Data -> string -> World Data Callback Env
               -> CbResult Data Exn Callback Env.

Local Abbreviation M := (M Data Exn Callback Env).
Local Notation "x <- m ;; k" := (bind m (fun x => k))
  (at level 61, m at next level, right associativity).
Local Notation "m ;;; k" := (bind m (fun _ => k))
  (at level 61, right associativity).

(** A name in a condition: the empty string and the numbers [0] and
    [NaN] are falsy, every other name is truthy. *)
Definition truthy (name : EventNameType) : bool :=
  match name with
  | NameString s => negb (String.eqb s "")
  | NameNumber NaN => false
  | NameNumber (Num rendering) => negb (String.eqb rendering "0")
  | NameSymbol _ _ => true
  end.

Definition offAll : M unit :=
  modify (fun em => mkEmitter [] (_offTriggers em) (_states em)).

Definition off (hash : string) : M unit :=
  currentEvent <- gets (fun em : EventEmitter Data Callback =>
    hd_error (filter (fun m => String.eqb (eventHash m) hash) (_events em))) ;;
  let currentEventName := option_map (@eventName Callback) currentEvent in
  modify (fun em =>
    mkEmitter (filter (fun m => negb (String.eqb (eventHash m) hash)) (_events em))
              (_offTriggers em) (_states em)) ;;;
  emitSync run (NameString ("off_" ++ hash)) undefined ;;;
  match currentEventName with
  | Some name =>
      remaining <- gets (getEvents name) ;;
      when (truthy name && (List.length remaining <=? 0)%nat)
           (emitSync run (NameString ("off_event_" ++ to_string name)) undefined)
  | None => ret tt
  end.

Definition offEvent (name : EventNameType) : M unit :=
  modify (fun em =>
    mkEmitter (filter (fun m => negb (strict_eq (eventName m) name)) (_events em))
              (_offTriggers em) (_states em)) ;;;
  match to_template (Some name) with
  | Some rendered => emitSync run (NameString ("off_event_" ++ rendered)) undefined
  | None => throw type_error
  end.

Definition triggerOff (hash : string) (cb : Callback) : M string :=
  on guid run (NameString ("off_" ++ hash)) cb.

Definition triggerOffEvent (name : EventNameType) (cb : Callback) : M string :=
  match to_template (Some name) with
  | Some rendered => on guid run (NameString ("off_event_" ++ rendered)) cb
  | None => throw type_error
  end.

(** [events.map(event => event.callback(...))] inside an [async]
    function: a callback that throws ends the map, and the promise
    returned is rejected with what it threw. *)
Definition emitAsync (name : EventNameType) (d : Data) : M (Completion Exn) :=
  try_catch
    (events <- gets (getEvents name) ;;
     rs <- mapM (invoke run d) events ;;
     ret (AllOf (map HReturned rs)))
    (fun e => ret (Failed e)).

Definition emitStateAsync (name : EventNameType) (d : Data) : M (Completion Exn) :=
  set_state name d ;;;
  emitAsync name d.

(** The executor of the promise [cacheCall] returns, as far as the
    registry goes: [hasEvent] is read, the listener (a closure over the
    promise's [resolve] and [reject]) is subscribed, and the result tells
    whether the reaction that will call the producer is queued. *)
Definition cacheCall (name : EventNameType) (listener : Callback) : M bool :=
  hasEv <- gets (hasEvent name) ;;
  on guid run name listener ;;;
  ret (negb hasEv).

End Registry.
End Legacy.

Arguments Legacy.offAll {Data Exn Callback Env} s.

(** ** The operations of both registries, as a caller sees them

    [waitEvent], [waitEventTimeout], [cacheCall] and [cacheSubscribe]
    reach the tables only through [on], [off], [emitAsync] and
    [triggerOffEvent] with callbacks of their own, so they are sequences of
    the operations below. *)

Section Operations.

Variable Data : Type.
Variables null undefined : Data.
Variables Exn Callback Env : Type.
Variable guid : nat -> string.
Variable type_error : Exn.
Variable linq_same : EventNameType -> EventNameType -> bool.
Variable run : Callback -> Data -> string -> World Data Callback Env
               -> CbResult Data Exn Callback Env.

Inductive Operation :=
| OpOn (name : EventNameType) (cb : Callback)
| OpOff (hash : string)
| OpOffEvent (name : EventNameType)
| OpOffAll
| OpTriggerOff (hash : string) (cb : Callback)
| OpTriggerOffEvent (name : EventNameType) (cb : Callback)
| OpTriggerOffAll (cb : Callback)
| OpOffTriggerOff (hash : string)
| OpEmitSync (name : EventNameType) (d : Data)
| OpEmitAsync (name : EventNameType) (d : Data)
| OpEmitStateSync (name : EventNameType) (d : Data)
| OpEmitStateAsync (name : EventNameType) (d : Data)
| OpRemoveState (name : EventNameType)
| OpLegacyOff (hash : string)
| OpLegacyOffEvent (name : EventNameType)
| OpLegacyOffAll
| OpLegacyTriggerOff (hash : string) (cb : Callback)
| OpLegacyTriggerOffEvent (name : EventNameType) (cb : Callback)
| OpLegacyEmitAsync (name : EventNameType) (d : Data)
| OpLegacyEmitStateAsync (name : EventNameType) (d : Data).

Local Abbreviation Sys := (Sys Data Callback Env).

(** The system an operation leaves, whether it returned or threw. *)
Definition perform (op : Operation) (s : Sys) : Sys :=
  match op with
  | OpOn name cb => sys_after (on guid run name cb s)
  | OpOff hash => sys_after (off null type_error run hash s)
  | OpOffEvent name => sys_after (offEvent null type_error run name s)
  | OpOffAll => sys_after (offAll null type_error linq_same run s)
  | OpTriggerOff hash cb => sys_after (triggerOff (Exn:=Exn) guid hash cb s)
  | OpTriggerOffEvent name cb => sys_after (triggerOffEvent guid type_error name cb s)
  | OpTriggerOffAll cb => sys_after (triggerOffAll (Exn:=Exn) guid cb s)
  | OpOffTriggerOff hash => sys_after (offTriggerOff (Exn:=Exn) hash s)
  | OpEmitSync name d => sys_after (emitSync run name d s)
  | OpEmitAsync name d => sys_after (emitAsync run name d s)
  | OpEmitStateSync name d => sys_after (emitStateSync run name d s)
  | OpEmitStateAsync name d => sys_after (emitStateAsync run name d s)
  | OpRemoveState name => sys_after (removeState (Exn:=Exn) name s)
  | OpLegacyOff hash => sys_after (Legacy.off undefined run hash s)
  | OpLegacyOffEvent name => sys_after (Legacy.offEvent undefined type_error run name s)
  | OpLegacyOffAll => sys_after (Legacy.offAll (Exn:=Exn) s)
  | OpLegacyTriggerOff hash cb => sys_after (Legacy.triggerOff guid run hash cb s)
  | OpLegacyTriggerOffEvent name cb =>
      sys_after (Legacy.triggerOffEvent guid type_error run name cb s)
  | OpLegacyEmitAsync name d => sys_after (Legacy.emitAsync run name d s)
  | OpLegacyEmitStateAsync name d => sys_after (Legacy.emitStateAsync run name d s)
  end.

Definition perform_all (ops : list Operation) (s : Sys) : Sys :=
  fold_left (fun s op => perform op s) ops s.

(** A registry just constructed, in any surroundings. *)
Definition fresh_sys (g : nat) (e : Env) : Sys :=
  mkSys (mkWorld (new_emitter Data Callback) g e) [].

End Operations.

(** ** The deduplication coordinator (cacheEmitter.ts)

    [CacheEmitter] owns a private registry and puts on it only the
    listeners that [call] creates.  A caller's promise is a number; the
    registry's callbacks act on the log of [resolve]/[reject] calls made
    on these promises. *)

Module CacheEmitter.
Section Coordinator.

(** Results and rejection reasons ([any]). *)
Variable Value : Type.
(** What destructuring [null] throws. *)
Variable type_error : Value.
(** References to the [realCallback] functions. *)
Variable Producer : Type.
Variable guid : nat -> string.

(** ['resolve' | 'reject'] *)
Inductive Tag := resolve | reject.

(** What travels on the registry: [{ data, type }], or the [null] of
    the off-triggers. *)
Inductive Payload :=
| PNull
| PMessage (data : Value) (type : Tag).

(** The closure [call] subscribes, with the [resolve]/[reject] pair of
    the promise it was created in. *)
Inductive Listener := CallListener (caller : PromiseId).

Inductive Settled :=
| Resolved (v : Value)
| RejectedWith (v : Value).

(** The [resolve]/[reject] calls made so far, oldest first.  A promise
    keeps its first settlement. *)
Definition Promises := list (PromiseId * Settled).

Definition promise_state (p : PromiseId) (log : Promises) : option Settled :=
  option_map snd (find (fun e => Nat.eqb (fst e) p) log).

Local Abbreviation World := (World Payload Listener Promises).
Local Abbreviation CbResult := (CbResult Payload Value Listener Promises).

Definition settle (p : PromiseId) (st : Settled) (w : World) : World :=
  mkWorld (emitter w) (guids w) (env w ++ [(p, st)])%list.

Definition responseCall (caller : PromiseId) (type : Tag) (d : Value) (w : World) : World :=
  match type with
  | resolve => settle caller (Resolved d) w
  | reject => settle caller (RejectedWith d) w
  end.

(** The behaviour of callbacks filed as off-triggers.  [call] files
    none. *)
Variable trigger_run : Listener -> Payload -> string -> World -> CbResult.

(** [({ data, type }) => { responseCall(type, data);
      if (this._emitter.has(eventHash)) this._emitter.off(eventHash); }]
    The closure reads [eventHash], the constant bound to what [on]
    returned: the hash the registry passes as second argument. *)
Definition listener (cb : Listener) (msg : Payload) (eventHash : string) (w : World)
  : CbResult :=
  match cb, msg with
  | CallListener caller, PMessage d type =>
      let w1 := responseCall caller type d w in
      if has eventHash (emitter w1)
      then match off PNull type_error trigger_run eventHash (mkSys w1 []) with
           | Ok _ s => Returned RVoid (world s)
           | Raise e s => Threw e (world s)
           end
      else Returned RVoid w1
  | CallListener _, PNull => Threw type_error w
  end.

Record Task := mkTask {
  task_key : string;
  task_producer : Producer
}.

Record Coordinator := mkCoordinator {
  _emitter : World;
  (** promises created by [call] so far *)
  callers : nat;
  (** [() => realCallback()] reactions queued, not yet run *)
  scheduled : list Task;
  (** producers invoked whose result is still awaited *)
  in_flight : list Task;
  (** every producer invocation, oldest first *)
  invoked : list Task;
  (** the invocations whose result has been sent to the listeners *)
  delivered : list Task
}.

Definition new_coordinator : Coordinator :=
  mkCoordinator (mkWorld (new_emitter Payload Listener) 0 []) 0 [] [] [] [].

(** The synchronous body of [call]: the executor of the promise it
    returns. *)
Definition call (eventName : string) (realCallback : Producer) (c : Coordinator)
  : PromiseId * Coordinator :=
  let caller := callers c in
  let hasEv := hasEvent eventName (emitter (_emitter c)) in
  match on guid listener eventName (CallListener caller) (mkSys (_emitter c) []) with
  | Ok _ s =>
      (caller,
       mkCoordinator (world s) (S caller)
         (if negb hasEv
          then (scheduled c ++ [mkTask eventName realCallback])%list
          else scheduled c)
         (in_flight c) (invoked c) (delivered c))
  | Raise e s =>
      (caller,
       mkCoordinator (settle caller (RejectedWith e) (world s)) (S caller)
         (scheduled c) (in_flight c) (invoked c) (delivered c))
  end.

(** [this._emitter.emitAsync(eventName, { data: d, type: 'resolve' })] *)
Definition broadcast (eventName : string) (d : Value) (w : World)
  : Completion Value * World :=
  match emitAsync listener eventName (PMessage d resolve) (mkSys w []) with
  | Ok c s => (c, world s)
  | Raise e s => (Failed e, world s)
  end.

(** [.then(result => emitAsync(...))] followed by [.catch(err =>
    emitAsync(...))]: the second emit happens when the first one's
    promise is rejected. *)
Definition then_emit (eventName : string) (result : Value) (w : World) : World :=
  let (c, w1) := broadcast eventName result w in
  match completion_status c [] with
  | Rejected err => snd (broadcast eventName err w1)
  | _ => w1
  end.

(** The producer failed: only the [.catch] reaction runs. *)
Definition catch_emit (eventName : string) (err : Value) (w : World) : World :=
  snd (broadcast eventName err w).

Inductive Outcome :=
| Resolves (result : Value)
| Rejects (err : Value).

(** The value with which the producer's promise settled. *)
Definition outcome_value (o : Outcome) : Value :=
  match o with
  | Resolves v => v
  | Rejects err => err
  end.

(** What can happen next: somebody invokes [call]; the oldest queued
    reaction runs and invokes its producer; the result of a producer in
    flight arrives. *)
Inductive Action :=
| Call (eventName : string) (realCallback : Producer)
| RunMicrotask
| Settle (i : nat) (o : Outcome).

Definition is_settle (a : Action) : bool :=
  match a with
  | Settle _ _ => true
  | _ => false
  end.

Definition remove_nth {A} (i : nat) (l : list A) : list A :=
  (firstn i l ++ skipn (S i) l)%list.

Definition step (c : Coordinator) (a : Action) : Coordinator :=
  match a with
  | Call eventName realCallback => snd (call eventName realCallback c)
  | RunMicrotask =>
      match scheduled c with
      | [] => c
      | t :: r =>
          mkCoordinator (_emitter c) (callers c) r
                        (in_flight c ++ [t])%list (invoked c ++ [t])%list (delivered c)
      end
  | Settle i o =>
      match nth_error (in_flight c) i with
      | None => c
      | Some t =>
          mkCoordinator
            match o with
            | Resolves v => then_emit (task_key t) v (_emitter c)
            | Rejects err => catch_emit (task_key t) err (_emitter c)
            end
            (callers c) (scheduled c) (remove_nth i (in_flight c)) (invoked c)
            (delivered c ++ [t])%list
      end
  end.

Definition run_actions (actions : list Action) : Coordinator :=
  fold_left step actions new_coordinator.

(** The tasks for one key. *)
Definition for_key (eventName : string) (ts : list Task) : list Task :=
  filter (fun t => String.eqb (task_key t) eventName) ts.

Definition caller_of (o : EventObject Listener) : PromiseId :=
  match callback o with
  | CallListener p => p
  end.

(** How many tasks for one key a list holds. *)
Definition count_key (eventName : string) (ts : list Task) : nat :=
  List.length (for_key eventName ts).

(** What holds of every state the coordinator reaches: the registry has
    no trigger and no snapshot; the identifiers of the listeners are
    distinct and were handed out by [guid]; a key has listeners exactly
    when one producer for it is queued or in flight; every invocation is
    in flight or delivered; the listeners belong to distinct promises
    created by [call], none of them settled. *)
Record coordinated (c : Coordinator) : Prop := {
  no_triggers : _offTriggers (emitter (_emitter c)) = [];
  no_states : _states (emitter (_emitter c)) = [];
  hashes_issued :
    forall o, In o (_events (emitter (_emitter c))) ->
              exists i, i < guids (_emitter c) /\ eventHash o = guid i;
  hashes_distinct : NoDup (map (@eventHash Listener) (_events (emitter (_emitter c))));
  one_active :
    forall k, count_key k (scheduled c) + count_key k (in_flight c)
              = if hasEvent k (emitter (_emitter c)) then 1 else 0;
  invoked_accounted :
    forall k, count_key k (invoked c)
              = count_key k (delivered c) + count_key k (in_flight c);
  callers_created :
    forall o, In o (_events (emitter (_emitter c))) -> caller_of o < callers c;
  callers_distinct : NoDup (map caller_of (_events (emitter (_emitter c))));
  settled_created :
    forall p st, In (p, st) (env (_emitter c)) -> p < callers c;
  listeners_pending :
    forall o, In o (_events (emitter (_emitter c))) ->
              promise_state (caller_of o) (env (_emitter c)) = None
}.

(** The world once the listeners [l] have each been handed [v] under
    the tag ['resolve']: their promises resolved with [v], in order, and
    they themselves unsubscribed. *)
Definition answered (v : Value) (l : list (EventObject Listener)) (w : World) : World :=
  mkWorld
    (mkEmitter
       (filter (fun m => negb (existsb (String.eqb (eventHash m)) (map (@eventHash _) l)))
               (_events (emitter w)))
       (_offTriggers (emitter w)) (_states (emitter w)))
    (guids w)
    (env w ++ map (fun o => (caller_of o, Resolved v)) l)%list.

(** The callers whose listeners wait on a key. *)
Definition waiting_on (eventName : string) (c : Coordinator) : list PromiseId :=
  map caller_of (getEvents eventName (emitter (_emitter c))).

End Coordinator.
End CacheEmitter.

(** ** Delivery and removal, step by step

    Vocabulary for what an emit does to the subscribers it found, for
    the cascades of [offEvent] and of [off] in the earlier registry, and
    for the tables an operation writes. *)

Section Delivery.

Variable Data : Type.
Variables null undefined : Data.
Variables Exn Callback Env : Type.
Variable guid : nat -> string.
Variable type_error : Exn.
Variable run : Callback -> Data -> string -> World Data Callback Env
               -> CbResult Data Exn Callback Env.

Local Abbreviation Sys := (Sys Data Callback Env).
Local Abbreviation EventObject := (EventObject Callback).

(** The subscriptions in [subs] each handed [d] and its own identifier,
    one after the other. *)
Definition deliver_all (d : Data) (subs : list EventObject) (s : Sys) : Sys :=
  fold_left (fun s o => sys_after (invoke run d o s)) subs s.

(** None of the subscriptions in [subs] throws when they are handed [d]
    one after the other from [s]. *)
Fixpoint delivers_quietly (d : Data) (subs : list EventObject) (s : Sys) : Prop :=
  match subs with
  | [] => True
  | o :: r =>
      threw (run (callback o) d (eventHash o) (world s)) = false /\
      delivers_quietly d r (sys_after (invoke run d o s))
  end.

(** What the wrapper [async event => event.callback(...)] makes of an
    invocation. *)
Definition handle_of (r : CbResult Data Exn Callback Env) : Handle Exn :=
  match r with
  | Returned r _ => HReturned r
  | Threw e _ => HThrown e
  end.

(** The handles of the subscriptions in [subs], each invoked in the
    system the ones before it left. *)
Fixpoint handles (d : Data) (subs : list EventObject) (s : Sys) : list (Handle Exn) :=
  match subs with
  | [] => []
  | o :: r =>
      handle_of (run (callback o) d (eventHash o) (world s))
      :: handles d r (sys_after (invoke run d o s))
  end.

(** The system once the subscriptions to [name] are taken out of the
    table. *)
Definition without_name (name : EventNameType) (s : Sys) : Sys :=
  mkSys (mkWorld
           (mkEmitter
              (filter (fun m => negb (strict_eq (eventName m) name))
                      (_events (emitter (world s))))
              (_offTriggers (emitter (world s))) (_states (emitter (world s))))
           (guids (world s)) (env (world s)))
        (fired s).

(** [offEvent]: the subscriptions to the name are removed; then the
    triggers of each removed identifier are fired, then those filed
    under the rendering of the name, then, if the registry has no
    subscription at that point, those of the whole registry. *)
Definition drain_cascade (name : EventNameType) (s : Sys) : Prop :=
  let removed :=
    map (fun m => getOffName (eventHash m)) (getEvents name (emitter (world s))) in
  let s0 := without_name name s in
  let s1 := fire_each null run removed s0 in
  let s2 := fire_named null run (getOffEventName (to_string name)) s1 in
  let cleared := registry_empty s2 in
  let s3 := if cleared then fire_named null run getOffAllName s2 else s2 in
  offEvent null type_error run name s = Ok tt s3 /\
  fired s3 =
    (fired s
     ++ firings_each null run removed s0
     ++ firings_named null (getOffEventName (to_string name)) s1
     ++ (if cleared then firings_named null getOffAllName s2 else []))%list.

(** None of the triggers that [offEvent] fires throws. *)
Definition drain_quiet (name : EventNameType) (s : Sys) : Prop :=
  let removed :=
    map (fun m => getOffName (eventHash m)) (getEvents name (emitter (world s))) in
  let s0 := without_name name s in
  let s1 := fire_each null run removed s0 in
  let s2 := fire_named null run (getOffEventName (to_string name)) s1 in
  quiet_each null run removed s0 /\
  quiet_named null run (getOffEventName (to_string name)) s1 /\
  (registry_empty s2 = true -> quiet_named null run getOffAllName s2).

(** [off] of the earlier registry, for the subscription [o] found under
    the identifier: the subscribers of [off_<hash>] are handed
    [undefined]; then, if the name of [o] is truthy and has no
    subscription at that point, the subscribers of [off_event_<name>]. *)
Definition legacy_drained (o : EventObject) (s1 : Sys) : bool :=
  Legacy.truthy (eventName o) && no_subscription (eventName o) s1.

Definition legacy_cascade (hash : string) (o : EventObject) (s : Sys) : Sys :=
  let s0 := without hash s in
  let s1 := deliver_all undefined
              (getEvents (NameString ("off_" ++ hash)) (emitter (world s0))) s0 in
  if legacy_drained o s1
  then deliver_all undefined
         (getEvents (NameString ("off_event_" ++ to_string (eventName o)))
                    (emitter (world s1))) s1
  else s1.

Definition legacy_cascade_quiet (hash : string) (o : EventObject) (s : Sys) : Prop :=
  let s0 := without hash s in
  let s1 := deliver_all undefined
              (getEvents (NameString ("off_" ++ hash)) (emitter (world s0))) s0 in
  delivers_quietly undefined
    (getEvents (NameString ("off_" ++ hash)) (emitter (world s0))) s0 /\
  (legacy_drained o s1 = true ->
   delivers_quietly undefined
     (getEvents (NameString ("off_event_" ++ to_string (eventName o)))
                (emitter (world s1))) s1).

(** The identifiers in the two tables were handed out by [guid], those
    of the triggers under their prefix, and no two entries of a table
    share one. *)
Definition identifiers_issued (w : World Data Callback Env) : Prop :=
  (forall o, In o (_events (emitter w)) ->
             exists i, i < guids w /\ eventHash o = guid i) /\
  NoDup (map (@eventHash Callback) (_events (emitter w))) /\
  (forall o, In o (_offTriggers (emitter w)) ->
             exists i, i < guids w /\ eventHash o = "trigger_off_" ++ guid i) /\
  NoDup (map (@eventHash Callback) (_offTriggers (emitter w))).

(** An operation keeps a property of the world the callbacks see,
    whether it returns or throws. *)
Definition keeps_world (P : World Data Callback Env -> Prop) {A}
           (m : M Data Exn Callback Env A) : Prop :=
  forall s, P (world s) -> P (world (sys_after (m s))).

(** An operation only adds to the log of invocations. *)
Definition grows_log {A} (m : M Data Exn Callback Env A) : Prop :=
  forall s, exists rest, fired (sys_after (m s)) = (fired s ++ rest)%list.

(** The operations that write the trigger table, the snapshot table and
    the subscription table themselves. *)
Definition files_triggers (op : Operation Data Callback) : bool :=
  match op with
  | OpTriggerOff _ _ _ | OpTriggerOffEvent _ _ _ | OpTriggerOffAll _ _
  | OpOffTriggerOff _ _ _ => true
  | _ => false
  end.

Definition stores_snapshots (op : Operation Data Callback) : bool :=
  match op with
  | OpEmitStateSync _ _ _ | OpEmitStateAsync _ _ _ | OpRemoveState _ _ _
  | OpLegacyEmitStateAsync _ _ _ => true
  | _ => false
  end.

Definition changes_subscriptions (op : Operation Data Callback) : bool :=
  match op with
  | OpOn _ _ _ | OpOff _ _ _ | OpOffEvent _ _ _ | OpOffAll _ _
  | OpLegacyOff _ _ _ | OpLegacyOffEvent _ _ _ | OpLegacyOffAll _ _
  | OpLegacyTriggerOff _ _ _ | OpLegacyTriggerOffEvent _ _ _ => true
  | _ => false
  end.

End Delivery.

(** ** Waiting for an event ([waitEvent])

    [waitEvent] returns a promise and subscribes a closure of its own,
    which holds the [resolve] and [reject] of that promise.  The registry
    then carries two kinds of callbacks: those of the program and these
    closures. *)

Module Waiting.
Section WaitEvent.

Variable Data : Type.
Variable null : Data.
Variable Exn : Type.
(** The callbacks of the program. *)
Variable Callback : Type.
Variable Env : Type.
Variable guid : nat -> string.
Variable type_error : Exn.

Inductive Subscriber :=
| Plain (cb : Callback)
| WaitListener (p : PromiseId).

Inductive Settled :=
| Resolved (d : Data)
| RejectedWith (e : Exn).

(** Around the registry: how many promises [waitEvent] has created, the
    [resolve]/[reject] calls made on them, oldest first (a promise keeps
    its first settlement), and the rest of the program. *)
Record Surroundings := mkSurroundings {
  created : nat;
  settlements : list (PromiseId * Settled);
  outside : Env
}.

Definition promise_state (p : PromiseId) (log : list (PromiseId * Settled))
  : option Settled :=
  option_map snd (find (fun e => Nat.eqb (fst e) p) log).

Local Abbreviation World := (World Data Subscriber Surroundings).
Local Abbreviation CbResult := (CbResult Data Exn Subscriber Surroundings).

Definition settle (p : PromiseId) (st : Settled) (w : World) : World :=
  mkWorld (emitter w) (guids w)
          (mkSurroundings (created (env w)) (settlements (env w) ++ [(p, st)])%list
                          (outside (env w))).

(** The behaviour of the program's callbacks when subscribed, and of
    the callbacks filed as off-triggers.  [waitEvent] files none. *)
Variable plain_run : Callback -> Data -> string -> World -> CbResult.
Variable trigger_run : Subscriber -> Data -> string -> World -> CbResult.

(** [(data, eventHash) => { try { resolve(data); } catch (err) {
      reject(err); } finally { this.off(eventHash); } }]
    [resolve] does not throw, so the handler is never entered; the
    [finally] block unsubscribes the identifier the registry passed. *)
Definition listener (cb : Subscriber) (d : Data) (eventHash : string) (w : World)
  : CbResult :=
  match cb with
  | Plain u => plain_run u d eventHash w
  | WaitListener p =>
      match off null type_error trigger_run eventHash
                (mkSys (settle p (Resolved d) w) []) with
      | Ok _ s => Returned RVoid (world s)
      | Raise e s => Threw e (world s)
      end
  end.

(** [new Promise((resolve, reject) => { this.on(eventName, ...) })]:
    the executor runs before [waitEvent] returns; what it throws rejects
    the promise. *)
Definition waitEvent (name : EventNameType)
  : M Data Exn Subscriber Surroundings PromiseId :=
  fun s =>
    let p := created (env (world s)) in
    let s0 := mkSys (mkWorld (emitter (world s)) (guids (world s))
                             (mkSurroundings (S p) (settlements (env (world s)))
                                             (outside (env (world s)))))
                    (fired s) in
    match on guid listener name (WaitListener p) s0 with
    | Ok _ s1 => Ok p s1
    | Raise e s1 => Ok p (mkSys (settle p (RejectedWith e) (world s1)) (fired s1))
    end.

End WaitEvent.
End Waiting.

(** ** The shared subscription of the coordinator ([subscribe],
    [unsubscribe])

    [subscribe] puts the consumer's callback on the private registry
    and, for the first consumer of a key, queues the call of
    [realCallback] and files an [async] closure as trigger of the key's
    last unsubscription.  The registry then carries the consumers'
    callbacks and these closures; around it are the variables the
    closures share with [subscribe], and the continuations of the
    closures suspended at their [await]. *)

Module Shared.
Section Subscribe.

(** What the upstream sends ([any]), with the [null] passed to
    triggers. *)
Variable Data : Type.
Variable null : Data.
Variable Exn : Type.
(** What an exhausted call stack throws. *)
Variable stack_overflow : Exn.
(** The [TypeError] of a symbol converted to a string. *)
Variable type_error : Exn.
(** References to the functions of the program: [cacheCallback],
    [realCallback], and the closing function the latter yields. *)
Variables Consumer Opener Closer : Type.
Variable Outside : Type.
Variable guid : nat -> string.

Inductive Handler :=
| Consume (cacheCallback : Consumer)
(** the [async () => ...] of the given activation *)
| DrainHook (activation : nat).

(** The promise [Promise.resolve().then(() => realCallback(...))]. *)
Inductive Unlistener :=
(** the reaction that calls [realCallback] has not run yet *)
| Queued
(** [realCallback] was called; what it returned has not settled *)
| Opening
(** fulfilled, with a closing function or with something falsy *)
| Opened (unlistener : option Closer)
(** rejected *)
| OpenFailed (e : Exn).

(** One execution of the block [if (!hasEvent) { ... }]: the promise
    created for [unlistenerPromise], whether that variable has been set
    to [null] since, and [triggerOffEventHash]. *)
Record Activation := mkActivation {
  act_key : string;
  realCallback : Opener;
  unlistenerPromise : Unlistener;
  forgotten : bool;
  triggerOffEventHash : string
}.

(** Calls of the program's functions that are not registry callbacks. *)
Inductive Effect :=
| OpenerCalled (a : nat)
| CloserCalled (a : nat).

Record Surroundings := mkSurroundings {
  activations : list Activation;
  (** the closures suspended at [await unlistenerPromise], by activation *)
  suspended : list nat;
  effects : list Effect;
  outside : Outside
}.

Local Abbreviation World := (World Data Handler Surroundings).
Local Abbreviation CbResult := (CbResult Data Exn Handler Surroundings).

(** What the program's functions do when called. *)
Variable consumer_run : Consumer -> Data -> string -> World -> CbResult.
Variable opener_run : Opener -> nat -> World -> World.
Variable closer_run : Closer -> World -> CbResult.

Fixpoint update_nth {A} (i : nat) (f : A -> A) (l : list A) : list A :=
  match l, i with
  | [], _ => []
  | x :: r, 0 => f x :: r
  | x :: r, S j => x :: update_nth j f r
  end.

Definition with_env (f : Surroundings -> Surroundings) (w : World) : World :=
  mkWorld (emitter w) (guids w) (f (env w)).

Definition suspend (a : nat) (w : World) : World :=
  with_env (fun v => mkSurroundings (activations v) (suspended v ++ [a])%list
                                    (effects v) (outside v)) w.

Definition log_effect (x : Effect) (w : World) : World :=
  with_env (fun v => mkSurroundings (activations v) (suspended v)
                                    (effects v ++ [x])%list (outside v)) w.

Definition update_activation (a : nat) (f : Activation -> Activation) (w : World)
  : World :=
  with_env (fun v => mkSurroundings (update_nth a f (activations v)) (suspended v)
                                    (effects v) (outside v)) w.

(** [unlistener = null; unlistenerPromise = null;] *)
Definition forget (act : Activation) : Activation :=
  mkActivation (act_key act) (realCallback act) (unlistenerPromise act) true
               (triggerOffEventHash act).

Definition settle_promise (st : Unlistener) (act : Activation) : Activation :=
  mkActivation (act_key act) (realCallback act) st (forgotten act)
               (triggerOffEventHash act).

Definition bind_hash (hash : string) (act : Activation) : Activation :=
  mkActivation (act_key act) (realCallback act) (unlistenerPromise act) (forgotten act)
               hash.

(** The callbacks as the registry invokes them, on a call stack with
    room for [depth] nested calls of [off].
    [async () => {
       let unlistener = unlistenerPromise && (await unlistenerPromise);
       if (unlistener) { unlistener(); unlistener = null; unlistenerPromise = null; }
       this._emitter.off(triggerOffEventHash);
     }]
    up to its [await]: where the variable is [null] there is none, and
    the closure goes straight to [off]; an [async] function hands what
    is thrown inside to its promise. *)
Fixpoint run (depth : nat) (cb : Handler) (d : Data) (eventHash : string) (w : World)
  : CbResult :=
  match cb with
  | Consume cacheCallback => consumer_run cacheCallback d eventHash w
  | DrainHook a =>
      match nth_error (activations (env w)) a with
      | Some act =>
          if forgotten act
          then match depth with
               | 0 => Threw stack_overflow w
               | S n =>
                   Returned (RPromise a)
                     (world (sys_after (off null type_error (run n) (triggerOffEventHash act)
                                            (mkSys w []))))
               end
          else Returned (RPromise a) (suspend a w)
      | None => Returned (RPromise a) w
      end
  end.

(** The continuation of the closure suspended first (at index [i] of the
    suspended ones), run once the promise it awaits has settled: a
    rejection ends it; a closing function is called and, unless it
    throws, the variables are set to [null]; then [off]. *)
Definition resume (depth : nat) (i : nat) (w : World) : World :=
  match nth_error (suspended (env w)) i with
  | None => w
  | Some a =>
      match nth_error (activations (env w)) a with
      | None => w
      | Some act =>
          let w0 :=
            with_env (fun v => mkSurroundings (activations v)
                                 (CacheEmitter.remove_nth i (suspended v))
                                 (effects v) (outside v)) w in
          let unsubscribe_self (w1 : World) : World :=
            world (sys_after (off null type_error (run depth) (triggerOffEventHash act)
                                  (mkSys w1 []))) in
          match unlistenerPromise act with
          | Queued | Opening => w
          | OpenFailed _ => w0
          | Opened None => unsubscribe_self w0
          | Opened (Some unlistener) =>
              match closer_run unlistener (log_effect (CloserCalled a) w0) with
              | Returned _ w1 => unsubscribe_self (update_activation a forget w1)
              | Threw _ w1 => w1
              end
          end
      end
  end.

(** [subscribe(eventName, realCallback, cacheCallback)] *)
Definition subscribe (depth : nat) (eventName : string) (realCallback : Opener)
           (cacheCallback : Consumer) : M Data Exn Handler Surroundings string :=
  fun s =>
    let hasEv := hasEvent eventName (emitter (world s)) in
    match on guid (run depth) eventName (Consume cacheCallback) s with
    | Raise e s1 => Raise e s1
    | Ok eventHash s1 =>
        if hasEv then Ok eventHash s1
        else
          let a := List.length (activations (env (world s1))) in
          let w2 :=
            with_env (fun v =>
              mkSurroundings
                (activations v ++ [mkActivation eventName realCallback Queued false ""])%list
                (suspended v) (effects v) (outside v)) (world s1) in
          match triggerOffEvent guid type_error eventName (DrainHook a)
                                (mkSys w2 (fired s1)) with
          | Raise e s3 => Raise e s3
          | Ok hash s3 =>
              Ok eventHash
                 (mkSys (update_activation a (bind_hash hash) (world s3)) (fired s3))
          end
    end.

(** [unsubscribe(eventHash)] *)
Definition unsubscribe (depth : nat) (eventHash : string)
  : M Data Exn Handler Surroundings unit :=
  off null type_error (run depth) eventHash.

(** The queued reaction of an activation runs: [realCallback] is
    called. *)
Definition run_opener (a : nat) (w : World) : World :=
  match nth_error (activations (env w)) a with
  | Some act =>
      match unlistenerPromise act with
      | Queued =>
          update_activation a (settle_promise Opening)
            (opener_run (realCallback act) a (log_effect (OpenerCalled a) w))
      | _ => w
      end
  | None => w
  end.

(** What [realCallback] returned settles. *)
Definition opener_settles (a : nat) (st : Unlistener) (w : World) : World :=
  match nth_error (activations (env w)) a with
  | Some act =>
      match unlistenerPromise act, st with
      | Opening, Opened _ | Opening, OpenFailed _ =>
          update_activation a (settle_promise st) w
      | _, _ => w
      end
  | None => w
  end.

(** The upstream calls the function [realCallback] was handed:
    [data => { this._emitter.emitAsync(eventName, data); }] *)
Definition upstream_emits (depth : nat) (a : nat) (d : Data)
  : M Data Exn Handler Surroundings unit :=
  fun s =>
    match nth_error (activations (env (world s))) a with
    | Some act =>
        match emitAsync (run depth) (act_key act) d s with
        | Ok _ s1 => Ok tt s1
        | Raise e s1 => Raise e s1
        end
    | None => Ok tt s
    end.

(** What can happen next: the program calls [subscribe] or
    [unsubscribe]; a queued reaction runs; what [realCallback] returned
    settles; a suspended closure resumes; the upstream sends a value. *)
Inductive Action :=
| Subscribe (eventName : string) (realCallback : Opener) (cacheCallback : Consumer)
| Unsubscribe (eventHash : string)
| RunOpener (a : nat)
| OpenerSettles (a : nat) (st : Unlistener)
| Resume (i : nat)
| UpstreamEmits (a : nat) (d : Data).

Definition step (depth : nat) (s : Sys Data Handler Surroundings) (x : Action)
  : Sys Data Handler Surroundings :=
  match x with
  | Subscribe eventName realCallback cacheCallback =>
      sys_after (subscribe depth eventName realCallback cacheCallback s)
  | Unsubscribe eventHash => sys_after (unsubscribe depth eventHash s)
  | RunOpener a => mkSys (run_opener a (world s)) (fired s)
  | OpenerSettles a st => mkSys (opener_settles a st (world s)) (fired s)
  | Resume i => mkSys (resume depth i (world s)) (fired s)
  | UpstreamEmits a d => sys_after (upstream_emits depth a d s)
  end.

(** [new CacheEmitter()] *)
Definition new_hub (out : Outside) : Sys Data Handler Surroundings :=
  mkSys (mkWorld (new_emitter Data Handler) 0 (mkSurroundings [] [] [] out)) [].

Definition run_actions (depth : nat) (out : Outside) (actions : list Action)
  : Sys Data Handler Surroundings :=
  fold_left (step depth) actions (new_hub out).

(** The program passes [unsubscribe] identifiers that [subscribe] can
    have returned, and does not use the key [undefined]. *)
Definition well_formed (x : Action) : Prop :=
  match x with
  | Subscribe eventName _ _ => eventName <> "undefined"
  | Unsubscribe eventHash => exists i, eventHash = guid i
  | _ => True
  end.

(** What [subscribe] fixes of an activation for good: its key and the
    identifier of its trigger. *)
Definition filed (acts : list Activation) : list (string * string) :=
  map (fun act => (act_key act, triggerOffEventHash act)) acts.

(** Two worlds with the same registry, the same count of identifiers
    drawn and the same activations, whatever the state of their
    promises. *)
Definition hub_same (w w' : World) : Prop :=
  emitter w' = emitter w /\ guids w' = guids w /\
  filed (activations (env w')) = filed (activations (env w)).

(** The program's functions do not call the coordinator themselves. *)
Definition keep_out : Prop :=
  (forall u d h w, hub_same w (world_after (consumer_run u d h w))) /\
  (forall o a w, hub_same w (opener_run o a w)) /\
  (forall c w, hub_same w (world_after (closer_run c w))).

(** Nothing is filed under the names that [off] looks up when a closure
    gives it the identifier of its own trigger, and no subscription
    carries such an identifier. *)
Definition closures_silent (w : World) : Prop :=
  triggers_named (getOffEventName "undefined") (emitter w) = [] /\
  triggers_named getOffAllName (emitter w) = [] /\
  forall act, In act (activations (env w)) ->
    has (triggerOffEventHash act) (emitter w) = false /\
    triggers_named (getOffName (triggerOffEventHash act)) (emitter w) = [].

(** The program's functions change nothing of the coordinator: not the
    registry, not the variables of the closures, not which closures are
    suspended. *)
Definition beside (w w' : World) : Prop :=
  emitter w' = emitter w /\ guids w' = guids w /\
  activations (env w') = activations (env w) /\
  suspended (env w') = suspended (env w) /\
  effects (env w') = effects (env w).

Definition stay_out : Prop :=
  (forall u d h w, beside w (world_after (consumer_run u d h w))) /\
  (forall o a w, beside w (opener_run o a w)) /\
  (forall c w, beside w (world_after (closer_run c w))).

(** The triggers [subscribe] has filed for the activations, from the
    activation [n] on. *)
Fixpoint hooks_of (n : nat) (keys : list (string * string))
  : list (EventObject Handler) :=
  match keys with
  | [] => []
  | (eventName, hash) :: r =>
      mkEvent (getOffEventName eventName) hash (DrainHook n) :: hooks_of (S n) r
  end.

(** Whether the registry has invoked the closure of an activation. *)
Definition told (a : nat) (log : list (Firing Data Handler)) : bool :=
  existsb (fun f => match fired_callback f with
                    | DrainHook b => Nat.eqb b a
                    | Consume _ => false
                    end) log.

(** The activations of a key whose closure has not been invoked: the
    upstream they opened, or will open, has not been told to close. *)
Fixpoint wanted_from (n : nat) (eventName : string) (keys : list (string * string))
         (log : list (Firing Data Handler)) : list nat :=
  match keys with
  | [] => []
  | (key, _) :: r =>
      if String.eqb key eventName && negb (told n log)
      then n :: wanted_from (S n) eventName r log
      else wanted_from (S n) eventName r log
  end.

Definition wanted (eventName : string) (s : Sys Data Handler Surroundings) : list nat :=
  wanted_from 0 eventName (filed (activations (env (world s)))) (fired s).

(** What invoking the closures logged in [log] does to a world: nothing
    but suspending some of them. *)
Definition parked (w w' : World) (log : list (Firing Data Handler)) : Prop :=
  emitter w' = emitter w /\ guids w' = guids w /\
  activations (env w') = activations (env w) /\
  effects (env w') = effects (env w) /\
  forall b, In b (suspended (env w')) -> In b (suspended (env w)) \/ told b log = true.

(** How often [realCallback] has been called for an activation, and
    whether a closing function has been called for it. *)
Definition opened (a : nat) (fx : list Effect) : nat :=
  List.length (filter (fun x => match x with
                                | OpenerCalled b => Nat.eqb b a
                                | CloserCalled _ => false
                                end) fx).

Definition closed (a : nat) (fx : list Effect) : bool :=
  existsb (fun x => match x with
                    | OpenerCalled _ => false
                    | CloserCalled b => Nat.eqb b a
                    end) fx.

(** What holds of the calls made to the program's functions: a closure
    is suspended only after the registry has invoked it; a closing
    function has been called only for an activation whose closure the
    registry has invoked and whose promise was fulfilled with that
    function; [realCallback] has been called once for the activations
    whose promise is past its first state and never for the others. *)
Record effects_inv (acts : list Activation) (susp : list nat) (fx : list Effect)
       (log : list (Firing Data Handler)) : Prop := {
  fx_suspended : forall a, In a susp -> told a log = true;
  fx_closed :
    forall a, closed a fx = true ->
              told a log = true /\
              exists act c, nth_error acts a = Some act /\
                            unlistenerPromise act = Opened (Some c);
  fx_opened :
    forall a, opened a fx
              = match nth_error acts a with
                | Some act => match unlistenerPromise act with
                              | Queued => 0
                              | _ => 1
                              end
                | None => 0
                end
}.

Definition effects_ok (s : Sys Data Handler Surroundings) : Prop :=
  effects_inv (activations (env (world s))) (suspended (env (world s)))
              (effects (env (world s))) (fired s).

(** What holds of every state the coordinator reaches through
    [subscribe] and [unsubscribe], in terms of the registry, the count
    of identifiers drawn, the activations made and the log: the registry
    has no snapshot; its subscriptions are consumers under distinct
    identifiers handed out by [guid], their names the string keys
    [subscribe] was given; its triggers are the closures of
    the activations, none of them ever removed; only closures of
    activations made have been invoked; and a key has one activation not
    yet told to close exactly when it has a consumer. *)
Record hub_inv (em : EventEmitter Data Handler) (g : nat)
       (keys : list (string * string)) (log : list (Firing Data Handler)) : Prop := {
  hub_no_states : _states em = [];
  hub_consumers :
    forall o, In o (_events em) ->
              (exists u, callback o = Consume u) /\
              exists i, i < g /\ eventHash o = guid i;
  hub_hashes_distinct : NoDup (map (@eventHash Handler) (_events em));
  hub_triggers : _offTriggers em = hooks_of 0 keys;
  hub_keys :
    forall key hash, In (key, hash) keys ->
                     key <> "undefined" /\ exists j, hash = "trigger_off_" ++ guid j;
  hub_told_known : forall a, told a log = true -> a < List.length keys;
  hub_wanted :
    forall k, List.length (wanted_from 0 k keys log)
              = if hasEvent k em then 1 else 0;
  hub_names :
    forall o, In o (_events em) -> exists k : string, eventName o = NameString k
}.

Definition hub_ok (s : Sys Data Handler Surroundings) : Prop :=
  hub_inv (emitter (world s)) (guids (world s)) (filed (activations (env (world s))))
          (fired s).

End Subscribe.
End Shared.

Arguments Shared.DrainHook {Consumer} activation.
Arguments Shared.Queued {Exn Closer}.
Arguments Shared.Opening {Exn Closer}.
Arguments Shared.Opened {Exn Closer} unlistener.
Arguments Shared.OpenFailed {Exn Closer} e.
Arguments Shared.Subscribe {Data Exn Consumer Opener Closer} eventName realCallback
  cacheCallback.
Arguments Shared.Unsubscribe {Data Exn Consumer Opener Closer} eventHash.
Arguments Shared.RunOpener {Data Exn Consumer Opener Closer} a.
Arguments Shared.OpenerSettles {Data Exn Consumer Opener Closer} a st.
Arguments Shared.Resume {Data Exn Consumer Opener Closer} i.
Arguments Shared.UpstreamEmits {Data Exn Consumer Opener Closer} a d.
Arguments Shared.hooks_of {Consumer} n keys.
Arguments Shared.new_hub {Data Exn Consumer Opener Closer Outside} out.

(** ** Registries made from a registry (createNewEmitter)

    [createNewEmitter] hands the array [_events] itself to the filter
    and keeps the array the filter returns, which may be that very
    array: two registries can then share one array.  [on] pushes onto
    the array in place, while [off], [offEvent] and [offAll] assign a
    new array to the field.  So here the arrays live in a store and a
    registry holds the address of its subscription array. *)

Module Derived.
Section Arrays.

Variable Data : Type.
Variable Callback : Type.

Local Abbreviation EventObject := (EventObject Callback).
Local Abbreviation StateObject := (StateObject Data).

Definition Address := nat.

(** The arrays allocated so far, by address. *)
Definition Store := list (list EventObject).

(** A registry object: [_events] is a reference. *)
Record Registry := mkRegistry {
  events_at : Address;
  triggers : list EventObject;
  states : list StateObject
}.

Definition array_at (st : Store) (a : Address) : list EventObject := nth a st [].

(** A new array: [[...l]], [l.filter(...)], [[o]]. *)
Definition allocate (st : Store) (l : list EventObject) : Address * Store :=
  (List.length st, (st ++ [l])%list).

(** [array.push(o)]: the array at the address changes in place. *)
Fixpoint push_at (st : Store) (a : Address) (o : EventObject) : Store :=
  match st, a with
  | [], _ => []
  | l :: rest, 0 => (l ++ [o])%list :: rest
  | l :: rest, S b => l :: push_at rest b o
  end.

(** The registry as its operations read it. *)
Definition emitter_of (st : Store) (r : Registry) : EventEmitter Data Callback :=
  mkEmitter (array_at st (events_at r)) (triggers r) (states r).

(** What a filter returns: one subscription, or an array, which may be
    the one it was given. *)
Inductive Selection :=
| OneEvent (o : EventObject)
| ArrayAt (a : Address).

(** A filter is a function of the program: it is handed the array
    [_events] and may allocate arrays or change them. *)
Definition Filter := Address -> Store -> Selection * Store.

(** [data => data]. *)
Definition identity_filter : Filter := fun a st => (ArrayAt a, st).

(** [new cls()] has empty tables; its [_events] is then replaced. *)
Definition createNewEmitter (filter : option Filter) (this : Registry) (st : Store)
  : Registry * Store :=
  let (newEvents, st1) :=
    match filter with
    | Some f => f (events_at this) st
    | None =>
        let (a, st') := allocate st (array_at st (events_at this)) in (ArrayAt a, st')
    end in
  match newEvents with
  | ArrayAt a => (mkRegistry a [] [], st1)
  | OneEvent o => let (a, st2) := allocate st1 [o] in (mkRegistry a [] [], st2)
  end.

End Arrays.
End Derived.

Arguments Derived.OneEvent {Callback} o.
Arguments Derived.ArrayAt {Callback} a.
Arguments Derived.identity_filter {Callback} a st.
Arguments Derived.mkRegistry {Data Callback} events_at triggers states.

(** ** Concrete registries and coordinators

    Small instances on which the operations are run: payloads are numbers
    (or [null], [undefined]), thrown values are strings, callbacks are
    numbered, and the surroundings of the registry are empty. *)

Module Sample.

Inductive Js :=
| js_null
| js_undefined
| js_num (n : nat).

(** The identifiers handed out: [g], [gi], [gii], ... *)
Fixpoint tally (n : nat) : string :=
  match n with
  | 0 => ""
  | S k => String "i"%char (tally k)
  end.

Definition guid (n : nat) : string := String "g"%char (tally n).

Definition SWorld := World Js nat unit.
Definition SResult := CbResult Js string nat unit.

(** Callbacks that never throw: number 0 returns nothing, number [n+1]
    returns promise [n]; none touches the registry. *)
Definition quiet (cb : nat) (d : Js) (h : string) (w : SWorld) : SResult :=
  match cb with
  | 0 => Returned RVoid w
  | S p => Returned (RPromise p) w
  end.

(** The same, except that number 1 throws. *)
Definition faulty (cb : nat) (d : Js) (h : string) (w : SWorld) : SResult :=
  match cb with
  | 0 => Returned RVoid w
  | 1 => Threw "boom" w
  | S (S p) => Returned (RPromise p) w
  end.

Definition sys_of (em : EventEmitter Js nat) : Sys Js nat unit :=
  mkSys (mkWorld em 0 tt) [].

(** One subscription to [x]; two triggers filed for its identifier, one
    for its name and one for the whole registry. *)
Definition watched (first_trigger : nat) : Sys Js nat unit :=
  sys_of (mkEmitter
            [mkEvent "x" "h1" 0]
            [mkEvent (getOffName "h1") "t1" first_trigger;
             mkEvent (getOffName "h1") "t1b" 0;
             mkEvent (getOffEventName "x") "t2" 0;
             mkEvent getOffAllName "t3" 0]
            []).

(** No subscription; one trigger filed for the whole registry. *)
Definition idle : Sys Js nat unit :=
  sys_of (mkEmitter [] [mkEvent getOffAllName "t3" 0] []).

(** A subscription to [y], and a trigger still filed for an identifier
    that is no longer (or was never) subscribed. *)
Definition revisited : Sys Js nat unit :=
  sys_of (mkEmitter [mkEvent "y" "h2" 0] [mkEvent (getOffName "h1") "t1" 0] []).

(** One subscription to [x], no trigger. *)
Definition plain : Sys Js nat unit :=
  sys_of (mkEmitter [mkEvent "x" "h1" 0] [] []).


(** In the earlier registry: a subscription to [x] and, as a
    subscription too, a trigger for its identifier that throws. *)
Definition legacy_watched : Sys Js nat unit :=
  sys_of (mkEmitter [mkEvent "x" "h1" 0; mkEvent "off_h1" "h2" 1] [] []).

(** A coordinator: results are numbers, producers are numbered, and the
    registry has no off-triggers to run. *)
Definition no_trigger (cb : CacheEmitter.Listener) (d : CacheEmitter.Payload nat)
           (h : string)
           (w : World (CacheEmitter.Payload nat) CacheEmitter.Listener
                      (CacheEmitter.Promises nat))
  : CbResult (CacheEmitter.Payload nat) nat CacheEmitter.Listener
             (CacheEmitter.Promises nat) :=
  Returned RVoid w.

Definition run_actions (actions : list (CacheEmitter.Action nat nat))
  : CacheEmitter.Coordinator nat nat :=
  CacheEmitter.run_actions 0 guid no_trigger actions.

(** [plain] once the snapshot 1 is stored for [x]. *)
Definition stored : Sys Js nat unit :=
  sys_after (set_state (Exn:=string) "x" (js_num 1) plain).

(** [stored] after somebody subscribed to [y]. *)
Definition later : Sys Js nat unit :=
  sys_after (on guid quiet "y" 0 stored).



(** The operations of the repository's tests, run on a new registry
    with callbacks that do nothing but return. *)
Definition after_ops (ops : list (Operation Js nat)) : Sys Js nat unit :=
  perform_all js_null js_undefined guid "TypeError" strict_eq quiet ops
              (fresh_sys Js nat 0 tt).

Definition four_subscriptions : list (Operation Js nat) :=
  [OpOn Js "test1" 0; OpOn Js "test2" 0; OpOn Js "test3" 0; OpOn Js "test3" 0].

Definition five_triggers : list (Operation Js nat) :=
  [OpOn Js "test1" 0; OpOn Js "test2" 0;
   OpTriggerOff Js (guid 0) 1; OpTriggerOff Js (guid 1) 2;
   OpTriggerOffEvent Js "test1" 3; OpTriggerOffEvent Js "test2" 4;
   OpTriggerOffAll Js 5].

(** Subscriptions to [x] and to [y]; a trigger for each identifier, for
    each name and for the whole registry. *)
Definition two_names : Sys Js nat unit :=
  sys_of (mkEmitter
            [mkEvent "x" "h1" 0; mkEvent "y" "h2" 0]
            [mkEvent (getOffName "h1") "t1" 1;
             mkEvent (getOffName "h2") "t2" 2;
             mkEvent (getOffEventName "x") "t3" 3;
             mkEvent (getOffEventName "y") "t4" 4;
             mkEvent getOffAllName "t5" 5]
            []).

(** Two callers ask for [query1] in the same tick; the queued reaction
    runs the producer once. *)
Definition two_callers : list (CacheEmitter.Action nat nat) :=
  [CacheEmitter.Call nat "query1" 7; CacheEmitter.Call nat "query1" 7;
   CacheEmitter.RunMicrotask nat nat].

End Sample.

(** More instances, in the same setting. *)

Module Scenario.

Import Sample.

(** Callbacks that return, except that number 1 first clears the
    subscription table, as a callback that calls [offAll] does where no
    trigger is filed. *)
Definition meddling (cb : nat) (d : Js) (h : string) (w : SWorld) : SResult :=
  match cb with
  | 1 => Returned RVoid
           (mkWorld (mkEmitter [] (_offTriggers (emitter w)) (_states (emitter w)))
                    (guids w) (env w))
  | _ => Returned RVoid w
  end.

(** Two subscriptions to [x], the first with callback 1. *)
Definition pair : Sys Js nat unit :=
  sys_of (mkEmitter [mkEvent "x" "h1" 1; mkEvent "x" "h2" 0] [] []).

(** Three subscriptions to [x], the second with callback 1. *)
Definition three : Sys Js nat unit :=
  sys_of (mkEmitter [mkEvent "x" "h1" 0; mkEvent "x" "h2" 1; mkEvent "x" "h3" 0] [] []).

Definition first_two (d : Js) : list (Firing Js nat) :=
  [mkFiring 0 d "h1"; mkFiring 1 d "h2"].

(** In the earlier registry: a subscription to [x], and subscribed as
    triggers a callback for its identifier and one for its name. *)
Definition legacy_hooks : Sys Js nat unit :=
  sys_of (mkEmitter [mkEvent "x" "h1" 0; mkEvent "off_h1" "h2" 0;
                     mkEvent "off_event_x" "h3" 0] [] []).

(** The same for a subscription to the empty name. *)
Definition legacy_nameless : Sys Js nat unit :=
  sys_of (mkEmitter [mkEvent "" "h1" 0; mkEvent "off_h1" "h2" 0;
                     mkEvent "off_event_" "h3" 0] [] []).

(** [query1] answered with 42 while two callers wait, and [query2]
    asked for meanwhile. *)
Definition answered_once : list (CacheEmitter.Action nat nat) :=
  (two_callers
   ++ [CacheEmitter.Call nat "query2" 9;
       CacheEmitter.Settle nat 0 (CacheEmitter.Resolves 42)])%list.

Definition asked_twice : list (CacheEmitter.Action nat nat) :=
  (two_callers ++ [CacheEmitter.Call nat "query2" 9])%list.

(** A registry for [waitEvent]: the program's callbacks and triggers
    just return. *)
Definition WWorld := World Js (Waiting.Subscriber nat) (Waiting.Surroundings Js string unit).
Definition WResult :=
  CbResult Js string (Waiting.Subscriber nat) (Waiting.Surroundings Js string unit).

Definition inert (cb : nat) (d : Js) (h : string) (w : WWorld) : WResult :=
  Returned RVoid w.

Definition inert_trigger (cb : Waiting.Subscriber nat) (d : Js) (h : string) (w : WWorld)
  : WResult :=
  Returned RVoid w.

Definition waiting_of (em : EventEmitter Js (Waiting.Subscriber nat))
  : Sys Js (Waiting.Subscriber nat) (Waiting.Surroundings Js string unit) :=
  mkSys (mkWorld em 0 (Waiting.mkSurroundings 0 [] tt)) [].

(** The snapshot 1 stored for [x], nobody subscribed. *)
Definition remembered : Sys Js (Waiting.Subscriber nat) (Waiting.Surroundings Js string unit) :=
  waiting_of (mkEmitter [] [] [mkState "x" (js_num 1)]).

(** Somebody subscribed to [y]; no snapshot. *)
Definition unheard : Sys Js (Waiting.Subscriber nat) (Waiting.Surroundings Js string unit) :=
  waiting_of (mkEmitter [mkEvent "y" "h1" (Waiting.Plain 0)] [] []).

(** A coordinator of shared subscriptions whose consumers, openers and
    closing functions are numbered and leave the registry alone. *)
Definition HubWorld :=
  World Js (Shared.Handler nat) (Shared.Surroundings string nat nat unit).
Definition HubResult :=
  CbResult Js string (Shared.Handler nat) (Shared.Surroundings string nat nat unit).

Definition consumer (u : nat) (d : Js) (h : string) (w : HubWorld) : HubResult :=
  Returned RVoid w.

Definition opener (o : nat) (a : nat) (w : HubWorld) : HubWorld := w.

Definition closer (c : nat) (w : HubWorld) : HubResult := Returned RVoid w.

Definition hub (actions : list (Shared.Action Js string nat nat nat))
  : Sys Js (Shared.Handler nat) (Shared.Surroundings string nat nat unit) :=
  Shared.run_actions js_null "stack" "TypeError" guid consumer opener closer 8 tt actions.

(** The test "cacheSubscribe": two consumers of [query1]; the upstream
    is opened and sends a value. *)
Definition two_consumers : list (Shared.Action Js string nat nat nat) :=
  [Shared.Subscribe "query1" 7 1;
   Shared.Subscribe "query1" 7 2;
   Shared.RunOpener 0;
   Shared.OpenerSettles 0 (Shared.Opened (Some 5));
   Shared.UpstreamEmits 0 (js_num 1)].

(** The first consumer leaves and a value arrives; the second leaves;
    the closure resumes. *)
Definition both_leave : list (Shared.Action Js string nat nat nat) :=
  (two_consumers
   ++ [Shared.Unsubscribe (guid 0);
       Shared.UpstreamEmits 0 (js_num 1);
       Shared.Unsubscribe (guid 2);
       Shared.Resume 0])%list.

(** A consumer that comes and goes twice before the queued reactions
    run. *)
Definition in_and_out_twice : list (Shared.Action Js string nat nat nat) :=
  [Shared.Subscribe "query1" 7 1;
   Shared.Unsubscribe (guid 0);
   Shared.Subscribe "query1" 7 1;
   Shared.Unsubscribe (guid 2);
   Shared.RunOpener 0;
   Shared.OpenerSettles 0 (Shared.Opened (Some 5));
   Shared.Resume 0;
   Shared.Resume 0].

(** A new registry after [emitStateSync(NaN, 1)]. *)
Definition nan_stored : Sys Js nat unit :=
  after_ops [OpEmitStateSync nat (NameNumber NaN) (js_num 1)].

(** The same after [emitStateSync(NaN, 2)] as well. *)
Definition nan_stored_twice : Sys Js nat unit :=
  after_ops [OpEmitStateSync nat (NameNumber NaN) (js_num 1);
             OpEmitStateSync nat (NameNumber NaN) (js_num 2)].

(** One subscription, named by a symbol; a trigger filed for its
    identifier and one for the whole registry. *)
Definition symbol_named : Sys Js nat unit :=
  sys_of (mkEmitter [mkEvent (NameSymbol 0 "x") "h1" 0]
                    [mkEvent (getOffName "h1") "t1" 1; mkEvent getOffAllName "t3" 3]
                    []).

(** One subscription, named by the number 1; a trigger filed for the
    name that is the string of one character [1]. *)
Definition number_named : Sys Js nat unit :=
  sys_of (mkEmitter [mkEvent (NameNumber (Num "1")) "h1" 0]
                    [mkEvent (getOffEventName "1") "t2" 2] []).

(** A registry whose subscription array, the only array there is, holds
    one subscription to [x]; it has a trigger and a snapshot. *)
Definition arrays : Derived.Store nat := [[mkEvent "x" "h1" 0]].

Definition original : Derived.Registry Js nat :=
  Derived.mkRegistry 0 [mkEvent getOffAllName "t3" 0] [mkState "x" (js_num 1)].

(** In the earlier registry: a subscription named by the number 0 (by
    [NaN]), and subscribed as trigger a callback for the rendering of
    its name. *)
Definition legacy_zero : Sys Js nat unit :=
  sys_of (mkEmitter [mkEvent (NameNumber (Num "0")) "h1" 0;
                     mkEvent "off_event_0" "h3" 0] [] []).

Definition legacy_nan : Sys Js nat unit :=
  sys_of (mkEmitter [mkEvent (NameNumber NaN) "h1" 0;
                     mkEvent "off_event_NaN" "h3" 0] [] []).

End Scenario.

(** * Properties of the registry *)

(** ** Names *)

Lemma strict_eq_true (a b : EventNameType) : strict_eq a b = true -> a = b.
Proof.
  destruct a as [x|[|x]|i x], b as [y|[|y]|j y]; simpl; try discriminate.
  - intros H. apply String.eqb_eq in H. now subst.
  - intros H. apply String.eqb_eq in H. now subst.
  - intros H. apply andb_true_iff in H. destruct H as [Hi Hx].
    apply Nat.eqb_eq in Hi. apply String.eqb_eq in Hx. now subst.
Qed.

Lemma strict_eq_sym (a b : EventNameType) : strict_eq a b = strict_eq b a.
Proof.
  destruct a as [x|[|x]|i x], b as [y|[|y]|j y]; simpl; try reflexivity.
  - apply String.eqb_sym.
  - apply String.eqb_sym.
  - now rewrite Nat.eqb_sym, String.eqb_sym.
Qed.

(** Every name but [NaN] equals itself. *)
Lemma strict_eq_self (a : EventNameType) :
  strict_eq a a = true <-> a <> NameNumber NaN.
Proof.
  destruct a as [x|[|x]|i x]; simpl.
  - rewrite String.eqb_refl. split; [discriminate|reflexivity].
  - split; [discriminate|]. intros H. now contradiction H.
  - rewrite String.eqb_refl. split; [discriminate|reflexivity].
  - rewrite Nat.eqb_refl, String.eqb_refl. split; [discriminate|reflexivity].
Qed.

Lemma strict_eq_string (a : string) : strict_eq a a = true.
Proof. simpl. apply String.eqb_refl. Qed.

Lemma strict_eq_left (a b : EventNameType) : strict_eq a b = true -> strict_eq a a = true.
Proof. intros H. pose proof (strict_eq_true _ _ H) as E. now rewrite <- E in H. Qed.

Lemma strict_eq_right (a b : EventNameType) : strict_eq a b = true -> strict_eq b b = true.
Proof. intros H. pose proof (strict_eq_true _ _ H) as E. now rewrite E in H. Qed.

Lemma to_template_rendered (n : EventNameType) :
  is_symbol n = false -> to_template (Some n) = Some (to_string n).
Proof. destruct n as [x|[|x]|i x]; simpl; [reflexivity..|discriminate]. Qed.

Lemma same_value_refl (a : EventNameType) : same_value a a = true.
Proof.
  destruct a as [x|[|x]|i x]; simpl; try reflexivity.
  - apply String.eqb_refl.
  - apply String.eqb_refl.
  - now rewrite Nat.eqb_refl, String.eqb_refl.
Qed.


Section RegistryFacts.

Variable Data : Type.
Variables null undefined : Data.
Variables Exn Callback Env : Type.
Variable guid : nat -> string.
Variable type_error : Exn.
Variable linq_same : EventNameType -> EventNameType -> bool.
Variable run : Callback -> Data -> string -> World Data Callback Env
               -> CbResult Data Exn Callback Env.

Local Abbreviation Sys := (Sys Data Callback Env).
Local Abbreviation M := (M Data Exn Callback Env).
Local Abbreviation EventEmitter := (EventEmitter Data Callback).
Local Abbreviation EventObject := (EventObject Callback).

Implicit Types (s : Sys) (em : EventEmitter) (name : EventNameType) (hash : string)
         (d : Data).

Lemma sys_eta s : mkSys (world s) (fired s) = s.
Proof. now destruct s. Qed.

Lemma world_eta (w : World Data Callback Env) :
  mkWorld (emitter w) (guids w) (env w) = w.
Proof. now destruct w. Qed.

Lemma emitter_eta em : mkEmitter (_events em) (_offTriggers em) (_states em) = em.
Proof. now destruct em. Qed.

Lemma some_false_filter {A} (p : A -> bool) (l : list A) :
  some p l = false -> filter p l = [].
Proof.
  unfold some. induction l as [|x l IH]; simpl; [easy|].
  destruct (p x); simpl; [discriminate|]. exact IH.
Qed.

Lemma filter_negb_none {A} (p : A -> bool) (l : list A) :
  some p l = false -> filter (fun x => negb (p x)) l = l.
Proof.
  unfold some. induction l as [|x l IH]; simpl; [easy|].
  destruct (p x); simpl; [discriminate|]. intros H. now rewrite IH.
Qed.

Lemma getEvents_none name em :
  hasEvent name em = false -> getEvents name em = [].
Proof. apply some_false_filter. Qed.

(** The promise of [Promise.all] over no inputs is fulfilled, and stays
    so. *)
Lemma all_step_settled (a : PromiseAll Exn) (hist : list (Settlement Exn)) :
  result a <> Pending ->
  result (fold_left (@all_step Exn) hist a) = result a.
Proof.
  revert a. induction hist as [|ev hist IH]; intros a Ha; simpl; [easy|].
  rewrite IH.
  - destruct ev as [p|p r]; simpl.
    + destruct (result a); try easy.
    + destruct (existsb (Nat.eqb p) (waiting a)); simpl; [|easy].
      destruct (result a); easy.
  - destruct ev as [p|p r]; simpl.
    + destruct (result a); try easy.
    + destruct (existsb (Nat.eqb p) (waiting a)); simpl; [|easy].
      destruct (result a); easy.
Qed.

Lemma all_status_nil (hist : list (Settlement Exn)) :
  all_status [] hist = Fulfilled.
Proof. unfold all_status. now rewrite all_step_settled. Qed.

(** C10: emitting under a name nobody subscribed to invokes nothing and
    changes nothing (the system, log of invocations included, is the one
    before); the asynchronous emit returns [Promise.all] of no promises,
    in both registries, which is fulfilled and never rejected. *)
Theorem emit_without_subscribers name d s :
  hasEvent name (emitter (world s)) = false ->
  emitSync run name d s = Ok tt s /\
  emitAsync run name d s = Ok (AllOf []) s /\
  Legacy.emitAsync run name d s = Ok (AllOf []) s /\
  forall hist, completion_status (AllOf []) hist = @Fulfilled Exn.
Proof.
  intros H. apply getEvents_none in H.
  unfold emitSync, emitAsync, Legacy.emitAsync, try_catch, bind, gets.
  rewrite H. simpl. repeat split.
  intros hist. apply all_status_nil.
Qed.

(** ** The completion of an asynchronous emit *)









(** ** Unsubscribing never throws *)

Lemma try_catch_ignore (m : M unit) s :
  exists s', try_catch m (fun _ => ret tt) s = Ok tt s'.
Proof.
  unfold try_catch. destruct (m s) as [[] s'|e s']; eexists; reflexivity.
Qed.

(** In the registry with the trigger table, whatever the triggers fired
    by [off] do, [off] returns normally: what a trigger throws is caught
    inside. *)
Lemma off_returns_normally hash s :
  exists s', off null type_error run hash s = Ok tt s'.
Proof.
  unfold off, bind, gets, modify.
  apply try_catch_ignore.
Qed.

(** ** Replay of a snapshot to a new subscription *)

Lemma hasState_getState name em :
  hasState name em = true <-> exists v, getState name em = Some v.
Proof.
  unfold hasState, getState, some.
  induction (_states em) as [|st l IH]; simpl.
  - split; [discriminate|intros [v H]; discriminate].
  - destruct (strict_eq (stateName st) name); simpl.
    + split; [eauto|easy].
    + exact IH.
Qed.

Lemma on_with_snapshot name cb s v :
  getState name (emitter (world s)) = Some v ->
  on guid run name cb s =
  let hash := guid (guids (world s)) in
  let log := (fired s ++ [mkFiring cb v hash])%list in
  match run cb v hash (subscribed guid name cb s) with
  | Returned _ w => Ok hash (mkSys w log)
  | Threw e w => Raise e (mkSys w log)
  end.
Proof.
  intros Hv.
  assert (Hs : hasState name (emitter (world s)) = true)
    by (apply hasState_getState; eauto).
  unfold on, bind, fresh_guid, modify, gets, linq_first, hasState in *.
  cbn [world emitter push_event _states guids env fired].
  rewrite Hs. unfold getState in Hv.
  destruct (find _ (_states (emitter (world s)))) as [st|] eqn:Hf; [|discriminate].
  simpl in Hv. injection Hv as Hd.
  unfold call_cb, subscribed, ret.
  cbn [world emitter push_event _states guids env fired].
  rewrite Hf, Hd.
  destruct (run _ _ _ _); reflexivity.
Qed.

Lemma find_append {A} (p : A -> bool) (l1 l2 : list A) :
  find p (l1 ++ l2)%list =
  match find p l1 with
  | Some x => Some x
  | None => find p l2
  end.
Proof.
  induction l1 as [|x l1 IH]; simpl; [easy|]. now destruct (p x).
Qed.

Lemma getState_set_state name v s :
  strict_eq name name = true ->
  getState name (emitter (world (sys_after (set_state (Exn:=Exn) name v s)))) = Some v.
Proof.
  intros Hself.
  unfold set_state, bind, gets, when, removeState, modify, ret, getState.
  destruct (hasState name (emitter (world s))) eqn:Hs; simpl.
  - rewrite find_append.
    assert (H : find (fun m => strict_eq (stateName m) name)
              (filter (fun m => negb (strict_eq (stateName m) name))
                      (_states (emitter (world s)))) = None).
    { induction (_states (emitter (world s))) as [|st l IH]; simpl; [easy|].
      destruct (strict_eq (stateName st) name) eqn:E; simpl; [apply IH|].
      now rewrite E. }
    rewrite H. simpl. now rewrite Hself.
  - rewrite find_append.
    assert (H : find (fun m => strict_eq (stateName m) name)
                     (_states (emitter (world s))) = None).
    { unfold hasState, some in Hs.
      induction (_states (emitter (world s))) as [|st l IH]; simpl in *; [easy|].
      destruct (strict_eq (stateName st) name); simpl in *; [discriminate|auto]. }
    rewrite H. simpl. now rewrite Hself.
Qed.

(** C6, amended: for every name but [NaN] (every name that [===] holds
    equal to itself), [emitStateSync] and [emitStateAsync] store the
    snapshot [v] before they emit.  In any later system whose snapshot
    for the name is still the one stored, [on] registers the
    subscription, invokes the callback on [v] and the new identifier
    exactly once (the log grows by this one entry) before it returns,
    and returns that identifier. *)
Theorem subscribe_replays_snapshot name v cb s0 s :
  let stored := sys_after (set_state (Exn:=Exn) name v s0) in
  strict_eq name name = true ->
  getState name (emitter (world s)) = getState name (emitter (world stored)) ->
  (emitStateSync run name v s0 = emitSync run name v stored /\
   emitStateAsync run name v s0 = emitAsync run name v stored /\
   Legacy.emitStateAsync run name v s0 = Legacy.emitAsync run name v stored) /\
  getState name (emitter (world stored)) = Some v /\
  on guid run name cb s =
  let hash := guid (guids (world s)) in
  let log := (fired s ++ [mkFiring cb v hash])%list in
  match run cb v hash (subscribed guid name cb s) with
  | Returned _ w => Ok hash (mkSys w log)
  | Threw e w => Raise e (mkSys w log)
  end.
Proof.
  intros stored Hself Hsame.
  pose proof (getState_set_state name v s0 Hself) as Hv. fold stored in Hv.
  split; [|split; [exact Hv|]].
  - unfold emitStateSync, emitStateAsync, Legacy.emitStateAsync, bind, stored.
    unfold set_state, bind, gets, when, removeState, modify, ret.
    destruct (hasState name (emitter (world s0))); simpl; auto.
  - apply on_with_snapshot. now rewrite Hsame.
Qed.

(** ** What every operation keeps *)

Section Keeps.

Variable P : EventEmitter -> Prop.
Hypothesis run_keeps :
  forall cb d h w, P (emitter w) -> P (emitter (world_after (run cb d h w))).

Lemma keeps_ret {A} (a : A) : keeps P (ret a : M A).
Proof. intros s H. exact H. Qed.

Lemma keeps_bind {A B} (m : M A) (k : A -> M B) :
  keeps P m -> (forall a, keeps P (k a)) -> keeps P (bind m k).
Proof.
  intros Hm Hk s H. unfold bind.
  specialize (Hm s H). destruct (m s) as [a s'|e s']; simpl in *.
  - now apply Hk.
  - exact Hm.
Qed.

Lemma keeps_throw {A} (e : Exn) : keeps P (throw e : M A).
Proof. intros s H. exact H. Qed.

Lemma keeps_try_catch {A} (m : M A) (handler : Exn -> M A) :
  keeps P m -> (forall e, keeps P (handler e)) -> keeps P (try_catch m handler).
Proof.
  intros Hm Hh s H. unfold try_catch.
  specialize (Hm s H). destruct (m s) as [a s'|e s']; simpl in *.
  - exact Hm.
  - now apply Hh.
Qed.

Lemma keeps_gets {A} (f : EventEmitter -> A) : keeps P (gets f : M A).
Proof. intros s H. exact H. Qed.

Lemma keeps_fresh_guid : keeps P (fresh_guid guid : M string).
Proof. intros s H. exact H. Qed.

Lemma keeps_modify (f : EventEmitter -> EventEmitter) :
  (forall em, P em -> P (f em)) -> keeps P (modify f : M unit).
Proof. intros Hf s H. simpl. now apply Hf. Qed.

Lemma keeps_when (b : bool) (m : M unit) : keeps P m -> keeps P (when b m).
Proof. destruct b; simpl; [easy|]. intros _. apply keeps_ret. Qed.

Lemma keeps_mapM {A B} (f : A -> M B) (xs : list A) :
  (forall x, keeps P (f x)) -> keeps P (mapM f xs).
Proof.
  intros Hf. induction xs as [|x xs IH]; simpl.
  - apply keeps_ret.
  - apply keeps_bind; [apply Hf|]. intros y.
    apply keeps_bind; [exact IH|]. intros ys. apply keeps_ret.
Qed.

Lemma keeps_forEach {A} (f : A -> M unit) (xs : list A) :
  (forall x, keeps P (f x)) -> keeps P (forEach f xs).
Proof.
  intros Hf. induction xs as [|x xs IH]; simpl.
  - apply keeps_ret.
  - apply keeps_bind; [apply Hf|]. intros _. exact IH.
Qed.

Lemma keeps_call_cb cb d h : keeps P (call_cb run cb d h).
Proof.
  intros s H. unfold call_cb.
  specialize (run_keeps cb d h (world s) H).
  destruct (run cb d h (world s)); exact run_keeps.
Qed.

Lemma keeps_invoke d o : keeps P (invoke run d o).
Proof. apply keeps_call_cb. Qed.

Lemma keeps_fire_triggers (name : string) : keeps P (fire_triggers null run name).
Proof.
  apply keeps_bind; [apply keeps_gets|]. intros offEvents.
  apply keeps_bind; [|intros; apply keeps_ret].
  apply keeps_mapM. intros o. apply keeps_invoke.
Qed.

Lemma keeps_emitSync name d : keeps P (emitSync run name d).
Proof.
  apply keeps_bind; [apply keeps_gets|]. intros events.
  apply keeps_bind; [|intros; apply keeps_ret].
  apply keeps_mapM. intros o. apply keeps_invoke.
Qed.

Lemma keeps_emitAsync name d : keeps P (emitAsync run name d).
Proof.
  apply keeps_bind; [apply keeps_gets|]. intros events.
  apply keeps_bind; [|intros; apply keeps_ret].
  apply keeps_mapM. intros o. apply keeps_try_catch.
  - apply keeps_bind; [apply keeps_invoke|]. intros; apply keeps_ret.
  - intros; apply keeps_ret.
Qed.

Lemma keeps_legacy_emitAsync name d : keeps P (Legacy.emitAsync run name d).
Proof.
  apply keeps_try_catch; [|intros; apply keeps_ret].
  apply keeps_bind; [apply keeps_gets|]. intros events.
  apply keeps_bind; [|intros; apply keeps_ret].
  apply keeps_mapM. intros o. apply keeps_invoke.
Qed.

End Keeps.

(** Where the callbacks leave the subscription table alone, so do the
    cascades of triggers, whether a trigger throws or not. *)
Lemma keeps_table_offEventEmit (l : list EventObject) (name : option EventNameType) :
  (forall cb d h w, _events (emitter (world_after (run cb d h w))) = _events (emitter w)) ->
  keeps (fun em => _events em = l) (_offEventEmit null type_error run name).
Proof.
  intros Hrun. unfold _offEventEmit.
  destruct (to_template name); [|apply keeps_throw].
  apply keeps_fire_triggers. intros cb d h w H. now rewrite Hrun.
Qed.

Lemma off_table hash s :
  (forall cb d h w, _events (emitter (world_after (run cb d h w))) = _events (emitter w)) ->
  _events (emitter (world (sys_after (off null type_error run hash s))))
  = filter (fun m => negb (String.eqb (eventHash m) hash)) (_events (emitter (world s))).
Proof.
  intros Hrun.
  assert (Hk : forall cb d h w l,
             _events (emitter w) = l -> _events (emitter (world_after (run cb d h w))) = l)
    by (intros cb d h w l H; now rewrite Hrun).
  unfold off. unfold bind at 1, gets at 1. unfold bind at 1.
  change (_offAction hash s) with (Ok (Exn:=Exn) tt (without hash s)).
  cbv iota beta.
  match goal with
  | |- _events (emitter (world (sys_after (?m (without hash s))))) = ?l =>
      cut (keeps (fun em => _events em = l) m);
        [intros K; exact (K (without hash s) eq_refl)|]
  end.
  apply keeps_try_catch; [|intros; apply keeps_ret].
  unfold off_cascade, _offEmit, _offAllEmit.
  apply keeps_bind; [apply keeps_fire_triggers; intros; now apply Hk|]. intros _.
  apply keeps_bind; [apply keeps_gets|]. intros remaining.
  apply keeps_bind; [apply keeps_when, keeps_table_offEventEmit, Hrun|]. intros _.
  apply keeps_bind; [apply keeps_gets|]. intros all.
  apply keeps_when, keeps_fire_triggers. intros; now apply Hk.
Qed.

Lemma offEvent_table (name : EventNameType) s :
  (forall cb d h w, _events (emitter (world_after (run cb d h w))) = _events (emitter w)) ->
  _events (emitter (world (sys_after (offEvent null type_error run name s))))
  = filter (fun m => negb (strict_eq (eventName m) name)) (_events (emitter (world s))).
Proof.
  intros Hrun.
  assert (Hk : forall cb d h w l,
             _events (emitter w) = l -> _events (emitter (world_after (run cb d h w))) = l)
    by (intros cb d h w l H; now rewrite Hrun).
  unfold offEvent. unfold bind at 1, gets at 1. unfold bind at 1.
  unfold _offEventAction at 1, modify at 1.
  match goal with
  | |- _events (emitter (world (sys_after (?m ?s0)))) = ?l =>
      cut (keeps (fun em => _events em = l) m); [intros K; exact (K s0 eq_refl)|]
  end.
  apply keeps_try_catch; [|intros; apply keeps_ret].
  unfold offEvent_cascade, _offEmit, _offAllEmit.
  apply keeps_bind.
  { apply keeps_forEach. intros x. apply keeps_fire_triggers. intros; now apply Hk. }
  intros _.
  apply keeps_bind; [apply keeps_table_offEventEmit, Hrun|]. intros _.
  apply keeps_bind; [apply keeps_gets|]. intros all.
  apply keeps_when, keeps_fire_triggers. intros; now apply Hk.
Qed.

(** ** The cascade of triggers *)

Lemma fired_fire_all hooks s :
  fired (fire_all null run hooks s) = (fired s ++ map (firing_of null) hooks)%list.
Proof.
  revert s. induction hooks as [|o hooks IH]; intros s; simpl.
  - now rewrite app_nil_r.
  - unfold fire_all in *. rewrite IH.
    unfold invoke, call_cb, firing_of.
    destruct (run _ _ _ _); simpl; now rewrite <- app_assoc.
Qed.

Lemma fired_fire_named (name : string) s :
  fired (fire_named null run name s) = (fired s ++ firings_named null name s)%list.
Proof. apply fired_fire_all. Qed.

Lemma fired_fire_each names s :
  fired (fire_each null run names s) = (fired s ++ firings_each null run names s)%list.
Proof.
  revert s. induction names as [|n names IH]; intros s; simpl.
  - now rewrite app_nil_r.
  - unfold fire_each in *. rewrite IH, fired_fire_named. now rewrite app_assoc.
Qed.

Lemma invoke_ok o s :
  threw (run (callback o) null (eventHash o) (world s)) = false ->
  exists r, invoke run null o s = Ok r (sys_after (invoke run null o s)).
Proof.
  intros H. unfold invoke, call_cb.
  destruct (run _ _ _ _); simpl in *; [eauto|discriminate].
Qed.

Lemma mapM_invoke_ok hooks s :
  fires_quietly null run hooks s ->
  exists rs, mapM (invoke run null) hooks s = Ok rs (fire_all null run hooks s).
Proof.
  revert s. induction hooks as [|o hooks IH]; intros s H.
  - eexists. reflexivity.
  - destruct H as [Ho H].
    change (fire_all null run (o :: hooks) s)
      with (fire_all null run hooks (sys_after (invoke run null o s))).
    destruct (IH _ H) as [rs Hrs].
    destruct (invoke_ok o s Ho) as [r Hr].
    set (s1 := sys_after (invoke run null o s)) in *.
    cbn [mapM]. unfold bind. rewrite Hr, Hrs. eexists. reflexivity.
Qed.

Lemma fire_triggers_ok (name : string) s :
  quiet_named null run name s ->
  fire_triggers null run name s = Ok tt (fire_named null run name s).
Proof.
  intros H. unfold fire_triggers, bind, gets.
  destruct (mapM_invoke_ok _ _ H) as [rs ->].
  reflexivity.
Qed.

Lemma forEach_fire_ok {A} (key : A -> string) (xs : list A) s :
  quiet_each null run (map key xs) s ->
  forEach (fun x => fire_triggers null run (key x)) xs s
  = Ok tt (fire_each null run (map key xs) s).
Proof.
  revert s. induction xs as [|x xs IH]; intros s H; simpl.
  - reflexivity.
  - destruct H as [Hx H]. unfold bind. rewrite fire_triggers_ok by exact Hx.
    now apply IH.
Qed.

Lemma forEach_ext {A} (f g : A -> M unit) (xs : list A) s :
  (forall x s0, In x xs -> f x s0 = g x s0) -> forEach f xs s = forEach g xs s.
Proof.
  revert s. induction xs as [|x xs IH]; intros s H; simpl; [reflexivity|].
  unfold bind. rewrite (H x s (or_introl eq_refl)).
  destruct (g x s) as [[] s1|e s1]; [|reflexivity].
  apply IH. intros y s0 Hy. apply H. now right.
Qed.

Lemma distinct_In {A} (same : A -> A -> bool) (l : list A) x :
  In x (distinct same l) -> In x l.
Proof.
  induction l as [|y l IH]; simpl; [easy|].
  intros [->|H]; [now left|]. right. apply IH.
  now apply filter_In in H.
Qed.

(** Callbacks that never throw fire quietly. *)
Lemma never_throws_quietly hooks s :
  never_throws run -> fires_quietly null run hooks s.
Proof.
  intros H. revert s. induction hooks as [|o hooks IH]; intros s; simpl; auto.
Qed.

Lemma never_throws_quiet_each names s :
  never_throws run -> quiet_each null run names s.
Proof.
  intros H. revert s. induction names as [|n names IH]; intros s; simpl; [easy|].
  split; [now apply never_throws_quietly|apply IH].
Qed.

Lemma never_throws_unsubscribe_quiet hash o s :
  never_throws run -> unsubscribe_quiet null run hash o s.
Proof.
  intros H. unfold unsubscribe_quiet, quiet_named. cbv zeta.
  repeat split; intros; now apply never_throws_quietly.
Qed.

Lemma never_throws_clear_quiet s :
  never_throws run -> clear_quiet null linq_same run s.
Proof.
  intros H. unfold clear_quiet. cbv zeta.
  repeat split;
    first [now apply never_throws_quiet_each | now apply never_throws_quietly].
Qed.

Lemma has_without hash s :
  has hash (emitter (world (without hash s))) = false.
Proof.
  unfold without, has, some. simpl.
  induction (_events (emitter (world s))) as [|o l IH]; simpl; [easy|].
  destruct (String.eqb (eventHash o) hash) eqn:E; simpl; [exact IH|].
  now rewrite E.
Qed.

(** C4, amended: in the registry with the trigger table, unsubscribing
    a registered identifier returns normally and removes the
    subscription before any trigger is fired, whatever the triggers do:
    the triggers are fired, inside the [try] block, in the system
    without the subscription (and where the callbacks leave the
    subscription table alone, the table is afterwards the one before
    without the identifier).  When the
    subscription's name is not a symbol and none of the triggers fired
    throws, [off] then fires the triggers filed for the identifier,
    then those filed for the rendering of the subscription's name if no
    subscription [===] to the name is left at that point, then those
    filed for the whole registry if the registry holds no subscription
    at that point; the triggers of a scope are fired once each, in the
    order of filing. *)
Theorem off_fires_cascade hash o s :
  linq_first (fun m => String.eqb (eventHash m) hash) (_events (emitter (world s)))
  = Some o ->
  (exists s', off null type_error run hash s = Ok tt s') /\
  off null type_error run hash s
  = try_catch (off_cascade null type_error run hash (Some (eventName o)))
              (fun _ => ret tt) (without hash s) /\
  ((forall cb d h w,
       _events (emitter (world_after (run cb d h w))) = _events (emitter w)) ->
   _events (emitter (world (sys_after (off null type_error run hash s))))
   = filter (fun m => negb (String.eqb (eventHash m) hash))
            (_events (emitter (world s)))) /\
  (is_symbol (eventName o) = false ->
   unsubscribe_quiet null run hash o s ->
   unsubscribe_cascade null type_error run hash o s).
Proof.
  intros Hfirst.
  split; [apply off_returns_normally|].
  split; [unfold off, bind, gets; rewrite Hfirst; reflexivity|].
  split; [apply off_table|].
  intros Hsym (Hq1 & Hq2 & Hq3). unfold unsubscribe_cascade. cbv zeta.
  split; [|split].
  - unfold off, bind, gets. rewrite Hfirst. cbn [option_map].
    unfold try_catch, off_cascade, bind, _offEmit, _offEventEmit, _offAllEmit,
      gets, when.
    rewrite (to_template_rendered _ Hsym).
    change (_offAction hash s) with (Ok (Exn:=Exn) tt (without hash s)).
    cbv iota beta.
    rewrite fire_triggers_ok by exact Hq1.
    cbn [getEvents_any].
    fold (no_subscription (eventName o)
            (fire_named null run (getOffName hash) (without hash s))) in *.
    destruct (no_subscription _ _); cbv iota beta.
    + rewrite fire_triggers_ok by (apply Hq2; reflexivity).
      fold (registry_empty
              (fire_named null run (getOffEventName (to_string (eventName o)))
                 (fire_named null run (getOffName hash) (without hash s)))) in *.
      destruct (registry_empty _).
      * now rewrite fire_triggers_ok by (apply Hq3; reflexivity).
      * reflexivity.
    + unfold ret.
      fold (registry_empty
              (fire_named null run (getOffName hash) (without hash s))) in *.
      destruct (registry_empty _).
      * now rewrite fire_triggers_ok by (apply Hq3; reflexivity).
      * reflexivity.
  - apply has_without.
  - destruct (no_subscription _ _); destruct (registry_empty _);
      rewrite ?fired_fire_named, ?app_nil_r, <- ?app_assoc; reflexivity.
Qed.

Lemma offAll_returns_normally s :
  exists s', offAll null type_error linq_same run s = Ok tt s' /\ _events (emitter (world s')) = [].
Proof.
  unfold offAll, bind, gets.
  match goal with
  | |- context [try_catch ?m ?h s] =>
      destruct (try_catch_ignore m s) as [s1 ->]
  end.
  eexists. split; reflexivity.
Qed.

(** C5, amended: in the registry with the trigger table, [offAll]
    returns normally and leaves no subscription, whatever the triggers do;
    when no subscription is named by a symbol and none of the triggers
    it fires throws, it fires the triggers of every subscription's
    identifier (in the order of the table), then the triggers filed for
    the rendering of every name that has a subscription (each name that
    [LINQ.distinct] keeps, once), then, last and once, the triggers of
    the whole registry. *)
Theorem offAll_fires_cascade s :
  (exists s', offAll null type_error linq_same run s = Ok tt s' /\
              _events (emitter (world s')) = []) /\
  ((forall o, In o (_events (emitter (world s))) -> is_symbol (eventName o) = false) ->
   clear_quiet null linq_same run s ->
   clear_cascade null type_error linq_same run s).
Proof.
  split; [apply offAll_returns_normally|].
  intros Hsym (Hq1 & Hq2 & Hq3). unfold clear_cascade. cbv zeta.
  split; [|split].
  - unfold offAll, bind, gets, try_catch, offAll_cascade, bind, _offEmit,
      _offAllEmit.
    rewrite (forEach_fire_ok getOffName), map_map
      by (rewrite map_map; exact Hq1).
    rewrite (forEach_ext
               (fun n => _offEventEmit null type_error run (Some n))
               (fun n => fire_triggers null run (getOffEventName (to_string n)))).
    2: { intros n s0 Hin. unfold _offEventEmit.
         apply distinct_In, in_map_iff in Hin. destruct Hin as (o & <- & Hin).
         now rewrite (to_template_rendered _ (Hsym o Hin)). }
    rewrite (forEach_fire_ok (fun n => getOffEventName (to_string n))) by exact Hq2.
    rewrite fire_triggers_ok by exact Hq3.
    reflexivity.
  - reflexivity.
  - unfold cleared_of_subscriptions. cbn [fired].
    rewrite fired_fire_named, !fired_fire_each, <- !app_assoc.
    reflexivity.
Qed.

(** ** Unsubscribing an identifier nobody holds *)

Lemma without_unknown hash s :
  has hash (emitter (world s)) = false -> without hash s = s.
Proof.
  intros H. unfold without, has in *.
  rewrite (filter_negb_none _ _ H).
  now rewrite emitter_eta, world_eta, sys_eta.
Qed.

Lemma linq_first_unknown hash em :
  has hash em = false ->
  linq_first (fun m : EventObject => String.eqb (eventHash m) hash) (_events em) = None.
Proof.
  unfold has, some, linq_first.
  induction (_events em) as [|o l IH]; simpl; [easy|].
  destruct (String.eqb (eventHash o) hash); simpl; [discriminate|exact IH].
Qed.

Lemma fire_triggers_none (name : string) s :
  triggers_named name (emitter (world s)) = [] ->
  fire_triggers null run name s = Ok tt s.
Proof.
  intros H. unfold fire_triggers, bind, gets. now rewrite H.
Qed.

Lemma emitSync_none name d s :
  getEvents name (emitter (world s)) = [] ->
  emitSync run name d s = Ok tt s.
Proof.
  intros H. unfold emitSync, bind, gets. now rewrite H.
Qed.

Lemma hd_error_unknown hash em :
  has hash em = false ->
  hd_error (filter (fun m : EventObject => String.eqb (eventHash m) hash) (_events em))
  = None.
Proof.
  intros H. unfold has in H. now rewrite (some_false_filter _ _ H).
Qed.

(** C7, amended: unsubscribing an identifier no subscription carries
    raises no error and itself takes no subscription out: the triggers
    are fired, inside the [try] block, in the system as it was, and
    where the callbacks leave the subscription table alone, the table is
    afterwards the one before, whatever the triggers fired do.  When no
    trigger is filed under the names [off] then fires (the
    identifier's, the one of the event name [undefined] and, if the
    registry has no subscription, the one of the whole registry),
    nothing is invoked and the system is left exactly as it was.  In
    the earlier registry the same holds when nothing is subscribed to
    [off_<identifier>]. *)
Theorem off_unknown_identifier hash s :
  has hash (emitter (world s)) = false ->
  (exists s', off null type_error run hash s = Ok tt s') /\
  off null type_error run hash s
  = try_catch (off_cascade null type_error run hash None) (fun _ => ret tt) s /\
  ((forall cb d h w,
       _events (emitter (world_after (run cb d h w))) = _events (emitter w)) ->
   _events (emitter (world (sys_after (off null type_error run hash s))))
   = _events (emitter (world s))) /\
  (triggers_named (getOffName hash) (emitter (world s)) = [] ->
   triggers_named (getOffEventName "undefined") (emitter (world s)) = [] ->
   (registry_empty s = true ->
    triggers_named getOffAllName (emitter (world s)) = []) ->
   unsubscribe_noop null type_error run hash s) /\
  (getEvents (NameString ("off_" ++ hash)) (emitter (world s)) = [] ->
   Legacy.off undefined run hash s = Ok tt s).
Proof.
  intros Hunknown. split; [apply off_returns_normally|].
  split.
  { unfold off, bind, gets. rewrite (linq_first_unknown _ _ Hunknown).
    cbn [option_map].
    change (_offAction hash s) with (Ok (Exn:=Exn) tt (without hash s)).
    now rewrite (without_unknown _ _ Hunknown). }
  split.
  { intros Hrun. rewrite off_table by exact Hrun.
    unfold has in Hunknown. now rewrite (filter_negb_none _ _ Hunknown). }
  split.
  - intros H1 H2 H3. unfold unsubscribe_noop, off, bind, gets.
    rewrite (linq_first_unknown _ _ Hunknown). cbn [option_map].
    change (_offAction hash s) with (Ok (Exn:=Exn) tt (without hash s)).
    rewrite (without_unknown _ _ Hunknown).
    unfold try_catch, off_cascade, bind, _offEmit, _offEventEmit, _offAllEmit, gets.
    rewrite (fire_triggers_none _ _ H1).
    cbn [getEvents_any List.length Nat.leb when to_template].
    rewrite (fire_triggers_none _ _ H2).
    fold (registry_empty s).
    destruct (registry_empty s) eqn:E; cbn [when].
    + now rewrite (fire_triggers_none _ _ (H3 eq_refl)).
    + reflexivity.
  - intros Hnone. unfold Legacy.off, bind, gets.
    rewrite (hd_error_unknown _ _ Hunknown). cbn [option_map].
    pose proof (without_unknown _ _ Hunknown) as Hsame.
    unfold without in Hsame. unfold modify. rewrite Hsame.
    rewrite (emitSync_none _ _ _ Hnone). reflexivity.
Qed.

(** ** A registry without triggers or snapshots *)

Lemma off_without_triggers hash s :
  _offTriggers (emitter (world s)) = [] ->
  off null type_error run hash s = Ok tt (without hash s).
Proof.
  intros H. unfold off, bind, gets.
  change (_offAction hash s) with (Ok (Exn:=Exn) tt (without hash s)).
  cbv iota beta.
  assert (Hn : forall name : string,
             triggers_named name (emitter (world (without hash s))) = []).
  { intros name. unfold triggers_named, without. simpl. now rewrite H. }
  unfold try_catch, off_cascade, bind, _offEmit, _offEventEmit, _offAllEmit, gets.
  rewrite (fire_triggers_none _ _ (Hn _)).
  destruct (List.length _ <=? 0)%nat; cbn [when].
  - destruct (to_template _); [|reflexivity].
    rewrite (fire_triggers_none _ _ (Hn _)).
    destruct (List.length _ <=? 0)%nat; cbn [when].
    + now rewrite (fire_triggers_none _ _ (Hn _)).
    + reflexivity.
  - unfold ret.
    destruct (List.length _ <=? 0)%nat; cbn [when].
    + now rewrite (fire_triggers_none _ _ (Hn _)).
    + reflexivity.
Qed.

Lemma on_without_snapshot name cb s :
  hasState name (emitter (world s)) = false ->
  on guid run name cb s
  = Ok (guid (guids (world s))) (mkSys (subscribed guid name cb s) (fired s)).
Proof.
  intros H. unfold on, bind, fresh_guid, modify, gets, hasState in *.
  cbn [world emitter push_event _states guids env fired].
  now rewrite H.
Qed.

(** ** At most one snapshot per name *)

Lemma states_unique_same em em' :
  _states em' = _states em -> states_unique em -> states_unique em'.
Proof.
  intros E H name. unfold snapshots_named. rewrite E. apply H.
Qed.

Lemma filter_filter_length {A} (p q : A -> bool) (l : list A) :
  List.length (filter p (filter q l)) <= List.length (filter p l).
Proof.
  induction l as [|x l IH]; simpl; [lia|].
  destruct (p x) eqn:Ep, (q x); simpl; rewrite ?Ep; simpl; lia.
Qed.

Lemma filter_filter_negb {A} (p : A -> bool) (l : list A) :
  filter p (filter (fun x => negb (p x)) l) = [].
Proof.
  induction l as [|x l IH]; simpl; [easy|].
  destruct (p x) eqn:E; simpl; [easy|]. now rewrite E.
Qed.

Lemma states_unique_remove name em :
  states_unique em ->
  states_unique
    (mkEmitter (_events em) (_offTriggers em)
       (filter (fun m => negb (strict_eq (stateName m) name)) (_states em))).
Proof.
  intros H n. unfold snapshots_named. simpl.
  etransitivity; [apply filter_filter_length|apply H].
Qed.

(** Storing a snapshot: the ones with that name go, the new one is
    appended. *)
Lemma set_state_result name v s :
  set_state (Exn:=Exn) name v s =
  Ok tt (mkSys (mkWorld
                  (mkEmitter (_events (emitter (world s)))
                             (_offTriggers (emitter (world s)))
                             (filter (fun m => negb (strict_eq (stateName m) name))
                                     (_states (emitter (world s)))
                              ++ [mkState name v])%list)
                  (guids (world s)) (env (world s)))
               (fired s)).
Proof.
  unfold set_state, bind, gets, when, removeState, modify, ret, push_state.
  destruct (hasState name (emitter (world s))) eqn:Hs; simpl; [reflexivity|].
  now rewrite (filter_negb_none _ _ Hs).
Qed.

Lemma states_unique_set name v em :
  states_unique em ->
  states_unique
    (mkEmitter (_events em) (_offTriggers em)
       (filter (fun m => negb (strict_eq (stateName m) name)) (_states em)
        ++ [mkState name v])%list).
Proof.
  intros H n. unfold snapshots_named. simpl.
  rewrite filter_app, length_app. simpl.
  destruct (strict_eq name n) eqn:E; simpl.
  - apply strict_eq_true in E. subst n.
    rewrite filter_filter_negb. simpl. lia.
  - specialize (H n). unfold snapshots_named in H.
    pose proof (filter_filter_length
                  (fun m : StateObject Data => strict_eq (stateName m) n)
                  (fun m => negb (strict_eq (stateName m) name))
                  (_states em)).
    lia.
Qed.

Lemma keeps_set_state name v :
  keeps states_unique (set_state name v : M unit).
Proof.
  intros s H. rewrite set_state_result. simpl. now apply states_unique_set.
Qed.

Section OneSnapshot.

Hypothesis run_keeps :
  forall cb d h w,
    states_unique (emitter w) -> states_unique (emitter (world_after (run cb d h w))).

Local Ltac same_states :=
  apply keeps_modify; intros em Hem;
  apply (states_unique_same (em:=em)); [reflexivity|exact Hem].

Local Ltac keeps_steps :=
  repeat first
    [ apply keeps_ret | apply keeps_gets | apply keeps_fresh_guid | apply keeps_throw
    | apply keeps_call_cb; exact run_keeps
    | apply keeps_invoke; exact run_keeps
    | apply keeps_fire_triggers; exact run_keeps
    | apply keeps_emitSync; exact run_keeps
    | apply keeps_emitAsync; exact run_keeps
    | apply keeps_legacy_emitAsync; exact run_keeps
    | apply keeps_set_state
    | same_states
    | apply keeps_bind | apply keeps_try_catch | apply keeps_when
    | apply keeps_mapM | apply keeps_forEach
    | match goal with |- forall _, _ => intro end
    | match goal with |- keeps _ (match ?o with _ => _ end) => destruct o end ].

Lemma keeps_on name cb : keeps states_unique (on guid run name cb).
Proof.
  unfold on. keeps_steps.
Qed.

Lemma keeps_off hash : keeps states_unique (off null type_error run hash).
Proof. unfold off, off_cascade, _offAction, _offEmit, _offEventEmit, _offAllEmit. keeps_steps. Qed.

Lemma keeps_offEvent name : keeps states_unique (offEvent null type_error run name).
Proof.
  unfold offEvent, offEvent_cascade, _offEventAction, _offEmit, _offEventEmit,
    _offAllEmit. keeps_steps.
Qed.

Lemma keeps_offAll : keeps states_unique (offAll null type_error linq_same run).
Proof.
  unfold offAll, offAll_cascade, _offAllAction, _offEmit, _offEventEmit,
    _offAllEmit. keeps_steps.
Qed.

Lemma keeps_onTriggerOff (name : string) cb :
  keeps states_unique (_onTriggerOff guid name cb : M string).
Proof. unfold _onTriggerOff. keeps_steps. Qed.

Lemma keeps_triggerOffEvent name cb :
  keeps states_unique (triggerOffEvent guid type_error name cb : M string).
Proof. unfold triggerOffEvent, _onTriggerOff. keeps_steps. Qed.

Lemma keeps_legacy_triggerOffEvent name cb :
  keeps states_unique (Legacy.triggerOffEvent guid type_error run name cb).
Proof. unfold Legacy.triggerOffEvent, on. keeps_steps. Qed.

Lemma keeps_legacy_off hash : keeps states_unique (Legacy.off undefined run hash).
Proof. unfold Legacy.off. keeps_steps. Qed.

Lemma keeps_offTriggerOff hash :
  keeps states_unique (offTriggerOff hash : M unit).
Proof. unfold offTriggerOff, _offTriggerOff. keeps_steps. Qed.

Lemma keeps_removeState name :
  keeps states_unique (removeState name : M unit).
Proof.
  unfold removeState. apply keeps_modify. intros em Hem.
  now apply states_unique_remove.
Qed.

Lemma keeps_legacy_offAll : keeps states_unique (Legacy.offAll : M unit).
Proof. unfold Legacy.offAll. keeps_steps. Qed.

Lemma keeps_legacy_offEvent name :
  keeps states_unique (Legacy.offEvent undefined type_error run name).
Proof. unfold Legacy.offEvent. keeps_steps. Qed.

Lemma keeps_emitStateSync name d : keeps states_unique (emitStateSync run name d).
Proof. unfold emitStateSync. keeps_steps. Qed.

Lemma keeps_emitStateAsync name d : keeps states_unique (emitStateAsync run name d).
Proof. unfold emitStateAsync. keeps_steps. Qed.

Lemma keeps_legacy_emitStateAsync name d :
  keeps states_unique (Legacy.emitStateAsync run name d).
Proof. unfold Legacy.emitStateAsync. keeps_steps. Qed.

Lemma keeps_perform op s :
  states_unique (emitter (world s)) ->
  states_unique (emitter (world (perform null undefined guid type_error linq_same run op s))).
Proof.
  destruct op; simpl.
  - apply keeps_on.
  - apply keeps_off.
  - apply keeps_offEvent.
  - apply keeps_offAll.
  - apply keeps_onTriggerOff.
  - apply keeps_triggerOffEvent.
  - apply keeps_onTriggerOff.
  - apply keeps_offTriggerOff.
  - apply keeps_emitSync, run_keeps.
  - apply keeps_emitAsync, run_keeps.
  - apply keeps_emitStateSync.
  - apply keeps_emitStateAsync.
  - apply keeps_removeState.
  - apply keeps_legacy_off.
  - apply keeps_legacy_offEvent.
  - apply keeps_legacy_offAll.
  - apply keeps_on.
  - apply keeps_legacy_triggerOffEvent.
  - apply keeps_legacy_emitAsync, run_keeps.
  - apply keeps_legacy_emitStateAsync.
Qed.

(** C9, amended: provided the callbacks, which reach the state table
    only through these operations, keep it so, every state the registry
    reaches from its construction holds, for every name but [NaN], at
    most one snapshot stored with that name: the snapshots stored with
    such a name are those [===] finds under it, of which there is at
    most one; every operation (of either registry; [emitStateSync],
    [emitStateAsync] and [removeState] among them) keeps that property,
    whether it returns or throws. *)
Theorem one_snapshot_per_name :
  (forall ops g e name,
      strict_eq name name = true ->
      List.length
        (snapshots_of name
           (emitter (world (perform_all null undefined guid type_error linq_same run ops
                                        (fresh_sys _ _ g e)))))
      <= 1) /\
  (forall op s,
      states_unique (emitter (world s)) ->
      states_unique
        (emitter (world (perform null undefined guid type_error linq_same run op s)))) /\
  (forall em,
      states_unique em <->
      forall name, strict_eq name name = true -> List.length (snapshots_of name em) <= 1).
Proof.
  assert (Hsame : forall em name, strict_eq name name = true ->
                                  snapshots_of name em = snapshots_named name em).
  { intros em name Hself. unfold snapshots_of, snapshots_named.
    apply filter_ext. intros m.
    destruct (stateName m) as [x|[|x]|i x], name as [y|[|y]|j y];
      try reflexivity; discriminate. }
  assert (Hnan : forall em name, strict_eq name name = false ->
                                 snapshots_named name em = []).
  { intros em name Hself. unfold snapshots_named.
    induction (_states em) as [|m l IH]; [reflexivity|]. simpl.
    destruct (strict_eq (stateName m) name) eqn:E; [|exact IH].
    apply strict_eq_right in E. congruence. }
  split; [|split].
  - intros ops g e name Hself. rewrite (Hsame _ _ Hself).
    assert (H : states_unique (emitter (world (fresh_sys Data Callback g e))))
      by (intros n; simpl; lia).
    revert H. generalize (fresh_sys Data Callback g e).
    induction ops as [|op ops IH]; intros s H; simpl.
    + apply H.
    + apply IH. now apply keeps_perform.
  - apply keeps_perform.
  - intros em. split.
    + intros H name Hself. rewrite (Hsame _ _ Hself). apply H.
    + intros H name. destruct (strict_eq name name) eqn:Hself.
      * rewrite <- (Hsame _ _ Hself). now apply H.
      * rewrite (Hnan _ _ Hself). simpl. lia.
Qed.

End OneSnapshot.

End RegistryFacts.

(** * Properties of the coordinator *)

Section CoordinatorFacts.

Variable Value : Type.
Variable type_error : Value.
Variable Producer : Type.
Variable guid : nat -> string.
Variable trigger_run :
  CacheEmitter.Listener -> CacheEmitter.Payload Value -> string
  -> World (CacheEmitter.Payload Value) CacheEmitter.Listener (CacheEmitter.Promises Value)
  -> CbResult (CacheEmitter.Payload Value) Value CacheEmitter.Listener
              (CacheEmitter.Promises Value).

Import CacheEmitter.

Local Abbreviation CoWorld := (World (Payload Value) Listener (Promises Value)).
Local Abbreviation EventObject := (EventObject Listener).
Local Abbreviation Coordinator := (Coordinator Value Producer).
Local Abbreviation listener := (listener type_error trigger_run).
Local Abbreviation call := (call type_error guid trigger_run).
Local Abbreviation step := (step type_error guid trigger_run).
Local Abbreviation run_actions := (run_actions type_error guid trigger_run).
Local Abbreviation broadcast := (broadcast type_error trigger_run).

Implicit Types (w : CoWorld) (c : Coordinator) (l : list EventObject) (v : Value)
         (k : string).

Lemma listener_answers p v t h w :
  _offTriggers (emitter w) = [] ->
  listener (CallListener p) (PMessage v t) h w
  = Returned RVoid (world (without h (mkSys (responseCall p t v w) []))).
Proof.
  intros H. unfold CacheEmitter.listener.
  destruct (has h (emitter (responseCall p t v w))) eqn:E.
  - rewrite off_without_triggers.
    + reflexivity.
    + destruct t; exact H.
  - change (emitter (responseCall p t v w))
      with (emitter (world (mkSys (responseCall p t v w) []))) in E.
    now rewrite (without_unknown _ _ E).
Qed.

Lemma filter_filter_both {A} (p q : A -> bool) (xs : list A) :
  filter p (filter q xs) = filter (fun x => q x && p x) xs.
Proof.
  induction xs as [|x xs IH]; simpl; [easy|].
  destruct (q x); simpl; [|exact IH]. destruct (p x); now rewrite IH.
Qed.

Lemma answered_cons v o l w :
  answered v l (world (without (eventHash o)
                         (mkSys (responseCall (caller_of o) resolve v w) [])))
  = answered v (o :: l) w.
Proof.
  unfold answered, without. simpl. rewrite filter_filter_both, <- app_assoc.
  simpl. f_equal. f_equal.
  apply filter_ext. intros m.
  now rewrite negb_orb.
Qed.

Lemma answered_nil v w : answered v [] w = w.
Proof.
  unfold answered. simpl. rewrite app_nil_r.
  assert (E : filter (fun _ : EventObject => true) (_events (emitter w))
              = _events (emitter w)).
  { induction (_events (emitter w)) as [|x xs IH]; simpl; [easy|]. now rewrite IH. }
  rewrite E. now destruct w as [[] ? ?].
Qed.

(** Sending a message to listeners: each one answers its caller and
    leaves; none returns a promise or throws. *)
Lemma deliver_to_listeners v l w log :
  _offTriggers (emitter w) = [] ->
  mapM (async_invoke listener (PMessage v resolve)) l (mkSys w log)
  = Ok (map (fun _ => HReturned RVoid) l)
       (mkSys (answered v l w) (log ++ map (firing_of (PMessage v resolve)) l)%list).
Proof.
  revert w log. induction l as [|o l IH]; intros w log H; simpl.
  - unfold ret. now rewrite answered_nil, app_nil_r.
  - unfold bind at 1. unfold async_invoke at 1, try_catch, bind, invoke at 1, call_cb.
    cbn [world fired].
    destruct o as [n h [p]]. cbn [callback eventHash].
    rewrite (listener_answers p v resolve h w H).
    unfold ret, bind. rewrite IH by exact H.
    rewrite <- app_assoc.
    now rewrite <- (answered_cons v (mkEvent n h (CallListener p)) l w).
Qed.

Lemma plain_handles l :
  first_thrown (map (fun _ : EventObject => @HReturned Value RVoid) l) = None /\
  promises_of (map (fun _ : EventObject => @HReturned Value RVoid) l) = [].
Proof. induction l as [|o l [IH1 IH2]]; simpl; auto. Qed.

Lemma broadcast_answers k v w :
  _offTriggers (emitter w) = [] ->
  broadcast k v w
  = (AllOf (map (fun _ => HReturned RVoid) (getEvents k (emitter w))),
     answered v (getEvents k (emitter w)) w).
Proof.
  intros H. unfold CacheEmitter.broadcast, emitAsync, bind, gets.
  cbn [world]. now rewrite deliver_to_listeners by exact H.
Qed.

(** Whether the producer's promise was fulfilled or rejected, the
    listeners of the key get its value under the tag ['resolve']. *)
Lemma then_emit_answers k v w :
  _offTriggers (emitter w) = [] ->
  then_emit type_error trigger_run k v w = answered v (getEvents k (emitter w)) w.
Proof.
  intros H. unfold then_emit. rewrite broadcast_answers by exact H.
  unfold completion_status, all_status, all_start.
  destruct (plain_handles (getEvents k (emitter w))) as [-> ->]. reflexivity.
Qed.

Lemma catch_emit_answers k v w :
  _offTriggers (emitter w) = [] ->
  catch_emit type_error trigger_run k v w = answered v (getEvents k (emitter w)) w.
Proof.
  intros H. unfold catch_emit. now rewrite broadcast_answers by exact H.
Qed.

(** ** Lists *)

Lemma NoDup_map_injective {A B} (f : A -> B) (xs : list A) x y :
  NoDup (map f xs) -> In x xs -> In y xs -> f x = f y -> x = y.
Proof.
  induction xs as [|z xs IH]; simpl; [easy|].
  intros Hnd Hx Hy E. inversion Hnd as [|? ? Hz Hnd']; subst.
  destruct Hx as [->|Hx], Hy as [->|Hy]; auto.
  - exfalso. apply Hz. rewrite E. now apply in_map.
  - exfalso. apply Hz. rewrite <- E. now apply in_map.
Qed.

Lemma NoDup_map_filter {A B} (f : A -> B) (p : A -> bool) (xs : list A) :
  NoDup (map f xs) -> NoDup (map f (filter p xs)).
Proof.
  induction xs as [|z xs IH]; simpl; [easy|].
  intros Hnd. inversion Hnd as [|? ? Hz Hnd']; subst.
  destruct (p z); simpl; [|auto].
  constructor; [|auto].
  intros Hin. apply Hz. apply in_map_iff in Hin. destruct Hin as (y & E & Hy).
  apply filter_In in Hy. apply in_map_iff. exists y. tauto.
Qed.

Lemma NoDup_snoc {A} (xs : list A) x :
  NoDup xs -> ~ In x xs -> NoDup (xs ++ [x])%list.
Proof.
  intros Hnd Hx. apply NoDup_app; [exact Hnd|repeat constructor; easy|].
  intros y Hy [<-|[]]. contradiction.
Qed.

(** With distinct identifiers, taking out the listeners of a key by
    identifier takes out exactly the subscriptions under that key. *)
Lemma answered_events k (evs : list EventObject) :
  NoDup (map (@eventHash Listener) evs) ->
  filter (fun m => negb (existsb (String.eqb (eventHash m))
                          (map (@eventHash _)
                               (filter (fun m => strict_eq (eventName m) k) evs))))
         evs
  = filter (fun m => negb (strict_eq (eventName m) k)) evs.
Proof.
  intros Hnd. apply filter_ext_in. intros m Hm. f_equal.
  destruct (strict_eq (eventName m) k) eqn:E.
  - apply existsb_exists. exists (eventHash m). split; [|apply String.eqb_refl].
    apply in_map. apply filter_In. now split.
  - destruct (existsb _ _) eqn:X; [|reflexivity]. exfalso.
    apply existsb_exists in X. destruct X as (h & Hh & Eh).
    apply String.eqb_eq in Eh. subst h.
    apply in_map_iff in Hh. destruct Hh as (m' & Eh & Hm').
    apply filter_In in Hm'. destruct Hm' as [Hin Ek].
    assert (m' = m) by (eapply NoDup_map_injective; eauto). subst m'.
    congruence.
Qed.

Lemma count_key_app k (a b : list (Task Producer)) :
  count_key k (a ++ b) = count_key k a + count_key k b.
Proof. unfold count_key, for_key. now rewrite filter_app, length_app. Qed.

Lemma count_key_one k (t : Task Producer) :
  count_key k [t] = if String.eqb (task_key t) k then 1 else 0.
Proof. unfold count_key, for_key. simpl. now destruct (String.eqb _ _). Qed.

Lemma nth_error_split_at {A} (xs : list A) i x :
  nth_error xs i = Some x ->
  xs = (firstn i xs ++ x :: skipn (S i) xs)%list.
Proof.
  revert i. induction xs as [|y xs IH]; intros [|i]; simpl; try easy.
  - now intros [= ->].
  - intros H. f_equal. now apply IH.
Qed.

Lemma count_key_remove_nth k (ts : list (Task Producer)) i t :
  nth_error ts i = Some t ->
  count_key k ts
  = count_key k (remove_nth i ts) + (if String.eqb (task_key t) k then 1 else 0).
Proof.
  intros H. rewrite (nth_error_split_at _ _ H) at 1.
  unfold remove_nth.
  change (t :: skipn (S i) ts) with ([t] ++ skipn (S i) ts)%list.
  rewrite !count_key_app, count_key_one. lia.
Qed.

Lemma hasEvent_push k o (em : EventEmitter (Payload Value) Listener) :
  hasEvent k (push_event o em) = hasEvent k em || strict_eq (eventName o) k.
Proof.
  unfold hasEvent, some, push_event. simpl.
  rewrite existsb_app. simpl. now rewrite orb_false_r.
Qed.

Lemma hasEvent_filter_name k k' (evs : list EventObject) :
  existsb (fun m => strict_eq (eventName m) k')
          (filter (fun m => negb (strict_eq (eventName m) k)) evs)
  = if String.eqb k k' then false
    else existsb (fun m => strict_eq (eventName m) k') evs.
Proof.
  induction evs as [|o evs IH]; simpl.
  - now destruct (String.eqb k k').
  - destruct (strict_eq (eventName o) k) eqn:E; simpl.
    + rewrite IH. destruct (String.eqb k k') eqn:E'; [reflexivity|].
      apply strict_eq_true in E. rewrite E. cbn [strict_eq]. now rewrite E'.
    + rewrite IH. destruct (String.eqb k k') eqn:E'; [|reflexivity].
      apply String.eqb_eq in E'. subst k'. now rewrite E.
Qed.

Lemma promise_state_none p (log : Promises Value) :
  promise_state p log = None <-> forall st, ~ In (p, st) log.
Proof.
  unfold promise_state. induction log as [|[q st] log IH]; simpl.
  - split; [intros _ st []|reflexivity].
  - destruct (Nat.eqb q p) eqn:E; simpl.
    + apply Nat.eqb_eq in E. subst q. split; [discriminate|].
      intros H. exfalso. apply (H st). now left.
    + apply Nat.eqb_neq in E. rewrite IH. split.
      * intros H st' [[= -> ->]|Hin]; [congruence|]. now apply (H st').
      * intros H st' Hin. apply (H st'). now right.
Qed.

(** ** The invariant *)

Lemma coordinated_new : coordinated guid (new_coordinator Value Producer).
Proof.
  constructor; simpl; try easy; constructor.
Qed.

Section Invariant.

Hypothesis guid_injective : forall i j, guid i = guid j -> i = j.

Lemma call_without_snapshot k (P : Producer) c :
  _states (emitter (_emitter c)) = [] ->
  call k P c
  = (callers c,
     mkCoordinator
       (subscribed guid k (CallListener (callers c)) (mkSys (_emitter c) []))
       (S (callers c))
       (if negb (hasEvent k (emitter (_emitter c)))
        then (scheduled c ++ [mkTask k P])%list
        else scheduled c)
       (in_flight c) (invoked c) (delivered c)).
Proof.
  intros H. unfold CacheEmitter.call.
  rewrite on_without_snapshot; [reflexivity|].
  unfold hasState. simpl. now rewrite H.
Qed.

Lemma coordinated_call k (P : Producer) c :
  coordinated guid c -> coordinated guid (snd (call k P c)).
Proof.
  intros [Htr Hst Hiss Hnd Hact Hinv Hcal Hcnd Hset Hpen].
  rewrite call_without_snapshot by exact Hst.
  constructor; cbn [snd _emitter callers scheduled in_flight invoked delivered
                    subscribed world emitter guids env push_event _events
                    _offTriggers _states].
  - exact Htr.
  - exact Hst.
  - intros o Hin. apply in_app_or in Hin. destruct Hin as [Hin|[<-|[]]].
    + destruct (Hiss o Hin) as (i & Hi & E). exists i. split; [lia|exact E].
    + exists (guids (_emitter c)). split; [lia|reflexivity].
  - rewrite map_app. apply NoDup_snoc; [exact Hnd|]. simpl.
    intros Hin. apply in_map_iff in Hin. destruct Hin as (o & E & Hin).
    destruct (Hiss o Hin) as (i & Hi & E'). rewrite E' in E.
    apply guid_injective in E. lia.
  - intros k'. specialize (Hact k').
    change (hasEvent k' (mkEmitter
              (_events (emitter (_emitter c))
               ++ [mkEvent k (guid (guids (_emitter c))) (CallListener (callers c))])
              (_offTriggers (emitter (_emitter c))) (_states (emitter (_emitter c)))))
      with (hasEvent k' (push_event
              (mkEvent k (guid (guids (_emitter c))) (CallListener (callers c)))
              (emitter (_emitter c)))).
    rewrite hasEvent_push. cbn [eventName strict_eq].
    destruct (hasEvent k (emitter (_emitter c))) eqn:Hk; cbn [negb].
    + destruct (String.eqb k k') eqn:E.
      * apply String.eqb_eq in E. subst k'. now rewrite Hk in *.
      * now rewrite orb_false_r.
    + rewrite count_key_app, count_key_one. cbn [task_key].
      destruct (String.eqb k k') eqn:E.
      * apply String.eqb_eq in E. subst k'. rewrite Hk in *. simpl. lia.
      * rewrite orb_false_r. lia.
  - exact Hinv.
  - intros o Hin. apply in_app_or in Hin. destruct Hin as [Hin|[<-|[]]].
    + specialize (Hcal o Hin). lia.
    + unfold caller_of. simpl. lia.
  - rewrite map_app. apply NoDup_snoc; [exact Hcnd|]. simpl.
    intros Hin. apply in_map_iff in Hin. destruct Hin as (o & E & Hin).
    specialize (Hcal o Hin). unfold caller_of in *. simpl in E. lia.
  - intros p st Hin. specialize (Hset p st Hin). lia.
  - intros o Hin. apply in_app_or in Hin. destruct Hin as [Hin|[<-|[]]].
    + now apply Hpen.
    + apply promise_state_none. intros st Hin.
      specialize (Hset _ _ Hin). unfold caller_of in Hset. simpl in Hset. lia.
Qed.

Lemma coordinated_microtask c :
  coordinated guid c -> coordinated guid (step c (RunMicrotask Value Producer)).
Proof.
  intros Hc. unfold CacheEmitter.step.
  destruct (scheduled c) as [|t r] eqn:Hs; [exact Hc|].
  destruct Hc as [Htr Hst Hiss Hnd Hact Hinv Hcal Hcnd Hset Hpen].
  constructor; cbn [_emitter callers scheduled in_flight invoked delivered]; auto.
  - intros k. specialize (Hact k). rewrite Hs in Hact.
    change (t :: r) with ([t] ++ r)%list in Hact.
    rewrite count_key_app in *. lia.
  - intros k. specialize (Hinv k). rewrite !count_key_app. lia.
Qed.

Lemma settle_world (t : Task Producer) o w :
  _offTriggers (emitter w) = [] ->
  match o with
  | Resolves v => then_emit type_error trigger_run (task_key t) v w
  | Rejects err => catch_emit type_error trigger_run (task_key t) err w
  end
  = answered (outcome_value o) (getEvents (task_key t) (emitter w)) w.
Proof.
  intros H. destruct o; simpl.
  - now apply then_emit_answers.
  - now apply catch_emit_answers.
Qed.

Lemma coordinated_settle i o c :
  coordinated guid c -> coordinated guid (step c (Settle Producer i o)).
Proof.
  intros Hc. unfold CacheEmitter.step.
  destruct (nth_error (in_flight c) i) as [t|] eqn:Hi; [|exact Hc].
  destruct Hc as [Htr Hst Hiss Hnd Hact Hinv Hcal Hcnd Hset Hpen].
  rewrite settle_world by exact Htr.
  unfold answered, getEvents.
  rewrite (answered_events (task_key t) _ Hnd).
  pose proof (fun k => count_key_remove_nth k _ _ Hi) as Hrm.
  constructor; cbn [_emitter callers scheduled in_flight invoked delivered
                    world emitter guids env _events _offTriggers _states].
  - exact Htr.
  - exact Hst.
  - intros o' Hin. apply filter_In in Hin. now apply Hiss.
  - now apply NoDup_map_filter.
  - intros k. specialize (Hact k). specialize (Hrm k).
    unfold hasEvent, some in *. cbn [_events].
    rewrite hasEvent_filter_name.
    destruct (String.eqb (task_key t) k) eqn:E.
    + destruct (existsb _ _); lia.
    + lia.
  - intros k. specialize (Hinv k). specialize (Hrm k).
    rewrite count_key_app, count_key_one. lia.
  - intros o' Hin. apply filter_In in Hin. now apply Hcal.
  - now apply NoDup_map_filter.
  - intros p st Hin. apply in_app_or in Hin. destruct Hin as [Hin|Hin].
    + now apply (Hset p st).
    + apply in_map_iff in Hin. destruct Hin as (o' & [= <- _] & Hin).
      apply filter_In in Hin. now apply Hcal.
  - intros o' Hin. apply filter_In in Hin. destruct Hin as [Hin Hname].
    apply promise_state_none. intros st Hst'.
    apply in_app_or in Hst'. destruct Hst' as [Hold|Hnew].
    + specialize (Hpen o' Hin). rewrite promise_state_none in Hpen.
      now apply (Hpen st).
    + apply in_map_iff in Hnew. destruct Hnew as (o'' & [= E _] & Hin'').
      apply filter_In in Hin''. destruct Hin'' as [Hin'' Hname''].
      assert (o'' = o') by (eapply NoDup_map_injective; eauto). subst o''.
      rewrite Hname'' in Hname. discriminate.
Qed.

Lemma coordinated_step c a :
  coordinated guid c -> coordinated guid (step c a).
Proof.
  destruct a as [k P| |i o].
  - apply coordinated_call.
  - apply coordinated_microtask.
  - apply coordinated_settle.
Qed.

Lemma coordinated_run (actions : list (Action Value Producer)) :
  coordinated guid (run_actions actions).
Proof.
  unfold CacheEmitter.run_actions.
  assert (H : forall c, coordinated guid c ->
                        coordinated guid (fold_left step actions c)).
  { induction actions as [|a actions IH]; intros c Hc; simpl; [exact Hc|].
    apply IH. now apply coordinated_step. }
  apply H, coordinated_new.
Qed.

(** ** Single flight *)

Lemma call_when_taken k (P : Producer) c :
  hasEvent k (emitter (_emitter c)) = true ->
  scheduled (snd (call k P c)) = scheduled c /\
  in_flight (snd (call k P c)) = in_flight c /\
  invoked (snd (call k P c)) = invoked c.
Proof.
  intros H. unfold CacheEmitter.call. rewrite H.
  destruct (on _ _ _ _ _); simpl; auto.
Qed.

Lemma delivered_without_settle (actions : list (Action Value Producer)) c :
  forallb (fun a => negb (is_settle a)) actions = true ->
  delivered (fold_left step actions c) = delivered c.
Proof.
  revert c. induction actions as [|a actions IH]; intros c H; simpl; [reflexivity|].
  simpl in H. apply andb_true_iff in H. destruct H as [Ha H].
  rewrite IH by exact H.
  destruct a as [k P| |i o]; simpl in *; [| |discriminate].
  - unfold CacheEmitter.call. destruct (on _ _ _ _ _); reflexivity.
  - destruct (scheduled c); reflexivity.
Qed.

(** C1: in every state the coordinator reaches through invocations of
    [call] and the steps of the scheduler, a key has at most one producer
    queued or in flight, and its producers have been invoked at most once
    more than their results have been delivered: at most once in all
    while no result has arrived, however many callers asked.  A caller
    that finds listeners under the key adds one listener and neither
    queues nor invokes a producer; the same test decides in [cacheCall]
    of the earlier registry. *)
Theorem call_single_flight (actions : list (Action Value Producer)) k :
  let c := run_actions actions in
  count_key k (scheduled c) + count_key k (in_flight c) <= 1 /\
  count_key k (invoked c) <= count_key k (delivered c) + 1 /\
  (forallb (fun a => negb (is_settle a)) actions = true ->
   count_key k (invoked c) <= 1) /\
  (forall P : Producer,
    hasEvent k (emitter (_emitter c)) = true ->
    let c' := snd (call k P c) in
    scheduled c' = scheduled c /\
    in_flight c' = in_flight c /\
    invoked c' = invoked c /\
    _events (emitter (_emitter c'))
    = (_events (emitter (_emitter c))
       ++ [mkEvent k (guid (guids (_emitter c))) (CallListener (callers c))])%list) /\
  (forall (Data Exn Callback Env : Type)
          (run : Callback -> Data -> string -> World Data Callback Env
                 -> CbResult Data Exn Callback Env)
          (s s' : Sys Data Callback Env) (cb : Callback) (queued : bool),
      hasEvent k (emitter (world s)) = true ->
      Legacy.cacheCall guid run k cb s = Ok queued s' ->
      queued = false).
Proof.
  intros c. pose proof (coordinated_run actions) as Hc. fold c in Hc.
  pose proof (one_active Hc k) as Hact.
  pose proof (invoked_accounted Hc k) as Hinv.
  split; [|split; [|split; [|split]]].
  - destruct (hasEvent k _); lia.
  - destruct (hasEvent k _); lia.
  - intros Hns.
    assert (Hd : delivered c = []).
    { unfold c, CacheEmitter.run_actions.
      now rewrite delivered_without_settle by exact Hns. }
    rewrite Hd in Hinv. unfold count_key at 2 in Hinv. simpl in Hinv.
    destruct (hasEvent k _); lia.
  - intros P Hk c'. subst c'.
    destruct (call_when_taken k P c Hk) as (H1 & H2 & H3).
    repeat (split; [assumption|]).
    rewrite call_without_snapshot by exact (no_states Hc). reflexivity.
  - intros Data Exn Callback Env run s s' cb queued Hk.
    unfold Legacy.cacheCall, bind, gets. rewrite Hk.
    destruct (on _ _ _ _ _); unfold ret; [|discriminate].
    now intros [= <- _].
Qed.

(** ** A producer that fails *)

Lemma promise_state_app p (l1 l2 : Promises Value) :
  promise_state p (l1 ++ l2)%list
  = match promise_state p l1 with
    | Some st => Some st
    | None => promise_state p l2
    end.
Proof.
  unfold promise_state. rewrite find_append.
  match goal with |- context [find ?f l1] => now destruct (find f l1) end.
Qed.

Lemma promise_state_answered p v l :
  In p (map caller_of l) ->
  promise_state p (map (fun o => (caller_of o, Resolved v)) l) = Some (Resolved v).
Proof.
  unfold promise_state. induction l as [|o l IH]; simpl; [easy|].
  intros [E|Hin].
  - rewrite E, Nat.eqb_refl. reflexivity.
  - destruct (Nat.eqb (caller_of o) p); [reflexivity|]. now apply IH.
Qed.

(** C3: when the producer in flight for a key rejects with [err],
    the coordinator does exactly what it does when the producer is
    fulfilled with the value [err]: the message goes out under the tag
    ['resolve'], and the promise of every caller waiting on the key,
    pending until then, is resolved with [err], not rejected. *)
Theorem rejection_delivered_as_resolution
        (actions : list (Action Value Producer)) i t err p :
  let c := run_actions actions in
  nth_error (in_flight c) i = Some t ->
  In p (waiting_on (task_key t) c) ->
  step c (Settle Producer i (Rejects err)) = step c (Settle Producer i (Resolves err)) /\
  _emitter (step c (Settle Producer i (Rejects err)))
  = snd (broadcast (task_key t) err (_emitter c)) /\
  promise_state p (env (_emitter c)) = None /\
  promise_state p (env (_emitter (step c (Settle Producer i (Rejects err)))))
  = Some (Resolved err).
Proof.
  intros c Hi Hp. pose proof (coordinated_run actions) as Hc. fold c in Hc.
  pose proof (no_triggers Hc) as Htr.
  assert (Hpending : promise_state p (env (_emitter c)) = None).
  { unfold waiting_on in Hp. apply in_map_iff in Hp.
    destruct Hp as (o & <- & Hin). apply (listeners_pending Hc).
    unfold getEvents in Hin. now apply filter_In in Hin. }
  unfold CacheEmitter.step. rewrite Hi.
  cbn [_emitter]. unfold catch_emit.
  rewrite then_emit_answers, broadcast_answers by exact Htr.
  cbn [snd]. repeat split; [exact Hpending|].
  unfold answered. cbn [env].
  rewrite promise_state_app, Hpending.
  now apply promise_state_answered.
Qed.

End Invariant.

End CoordinatorFacts.

(** * Further properties of the registry *)

Section DeliveryFacts.

Variable Data : Type.
Variables null undefined : Data.
Variables Exn Callback Env : Type.
Variable guid : nat -> string.
Variable type_error : Exn.
Variable linq_same : EventNameType -> EventNameType -> bool.
Variable run : Callback -> Data -> string -> World Data Callback Env
               -> CbResult Data Exn Callback Env.

Local Abbreviation Sys := (Sys Data Callback Env).
Local Abbreviation M := (M Data Exn Callback Env).
Local Abbreviation EventEmitter := (EventEmitter Data Callback).
Local Abbreviation EventObject := (EventObject Callback).

Implicit Types (s : Sys) (em : EventEmitter) (name : EventNameType) (hash : string)
         (d : Data) (o : EventObject) (subs pre post : list EventObject).

(** ** Synchronous delivery *)

Lemma fired_invoke d o s :
  fired (sys_after (invoke run d o s)) = (fired s ++ [firing_of d o])%list.
Proof.
  unfold invoke, call_cb, firing_of. now destruct (run _ _ _ _).
Qed.

Lemma fired_deliver_all d subs s :
  fired (deliver_all run d subs s) = (fired s ++ map (firing_of d) subs)%list.
Proof.
  revert s. induction subs as [|o subs IH]; intros s; simpl.
  - now rewrite app_nil_r.
  - unfold deliver_all in *. rewrite IH, fired_invoke, <- app_assoc. reflexivity.
Qed.

Lemma invoke_quiet d o s :
  threw (run (callback o) d (eventHash o) (world s)) = false ->
  exists r, invoke run d o s = Ok r (sys_after (invoke run d o s)).
Proof.
  intros H. unfold invoke, call_cb.
  destruct (run _ _ _ _); simpl in *; [eauto|discriminate].
Qed.

Lemma mapM_invoke_quiet d subs s :
  delivers_quietly run d subs s ->
  exists rs, mapM (invoke run d) subs s = Ok rs (deliver_all run d subs s).
Proof.
  revert s. induction subs as [|o subs IH]; intros s H.
  - eexists. reflexivity.
  - destruct H as [Ho H].
    change (deliver_all run d (o :: subs) s)
      with (deliver_all run d subs (sys_after (invoke run d o s))).
    destruct (IH _ H) as [rs Hrs].
    destruct (invoke_quiet d o s Ho) as [r Hr].
    set (s1 := sys_after (invoke run d o s)) in *.
    cbn [mapM]. unfold bind. rewrite Hr, Hrs. eexists. reflexivity.
Qed.

Lemma mapM_invoke_throw d pre o post s e w :
  delivers_quietly run d pre s ->
  run (callback o) d (eventHash o) (world (deliver_all run d pre s)) = Threw e w ->
  mapM (invoke run d) (pre ++ o :: post) s
  = Raise e (mkSys w (fired s ++ map (firing_of d) (pre ++ [o]))%list).
Proof.
  revert s. induction pre as [|o0 pre IH]; intros s Hq Ho.
  - simpl in *. unfold bind, invoke, call_cb. now rewrite Ho.
  - destruct Hq as [H0 Hq].
    change (deliver_all run d (o0 :: pre) s)
      with (deliver_all run d pre (sys_after (invoke run d o0 s))) in Ho.
    destruct (invoke_quiet d o0 s H0) as [r Hr].
    pose proof (fired_invoke d o0 s) as Hlog.
    set (s1 := sys_after (invoke run d o0 s)) in *.
    cbn [app mapM]. unfold bind at 1. rewrite Hr.
    unfold bind. rewrite (IH s1 Hq Ho), Hlog, <- app_assoc. reflexivity.
Qed.

Lemma emitSync_quiet name d s :
  delivers_quietly run d (getEvents name (emitter (world s))) s ->
  emitSync run name d s
  = Ok tt (deliver_all run d (getEvents name (emitter (world s))) s).
Proof.
  intros Hq. unfold emitSync, bind, gets.
  destruct (mapM_invoke_quiet d _ s Hq) as [rs ->]. reflexivity.
Qed.

(** X1: [emitSync] takes the subscribers of the name as they are when it
    is called and, when none of them throws, hands each of them the data
    and its own identifier, once, in the order of subscription, whatever
    the callbacks do to the registry meanwhile; then it returns. *)
Theorem emitSync_delivers_in_order name d s :
  let subs := getEvents name (emitter (world s)) in
  delivers_quietly run d subs s ->
  emitSync run name d s = Ok tt (deliver_all run d subs s) /\
  fired (deliver_all run d subs s) = (fired s ++ map (firing_of d) subs)%list.
Proof.
  intros subs Hq. split; [now apply emitSync_quiet|apply fired_deliver_all].
Qed.

(** X2: a subscriber that throws ends [emitSync]: the subscribers after
    it are not invoked, and what it threw reaches the caller of
    [emitSync]. *)
Theorem emitSync_stops_at_throw name d s pre o post e w :
  getEvents name (emitter (world s)) = (pre ++ o :: post)%list ->
  delivers_quietly run d pre s ->
  run (callback o) d (eventHash o) (world (deliver_all run d pre s)) = Threw e w ->
  emitSync run name d s
  = Raise e (mkSys w (fired s ++ map (firing_of d) (pre ++ [o]))%list).
Proof.
  intros Hsubs Hq Ho. unfold emitSync, bind, gets. rewrite Hsubs.
  now rewrite (@mapM_invoke_throw d pre o post s e w Hq Ho).
Qed.

(** ** Asynchronous delivery *)

Lemma async_invoke_handle d o s :
  async_invoke run d o s
  = Ok (handle_of (run (callback o) d (eventHash o) (world s)))
       (sys_after (invoke run d o s)).
Proof.
  unfold async_invoke, try_catch, bind, invoke, call_cb.
  now destruct (run _ _ _ _).
Qed.

Lemma mapM_async_invoke_handles d subs s :
  mapM (async_invoke run d) subs s
  = Ok (handles run d subs s) (deliver_all run d subs s).
Proof.
  revert s. induction subs as [|o subs IH]; intros s; [reflexivity|].
  change (deliver_all run d (o :: subs) s)
    with (deliver_all run d subs (sys_after (invoke run d o s))).
  cbn [mapM handles]. unfold bind.
  now rewrite async_invoke_handle, IH.
Qed.

Lemma length_handles d subs s :
  List.length (handles run d subs s) = List.length subs.
Proof.
  revert s. induction subs as [|o subs IH]; intros s; simpl; [easy|].
  now rewrite IH.
Qed.

Lemma first_thrown_rejects (hs : list (Handle Exn)) e hist :
  first_thrown hs = Some e -> all_status hs hist = Rejected e.
Proof.
  intros H. unfold all_status.
  rewrite all_step_settled; unfold all_start; simpl; rewrite H; easy.
Qed.

(** X3: in the registry with the trigger table, [emitAsync] never
    throws and invokes every subscriber the name has when it is called,
    in the order of subscription, also after one of them threw; the
    promise it returns is [Promise.all] over one handle per subscriber,
    and if a subscriber threw it is rejected from the start with what the
    first such subscriber threw, whatever settles later. *)
Theorem emitAsync_isolates_throws name d s :
  let subs := getEvents name (emitter (world s)) in
  let hs := handles run d subs s in
  emitAsync run name d s = Ok (AllOf hs) (deliver_all run d subs s) /\
  fired (deliver_all run d subs s) = (fired s ++ map (firing_of d) subs)%list /\
  List.length hs = List.length subs /\
  (forall e, first_thrown hs = Some e ->
     forall hist, completion_status (AllOf hs) hist = Rejected e).
Proof.
  intros subs hs. split; [|split; [|split]].
  - unfold emitAsync, bind, gets. fold subs.
    now rewrite mapM_async_invoke_handles.
  - apply fired_deliver_all.
  - apply length_handles.
  - intros e He hist. now apply first_thrown_rejects.
Qed.

(** X4: in the earlier registry a subscriber that throws ends
    [emitAsync] as it ends [emitSync]: the subscribers after it are not
    invoked; [emitAsync] itself returns, and its promise is rejected with
    what was thrown. *)
Theorem legacy_emitAsync_stops_at_throw name d s pre o post e w :
  getEvents name (emitter (world s)) = (pre ++ o :: post)%list ->
  delivers_quietly run d pre s ->
  run (callback o) d (eventHash o) (world (deliver_all run d pre s)) = Threw e w ->
  Legacy.emitAsync run name d s
  = Ok (Failed e) (mkSys w (fired s ++ map (firing_of d) (pre ++ [o]))%list) /\
  forall hist, completion_status (Failed e) hist = Rejected e.
Proof.
  intros Hsubs Hq Ho. split; [|reflexivity].
  unfold Legacy.emitAsync, try_catch, bind, gets. rewrite Hsubs.
  now rewrite (@mapM_invoke_throw d pre o post s e w Hq Ho).
Qed.

(** ** Unsubscribing a name *)

Lemma existsb_filter_negb {A} (p : A -> bool) (l : list A) :
  existsb p (filter (fun x => negb (p x)) l) = false.
Proof.
  induction l as [|x l IH]; simpl; [easy|].
  destruct (p x) eqn:E; simpl; [exact IH|]. now rewrite E.
Qed.

Lemma filter_other_name name other (l : list EventObject) :
  other <> name ->
  filter (fun m => strict_eq (eventName m) other)
         (filter (fun m => negb (strict_eq (eventName m) name)) l)
  = filter (fun m => strict_eq (eventName m) other) l.
Proof.
  intros Hne. induction l as [|x l IH]; simpl; [easy|].
  destruct (strict_eq (eventName x) name) eqn:E; simpl.
  - apply strict_eq_true in E.
    destruct (strict_eq (eventName x) other) eqn:E'; [|exact IH].
    apply strict_eq_true in E'. congruence.
  - now rewrite IH.
Qed.

(** X5: [offEvent] returns normally whatever the triggers do, and takes
    every subscription [===] to the name out of the table before any
    trigger is fired: the triggers are fired, inside the [try] block, in
    the system without these subscriptions, and where the callbacks
    leave the subscription table alone, the table is afterwards the one
    before without these subscriptions, so that [hasEvent] of the name
    is false and the subscriptions to other names are as they were.  When none of the
    triggers fired throws, [offEvent] fires the triggers of each removed
    identifier, then, for a name that is not a symbol, those filed for
    the rendering of the name (also when the name had no subscription),
    then, if the registry holds no subscription at that point, those of
    the whole registry.  For a symbol the rendering throws inside the
    [try] block: only the triggers of the removed identifiers are
    fired. *)
Theorem offEvent_fires_cascade name s :
  (exists s', offEvent null type_error run name s = Ok tt s') /\
  offEvent null type_error run name s
  = try_catch
      (offEvent_cascade null type_error run
         (map (@eventHash Callback) (getEvents name (emitter (world s)))) name)
      (fun _ => ret tt) (without_name name s) /\
  ((forall cb d h w,
       _events (emitter (world_after (run cb d h w))) = _events (emitter w)) ->
   let em' := emitter (world (sys_after (offEvent null type_error run name s))) in
   _events em'
   = filter (fun m => negb (strict_eq (eventName m) name)) (_events (emitter (world s))) /\
   hasEvent name em' = false /\
   forall other, other <> name ->
                 getEvents other em' = getEvents other (emitter (world s))) /\
  (is_symbol name = false ->
   drain_quiet null run name s -> drain_cascade null type_error run name s) /\
  (is_symbol name = true ->
   let removed :=
     map (fun m => getOffName (eventHash m)) (getEvents name (emitter (world s))) in
   quiet_each null run removed (without_name name s) ->
   offEvent null type_error run name s
   = Ok tt (fire_each null run removed (without_name name s))).
Proof.
  split; [|split; [|split; [|split]]].
  - unfold offEvent, bind, gets.
    change (_offEventAction name s) with (Ok (Exn:=Exn) tt (without_name name s)).
    apply try_catch_ignore.
  - reflexivity.
  - intros Hrun em'.
    assert (E : _events em'
                = filter (fun m => negb (strict_eq (eventName m) name))
                         (_events (emitter (world s))))
      by (apply offEvent_table; exact Hrun).
    split; [exact E|]. split.
    + unfold hasEvent, some. rewrite E. apply existsb_filter_negb.
    + intros other Hne. unfold getEvents. rewrite E. now apply filter_other_name.
  - intros Hsym (Hq1 & Hq2 & Hq3). unfold drain_cascade. cbv zeta. split.
    + unfold offEvent, bind, gets.
      change (_offEventAction name s) with (Ok (Exn:=Exn) tt (without_name name s)).
      cbv iota beta.
      unfold try_catch, offEvent_cascade, bind, _offEmit, _offEventEmit,
        _offAllEmit, gets.
      rewrite (forEach_fire_ok null run getOffName), map_map
        by (rewrite map_map; exact Hq1).
      rewrite (to_template_rendered _ Hsym).
      rewrite fire_triggers_ok by exact Hq2.
      match goal with
      | |- context [(List.length (_events (emitter (world ?s2))) <=? 0)%nat] =>
          fold (registry_empty s2) in *
      end.
      destruct (registry_empty _); cbn [when].
      * now rewrite fire_triggers_ok by (apply Hq3; reflexivity).
      * reflexivity.
    + destruct (registry_empty _);
        rewrite ?fired_fire_named, ?fired_fire_each, ?app_nil_r, <- ?app_assoc;
        reflexivity.
  - intros Hsym removed Hq.
    unfold offEvent, bind, gets.
    change (_offEventAction name s) with (Ok (Exn:=Exn) tt (without_name name s)).
    cbv iota beta.
    unfold try_catch, offEvent_cascade, bind, _offEmit, _offEventEmit.
    rewrite (forEach_fire_ok null run getOffName), map_map
      by (rewrite map_map; exact Hq).
    destruct name as [x|n|i x]; try discriminate. reflexivity.
Qed.

(** ** Subscribing, and unsubscribing again *)

Lemma has_subscribed name cb s :
  has (guid (guids (world s))) (emitter (subscribed guid name cb s)) = true.
Proof.
  unfold has, some, subscribed. simpl.
  rewrite existsb_app. simpl. rewrite String.eqb_refl. apply orb_true_r.
Qed.

Lemma never_found name (l : list EventObject) :
  strict_eq name name = false ->
  filter (fun m => strict_eq (eventName m) name) l = [] /\
  existsb (fun m => strict_eq (eventName m) name) l = false.
Proof.
  intros Hself.
  assert (H : forall m : EventObject, strict_eq (eventName m) name = false).
  { intros m. destruct (strict_eq (eventName m) name) eqn:E; [|reflexivity].
    apply strict_eq_right in E. congruence. }
  induction l as [|m l [IH1 IH2]]; simpl; [easy|]. now rewrite H.
Qed.

(** X6: on a name without snapshot, [on] invokes nothing, draws the
    next identifier and appends the subscription at the end of the
    table; [has] finds it under its identifier and the subscribers of
    other names are unchanged.  For every name but [NaN] the
    subscribers of the name are the ones before followed by the new one
    and [hasEvent] of the name is true.  Under the name [NaN] the
    subscription is in the table, but [getEvents] and [hasEvent], which
    compare with [===], do not find it: no emit reaches it, and only
    [off] on its identifier or [offAll] takes it out. *)
Theorem on_appends_subscription name cb s :
  hasState name (emitter (world s)) = false ->
  let hash := guid (guids (world s)) in
  let s' := mkSys (subscribed guid name cb s) (fired s) in
  on guid run name cb s = Ok hash s' /\
  _events (emitter (world s'))
  = (_events (emitter (world s)) ++ [mkEvent name hash cb])%list /\
  has hash (emitter (world s')) = true /\
  (forall other, other <> name ->
     getEvents other (emitter (world s')) = getEvents other (emitter (world s))) /\
  (strict_eq name name = true ->
   getEvents name (emitter (world s'))
   = (getEvents name (emitter (world s)) ++ [mkEvent name hash cb])%list /\
   hasEvent name (emitter (world s')) = true) /\
  (strict_eq name name = false ->
   getEvents name (emitter (world s')) = [] /\
   hasEvent name (emitter (world s')) = false).
Proof.
  intros Hs hash s'. split; [now apply on_without_snapshot|].
  split; [reflexivity|]. split; [apply has_subscribed|].
  unfold s', getEvents, hasEvent, some, subscribed. cbn [world emitter push_event _events].
  split; [|split].
  - intros other Hne. rewrite filter_app. simpl.
    destruct (strict_eq name other) eqn:E.
    + apply strict_eq_true in E. congruence.
    + apply app_nil_r.
  - intros Hself. split.
    + rewrite filter_app. simpl. now rewrite Hself.
    + rewrite existsb_app. simpl. rewrite Hself. apply orb_true_r.
  - intros Hself. destruct (never_found _ (_events (emitter (world s))
                                           ++ [mkEvent name hash cb])%list Hself).
    now split.
Qed.

(** X7: where no trigger is filed, unsubscribing the identifier [on]
    has just returned undoes the subscription: provided no older
    subscription carries that identifier, the tables are those before
    [on]; only the identifier is used up. *)
Theorem on_then_off_restores name cb s :
  hasState name (emitter (world s)) = false ->
  has (guid (guids (world s))) (emitter (world s)) = false ->
  _offTriggers (emitter (world s)) = [] ->
  exists s1,
    on guid run name cb s = Ok (guid (guids (world s))) s1 /\
    has (guid (guids (world s))) (emitter (world s1)) = true /\
    off null type_error run (guid (guids (world s))) s1
    = Ok tt (mkSys (mkWorld (emitter (world s)) (S (guids (world s))) (env (world s)))
                   (fired s)).
Proof.
  intros Hs Hfresh Htr.
  exists (mkSys (subscribed guid name cb s) (fired s)).
  split; [now apply on_without_snapshot|]. split; [apply has_subscribed|].
  rewrite off_without_triggers by exact Htr.
  unfold without, subscribed. cbn [world emitter push_event _events _offTriggers
                                   _states guids env fired].
  rewrite filter_app. cbn [filter eventHash]. rewrite String.eqb_refl. cbn [negb].
  unfold has in Hfresh. rewrite (filter_negb_none _ _ Hfresh), app_nil_r.
  now rewrite emitter_eta.
Qed.

(** ** Filing a trigger, and removing it *)

(** X8: [triggerOff], [triggerOffEvent] (for a name that is not a
    symbol, under the rendering of the name) and [triggerOffAll] file
    the callback at the end of the trigger table, under the name of
    their scope and an identifier with the prefix [trigger_off_], and
    leave the subscriptions alone; [offTriggerOff] on the identifier returned takes
    the trigger out again and, provided no older trigger carries that
    identifier, leaves the tables as they were before the filing. *)
Theorem trigger_filed_then_removed (name : string) cb s :
  let hash := "trigger_off_" ++ guid (guids (world s)) in
  some (fun m => String.eqb (eventHash m) hash) (_offTriggers (emitter (world s))) = false ->
  exists s1,
    _onTriggerOff (Exn:=Exn) guid name cb s = Ok hash s1 /\
    triggers_named name (emitter (world s1))
    = (triggers_named name (emitter (world s)) ++ [mkEvent name hash cb])%list /\
    _events (emitter (world s1)) = _events (emitter (world s)) /\
    offTriggerOff (Exn:=Exn) hash s1
    = Ok tt (mkSys (mkWorld (emitter (world s)) (S (guids (world s))) (env (world s)))
                   (fired s)) /\
    (forall h, triggerOff (Exn:=Exn) guid h cb s
               = _onTriggerOff guid (getOffName h) cb s) /\
    (forall n, is_symbol n = false ->
               triggerOffEvent guid type_error n cb s
               = _onTriggerOff guid (getOffEventName (to_string n)) cb s) /\
    triggerOffAll (Exn:=Exn) guid cb s = _onTriggerOff guid getOffAllName cb s.
Proof.
  intros hash Hfresh.
  exists (mkSys (mkWorld (push_trigger (mkEvent name hash cb) (emitter (world s)))
                         (S (guids (world s))) (env (world s)))
                (fired s)).
  split; [reflexivity|]. cbn [world emitter push_trigger _events _offTriggers
                              _states guids env fired].
  split; [|split; [reflexivity|split; [|split; [reflexivity|split; [|reflexivity]]]]].
  - unfold triggers_named, push_trigger. cbn [_offTriggers]. rewrite filter_app.
    cbn [filter eventName strict_eq]. now rewrite String.eqb_refl.
  - unfold offTriggerOff, _offTriggerOff, modify.
    cbn [world emitter push_trigger _events _offTriggers _states guids env fired].
    rewrite filter_app. cbn [filter eventHash]. fold hash.
    rewrite String.eqb_refl. cbn [negb].
    rewrite (filter_negb_none _ _ Hfresh), app_nil_r.
    now rewrite emitter_eta.
  - intros n Hn. unfold triggerOffEvent. now rewrite (to_template_rendered _ Hn).
Qed.

(** ** The tables an operation leaves alone *)

Section Frames.

(** A property of the registry that the callbacks keep, and the tables
    it does not depend on. *)
Variable P : EventEmitter -> Prop.
Hypothesis run_keeps :
  forall cb d h w, P (emitter w) -> P (emitter (world_after (run cb d h w))).

Let events_blind : Prop :=
  forall em evs, P em -> P (mkEmitter evs (_offTriggers em) (_states em)).
Let triggers_blind : Prop :=
  forall em trs, P em -> P (mkEmitter (_events em) trs (_states em)).
Let states_blind : Prop :=
  forall em sts, P em -> P (mkEmitter (_events em) (_offTriggers em) sts).

Local Ltac frame_steps H :=
  repeat first
    [ apply keeps_ret | apply keeps_gets | apply keeps_fresh_guid | apply keeps_throw
    | apply keeps_call_cb; exact run_keeps
    | apply keeps_invoke; exact run_keeps
    | apply keeps_fire_triggers; exact run_keeps
    | apply keeps_emitSync; exact run_keeps
    | apply keeps_emitAsync; exact run_keeps
    | apply keeps_legacy_emitAsync; exact run_keeps
    | apply keeps_modify; intros em Hem; apply H; exact Hem
    | apply keeps_bind | apply keeps_try_catch | apply keeps_when
    | apply keeps_mapM | apply keeps_forEach
    | match goal with |- forall _, _ => intro end
    | match goal with |- keeps _ (match ?o with _ => _ end) => destruct o end ].

Lemma frame_perform op s :
  (changes_subscriptions op = true -> events_blind) ->
  (files_triggers op = true -> triggers_blind) ->
  (stores_snapshots op = true -> states_blind) ->
  P (emitter (world s)) ->
  P (emitter (world (perform null undefined guid type_error linq_same run op s))).
Proof.
  intros Hev Htr Hst.
  destruct op; cbn [perform];
    cbn [changes_subscriptions files_triggers stores_snapshots] in *;
    try specialize (Hev eq_refl); try specialize (Htr eq_refl);
    try specialize (Hst eq_refl).
  - revert s. change (keeps P (on guid run name cb)).
    unfold on. frame_steps Hev.
  - revert s. change (keeps P (off null type_error run hash)).
    unfold off, off_cascade, _offAction, _offEmit, _offEventEmit, _offAllEmit.
    frame_steps Hev.
  - revert s. change (keeps P (offEvent null type_error run name)).
    unfold offEvent, offEvent_cascade, _offEventAction, _offEmit, _offEventEmit,
      _offAllEmit. frame_steps Hev.
  - revert s. change (keeps P (offAll null type_error linq_same run)).
    unfold offAll, offAll_cascade, _offAllAction, _offEmit, _offEventEmit,
      _offAllEmit. frame_steps Hev.
  - revert s. change (keeps P (triggerOff guid hash cb : M string)).
    unfold triggerOff, _onTriggerOff. frame_steps Htr.
  - revert s. change (keeps P (triggerOffEvent guid type_error name cb : M string)).
    unfold triggerOffEvent, _onTriggerOff. frame_steps Htr.
  - revert s. change (keeps P (triggerOffAll guid cb : M string)).
    unfold triggerOffAll, _onTriggerOff. frame_steps Htr.
  - revert s. change (keeps P (offTriggerOff hash : M unit)).
    unfold offTriggerOff, _offTriggerOff. frame_steps Htr.
  - revert s. apply keeps_emitSync, run_keeps.
  - revert s. apply keeps_emitAsync, run_keeps.
  - revert s. change (keeps P (emitStateSync run name d)).
    unfold emitStateSync, set_state, removeState, push_state. frame_steps Hst.
  - revert s. change (keeps P (emitStateAsync run name d)).
    unfold emitStateAsync, set_state, removeState, push_state. frame_steps Hst.
  - revert s. change (keeps P (removeState name : M unit)).
    unfold removeState. frame_steps Hst.
  - revert s. change (keeps P (Legacy.off undefined run hash)).
    unfold Legacy.off. frame_steps Hev.
  - revert s. change (keeps P (Legacy.offEvent undefined type_error run name)).
    unfold Legacy.offEvent. frame_steps Hev.
  - revert s. change (keeps P (Legacy.offAll : M unit)).
    unfold Legacy.offAll. frame_steps Hev.
  - revert s. change (keeps P (Legacy.triggerOff guid run hash cb)).
    unfold Legacy.triggerOff, on. frame_steps Hev.
  - revert s. change (keeps P (Legacy.triggerOffEvent guid type_error run name cb)).
    unfold Legacy.triggerOffEvent, on. frame_steps Hev.
  - revert s. apply keeps_legacy_emitAsync, run_keeps.
  - revert s. change (keeps P (Legacy.emitStateAsync run name d)).
    unfold Legacy.emitStateAsync, set_state, removeState, push_state.
    frame_steps Hst.
Qed.

End Frames.

(** X9: a trigger stays filed after it has fired.  Apart from
    [triggerOff], [triggerOffEvent], [triggerOffAll] and [offTriggerOff],
    no operation of either registry writes the trigger table: when the
    callbacks leave it alone, it is after the operation what it was
    before, whether the operation returned or threw; so [off],
    [offEvent] and [offAll] remove no trigger, whatever identifier they
    are given. *)
Theorem triggers_stay_filed op s :
  (forall cb d h w,
      _offTriggers (emitter (world_after (run cb d h w))) = _offTriggers (emitter w)) ->
  files_triggers op = false ->
  _offTriggers (emitter (world (perform null undefined guid type_error linq_same run op s)))
  = _offTriggers (emitter (world s)).
Proof.
  intros Hrun Hop.
  apply (@frame_perform (fun em => _offTriggers em = _offTriggers (emitter (world s)))).
  - intros cb d h w Hw. now rewrite Hrun.
  - intros _ em evs Hem. exact Hem.
  - rewrite Hop. discriminate.
  - intros _ em sts Hem. exact Hem.
  - reflexivity.
Qed.

(** X10: a snapshot outlives the subscriptions.  Apart from
    [emitStateSync], [emitStateAsync] and [removeState], no operation of
    either registry writes the snapshot table: when the callbacks leave
    it alone, it is after the operation what it was before; so [emitSync]
    and [emitAsync] store nothing, and [offAll] leaves every snapshot in
    place. *)
Theorem snapshots_stay_stored op s :
  (forall cb d h w,
      _states (emitter (world_after (run cb d h w))) = _states (emitter w)) ->
  stores_snapshots op = false ->
  _states (emitter (world (perform null undefined guid type_error linq_same run op s)))
  = _states (emitter (world s)).
Proof.
  intros Hrun Hop.
  apply (@frame_perform (fun em => _states em = _states (emitter (world s)))).
  - intros cb d h w Hw. now rewrite Hrun.
  - intros _ em evs Hem. exact Hem.
  - intros _ em trs Hem. exact Hem.
  - rewrite Hop. discriminate.
  - reflexivity.
Qed.

(** X11: emitting, storing or removing a snapshot, and filing or
    removing a trigger (in the registry with the trigger table) neither
    add nor remove a subscription: when the callbacks leave the
    subscription table alone, it is after the operation what it was
    before. *)
Theorem subscriptions_stay op s :
  (forall cb d h w,
      _events (emitter (world_after (run cb d h w))) = _events (emitter w)) ->
  changes_subscriptions op = false ->
  _events (emitter (world (perform null undefined guid type_error linq_same run op s)))
  = _events (emitter (world s)).
Proof.
  intros Hrun Hop.
  apply (@frame_perform (fun em => _events em = _events (emitter (world s)))).
  - intros cb d h w Hw. now rewrite Hrun.
  - rewrite Hop. discriminate.
  - intros _ em trs Hem. exact Hem.
  - intros _ em sts Hem. exact Hem.
  - reflexivity.
Qed.

(** ** Looking up a snapshot *)

Lemma find_filter_other name other (sts : list (StateObject Data)) :
  strict_eq other name = false ->
  find (fun m => strict_eq (stateName m) other)
       (filter (fun m => negb (strict_eq (stateName m) name)) sts)
  = find (fun m => strict_eq (stateName m) other) sts.
Proof.
  intros Hne. induction sts as [|st sts IH]; simpl; [easy|].
  destruct (strict_eq (stateName st) name) eqn:E; simpl.
  - destruct (strict_eq (stateName st) other) eqn:E'; [|exact IH].
    apply strict_eq_true in E. rewrite strict_eq_sym, <- E, E' in Hne.
    discriminate.
  - now rewrite IH.
Qed.

Lemma find_filter_same name (sts : list (StateObject Data)) :
  find (fun m => strict_eq (stateName m) name)
       (filter (fun m => negb (strict_eq (stateName m) name)) sts)
  = None.
Proof.
  induction sts as [|st sts IH]; simpl; [easy|].
  destruct (strict_eq (stateName st) name) eqn:E; simpl; [exact IH|].
  now rewrite E.
Qed.

Lemma getState_stored name v other em :
  getState other
    (mkEmitter (_events em) (_offTriggers em)
       (filter (fun m => negb (strict_eq (stateName m) name)) (_states em)
        ++ [mkState name v])%list)
  = if strict_eq other name then Some v else getState other em.
Proof.
  unfold getState. cbn [_states]. rewrite find_append.
  destruct (strict_eq other name) eqn:E.
  - pose proof (strict_eq_right _ _ E) as Hself.
    apply strict_eq_true in E. subst other.
    rewrite find_filter_same. simpl. now rewrite Hself.
  - rewrite find_filter_other by exact E.
    destruct (find _ (_states em)); [reflexivity|].
    simpl. rewrite strict_eq_sym, E. reflexivity.
Qed.

Lemma getState_never name (em : EventEmitter) :
  strict_eq name name = false -> getState name em = None.
Proof.
  intros Hself. unfold getState.
  assert (H : forall m : StateObject Data, strict_eq (stateName m) name = false).
  { intros m. destruct (strict_eq (stateName m) name) eqn:E; [|reflexivity].
    apply strict_eq_right in E. congruence. }
  induction (_states em) as [|m l IH]; simpl; [easy|]. now rewrite H.
Qed.

Section Snapshots.

Hypothesis run_leaves_snapshots :
  forall cb d h w, _states (emitter (world_after (run cb d h w))) = _states (emitter w).

Lemma getState_after_emit {A} (m : M A) name v other s :
  (forall T, keeps (fun em => _states em = T) m) ->
  getState other
    (emitter (world (sys_after (bind (set_state name v) (fun _ => m) s))))
  = if strict_eq other name then Some v else getState other (emitter (world s)).
Proof.
  intros Hm. unfold bind. rewrite set_state_result.
  match goal with
  | |- context [m ?s1] =>
      pose proof (Hm (_states (emitter (world s1))) s1 eq_refl) as Hsame
  end.
  unfold getState at 1. rewrite Hsame.
  apply (getState_stored name v other (emitter (world s))).
Qed.

(** X12: when the callbacks leave the snapshot table alone, after
    [emitStateSync] (or [emitStateAsync], in either registry) of a name
    and a value, whether or not a subscriber threw, [getState] gives that
    value, the latest one stored, for the name the lookup finds equal
    ([===]) to the one stored under, and what it gave before for every
    other name.  So for every name but [NaN] the value stored is read back
    under the name; the snapshot stored under [NaN] is in the table, but
    [getState] of [NaN] is [undefined] after as before. *)
Theorem getState_after_emitState name v other s :
  let lookup := if strict_eq other name then Some v
                else getState other (emitter (world s)) in
  let after_sync := emitter (world (sys_after (emitStateSync run name v s))) in
  getState other after_sync = lookup /\
  getState other (emitter (world (sys_after (emitStateAsync run name v s)))) = lookup /\
  getState other (emitter (world (sys_after (Legacy.emitStateAsync run name v s))))
  = lookup /\
  (strict_eq name name = true -> getState name after_sync = Some v) /\
  (strict_eq name name = false ->
   getState name after_sync = None /\
   _states after_sync = (_states (emitter (world s)) ++ [mkState name v])%list).
Proof.
  assert (Hk : forall T cb d h w,
             _states (emitter w) = T ->
             _states (emitter (world_after (run cb d h w))) = T)
    by (intros T cb d h w <-; apply run_leaves_snapshots).
  assert (Hsync : forall n,
             getState n (emitter (world (sys_after (emitStateSync run name v s))))
             = if strict_eq n name then Some v else getState n (emitter (world s)))
    by (intros n; apply getState_after_emit; intros T; apply keeps_emitSync, Hk).
  cbv zeta. split; [apply Hsync|]. split; [|split; [|split]].
  - apply getState_after_emit. intros T. apply keeps_emitAsync, Hk.
  - apply getState_after_emit. intros T. apply keeps_legacy_emitAsync, Hk.
  - intros Hself. now rewrite Hsync, Hself.
  - intros Hself. split; [now apply getState_never|].
    assert (Hnone : some (fun m => strict_eq (stateName m) name)
                         (_states (emitter (world s))) = false).
    { unfold some. induction (_states (emitter (world s))) as [|m l IH]; simpl; [easy|].
      destruct (strict_eq (stateName m) name) eqn:E; simpl; [|exact IH].
      apply strict_eq_right in E. congruence. }
    unfold emitStateSync, bind. rewrite set_state_result.
    match goal with
    | |- context [emitSync run name v ?s1] =>
        assert (Hkeep : keeps (fun em => _states em = _states (emitter (world s1)))
                          (emitSync run name v))
          by apply keeps_emitSync, Hk;
        rewrite (Hkeep s1 eq_refl)
    end.
    cbn [world emitter _states]. now rewrite (filter_negb_none _ _ Hnone).
Qed.

End Snapshots.

Lemma getState_removed name other em :
  getState other
    (mkEmitter (_events em) (_offTriggers em)
       (filter (fun m => negb (strict_eq (stateName m) name)) (_states em)))
  = if strict_eq other name then None else getState other em.
Proof.
  unfold getState. cbn [_states].
  destruct (strict_eq other name) eqn:E.
  - apply strict_eq_true in E. subst other. now rewrite find_filter_same.
  - now rewrite find_filter_other by exact E.
Qed.

(** X13: [removeState] takes the snapshot of the name out and touches
    nothing else: afterwards [hasState] is false and [getState] gives
    nothing for the name and what it gave before for every other name,
    and a subscription then made to the name is replayed nothing. *)
Theorem removeState_forgets name other cb s :
  exists s',
    removeState (Exn:=Exn) name s = Ok tt s' /\
    hasState name (emitter (world s')) = false /\
    getState other (emitter (world s'))
    = (if strict_eq other name then None else getState other (emitter (world s))) /\
    _events (emitter (world s')) = _events (emitter (world s)) /\
    _offTriggers (emitter (world s')) = _offTriggers (emitter (world s)) /\
    on guid run name cb s'
    = Ok (guid (guids (world s))) (mkSys (subscribed guid name cb s') (fired s)).
Proof.
  eexists. split; [reflexivity|].
  assert (Hs : hasState name
                 (mkEmitter (_events (emitter (world s)))
                    (_offTriggers (emitter (world s)))
                    (filter (fun m => negb (strict_eq (stateName m) name))
                            (_states (emitter (world s))))) = false)
    by apply existsb_filter_negb.
  cbn [world emitter]. split; [exact Hs|]. split; [apply getState_removed|].
  split; [reflexivity|]. split; [reflexivity|].
  now rewrite on_without_snapshot.
Qed.

(** ** Unsubscribing in the earlier registry *)

(** X14: [off] of the earlier registry, for a registered identifier and
    when none of the callbacks it invokes throws: the subscription is
    removed; the subscribers of [off_<identifier>] are handed
    [undefined]; then, if the subscription's name has no subscription at
    that point, the subscribers of [off_event_<name>] are, the name
    rendered by [toString], except when the name is falsy, which the
    test takes for no name: the empty string, the number [0] and
    [NaN]. *)
Theorem legacy_off_cascade hash o s :
  hd_error (filter (fun m => String.eqb (eventHash m) hash) (_events (emitter (world s))))
  = Some o ->
  legacy_cascade_quiet undefined run hash o s ->
  Legacy.off undefined run hash s = Ok tt (legacy_cascade undefined run hash o s) /\
  has hash (emitter (world (without hash s))) = false /\
  (Legacy.truthy (eventName o) = false <->
   eventName o = NameString "" \/ eventName o = NameNumber (Num "0") \/
   eventName o = NameNumber NaN) /\
  (Legacy.truthy (eventName o) = false ->
   legacy_cascade undefined run hash o s
   = deliver_all run undefined
       (getEvents (NameString ("off_" ++ hash)) (emitter (world (without hash s))))
       (without hash s)).
Proof.
  intros Hfirst (Hq1 & Hq2). split; [|split; [|split]].
  - unfold Legacy.off, bind, gets. rewrite Hfirst. cbn [option_map].
    change (modify _ s) with (Ok (Exn:=Exn) tt (without hash s)).
    cbv iota beta.
    rewrite (emitSync_quiet (NameString ("off_" ++ hash)) undefined (without hash s) Hq1).
    unfold legacy_cascade. cbv zeta.
    fold (no_subscription (eventName o)
            (deliver_all run undefined
               (getEvents ("off_" ++ hash) (emitter (world (without hash s))))
               (without hash s))).
    fold (legacy_drained o
            (deliver_all run undefined
               (getEvents ("off_" ++ hash) (emitter (world (without hash s))))
               (without hash s))) in *.
    destruct (legacy_drained o _); cbn [when].
    + now rewrite (emitSync_quiet _ undefined _ (Hq2 eq_refl)).
    + reflexivity.
  - apply has_without.
  - destruct (eventName o) as [x|[|x]|i x]; cbn [Legacy.truthy]; split.
    + intros H. apply Bool.negb_false_iff, String.eqb_eq in H. left. now subst x.
    + intros [H|[H|H]]; try discriminate H. injection H as ->. reflexivity.
    + intros _. now right; right.
    + reflexivity.
    + intros H. apply Bool.negb_false_iff, String.eqb_eq in H. right; left. now subst x.
    + intros [H|[H|H]]; try discriminate H. injection H as ->. reflexivity.
    + discriminate.
    + intros [H|[H|H]]; discriminate H.
  - intros Hname. unfold legacy_cascade, legacy_drained. cbv zeta.
    now rewrite Hname.
Qed.

(** ** What every operation keeps of the world *)

Section KeepsWorld.

Variable Q : World Data Callback Env -> Prop.
Hypothesis run_keeps : forall cb d h w, Q w -> Q (world_after (run cb d h w)).

Lemma world_ret {A} (a : A) : keeps_world Q (ret a : M A).
Proof. intros s H. exact H. Qed.

Lemma world_bind {A B} (m : M A) (k : A -> M B) :
  keeps_world Q m -> (forall a, keeps_world Q (k a)) -> keeps_world Q (bind m k).
Proof.
  intros Hm Hk s H. unfold bind.
  specialize (Hm s H). destruct (m s) as [a s'|e s']; simpl in *.
  - now apply Hk.
  - exact Hm.
Qed.

Lemma world_try_catch {A} (m : M A) (handler : Exn -> M A) :
  keeps_world Q m -> (forall e, keeps_world Q (handler e)) ->
  keeps_world Q (try_catch m handler).
Proof.
  intros Hm Hh s H. unfold try_catch.
  specialize (Hm s H). destruct (m s) as [a s'|e s']; simpl in *.
  - exact Hm.
  - now apply Hh.
Qed.

Lemma world_gets {A} (f : EventEmitter -> A) : keeps_world Q (gets f : M A).
Proof. intros s H. exact H. Qed.

Lemma world_modify (f : EventEmitter -> EventEmitter) :
  (forall w, Q w -> Q (mkWorld (f (emitter w)) (guids w) (env w))) ->
  keeps_world Q (modify f : M unit).
Proof. intros Hf s H. simpl. now apply Hf. Qed.

Lemma world_throw {A} (e : Exn) : keeps_world Q (throw e : M A).
Proof. intros s H. exact H. Qed.

Lemma world_when (b : bool) (m : M unit) :
  keeps_world Q m -> keeps_world Q (when b m).
Proof. destruct b; simpl; [easy|]. intros _. apply world_ret. Qed.

Lemma world_mapM {A B} (f : A -> M B) (xs : list A) :
  (forall x, keeps_world Q (f x)) -> keeps_world Q (mapM f xs).
Proof.
  intros Hf. induction xs as [|x xs IH]; simpl.
  - apply world_ret.
  - apply world_bind; [apply Hf|]. intros y.
    apply world_bind; [exact IH|]. intros ys. apply world_ret.
Qed.

Lemma world_forEach {A} (f : A -> M unit) (xs : list A) :
  (forall x, keeps_world Q (f x)) -> keeps_world Q (forEach f xs).
Proof.
  intros Hf. induction xs as [|x xs IH]; simpl.
  - apply world_ret.
  - apply world_bind; [apply Hf|]. intros _. exact IH.
Qed.

Lemma world_call_cb cb d h : keeps_world Q (call_cb run cb d h).
Proof.
  intros s H. unfold call_cb.
  pose proof (run_keeps cb d h H) as Hk.
  destruct (run cb d h (world s)); exact Hk.
Qed.

End KeepsWorld.

(** ** Identifiers are never shared *)

Lemma issued_fewer_events (w : World Data Callback Env) (p : EventObject -> bool) :
  identifiers_issued guid w ->
  identifiers_issued guid
    (mkWorld (mkEmitter (filter p (_events (emitter w)))
                        (_offTriggers (emitter w)) (_states (emitter w)))
             (guids w) (env w)).
Proof.
  intros (H1 & H2 & H3 & H4). repeat split; cbn [emitter _events _offTriggers guids].
  - intros o Hin. apply filter_In in Hin. now apply H1.
  - now apply NoDup_map_filter.
  - exact H3.
  - exact H4.
Qed.

Lemma issued_no_events (w : World Data Callback Env) :
  identifiers_issued guid w ->
  identifiers_issued guid
    (mkWorld (mkEmitter [] (_offTriggers (emitter w)) (_states (emitter w)))
             (guids w) (env w)).
Proof.
  intros (H1 & H2 & H3 & H4). repeat split; cbn [emitter _events _offTriggers guids].
  - intros o [].
  - constructor.
  - exact H3.
  - exact H4.
Qed.

Lemma issued_fewer_triggers (w : World Data Callback Env) (p : EventObject -> bool) :
  identifiers_issued guid w ->
  identifiers_issued guid
    (mkWorld (mkEmitter (_events (emitter w))
                        (filter p (_offTriggers (emitter w))) (_states (emitter w)))
             (guids w) (env w)).
Proof.
  intros (H1 & H2 & H3 & H4). repeat split; cbn [emitter _events _offTriggers guids].
  - exact H1.
  - exact H2.
  - intros o Hin. apply filter_In in Hin. now apply H3.
  - now apply NoDup_map_filter.
Qed.

Lemma issued_other_states (w : World Data Callback Env) (sts : list (StateObject Data)) :
  identifiers_issued guid w ->
  identifiers_issued guid
    (mkWorld (mkEmitter (_events (emitter w)) (_offTriggers (emitter w)) sts)
             (guids w) (env w)).
Proof. intros H. exact H. Qed.

Section Identifiers.

Hypothesis guid_injective : forall i j, guid i = guid j -> i = j.

Lemma issued_subscribed name cb s :
  identifiers_issued guid (world s) ->
  identifiers_issued guid (subscribed guid name cb s).
Proof.
  intros (H1 & H2 & H3 & H4).
  repeat split; cbn [subscribed emitter push_event _events _offTriggers guids].
  - intros o Hin. apply in_app_or in Hin. destruct Hin as [Hin|[<-|[]]].
    + destruct (H1 o Hin) as (i & Hi & E). exists i. split; [lia|exact E].
    + exists (guids (world s)). split; [lia|reflexivity].
  - rewrite map_app. apply NoDup_snoc; [exact H2|]. simpl.
    intros Hin. apply in_map_iff in Hin. destruct Hin as (o & E & Hin).
    destruct (H1 o Hin) as (i & Hi & E'). rewrite E' in E.
    apply guid_injective in E. lia.
  - intros o Hin. destruct (H3 o Hin) as (i & Hi & E). exists i. split; [lia|exact E].
  - exact H4.
Qed.

Lemma issued_trigger_filed name cb (w : World Data Callback Env) :
  identifiers_issued guid w ->
  identifiers_issued guid
    (mkWorld (push_trigger (mkEvent name ("trigger_off_" ++ guid (guids w)) cb) (emitter w))
             (S (guids w)) (env w)).
Proof.
  intros (H1 & H2 & H3 & H4).
  repeat split; cbn [emitter push_trigger _events _offTriggers guids].
  - intros o Hin. destruct (H1 o Hin) as (i & Hi & E). exists i. split; [lia|exact E].
  - exact H2.
  - intros o Hin. apply in_app_or in Hin. destruct Hin as [Hin|[<-|[]]].
    + destruct (H3 o Hin) as (i & Hi & E). exists i. split; [lia|exact E].
    + exists (guids w). split; [lia|reflexivity].
  - rewrite map_app. apply NoDup_snoc; [exact H4|]. simpl.
    intros Hin. apply in_map_iff in Hin. destruct Hin as (o & E & Hin).
    destruct (H3 o Hin) as (i & Hi & E'). rewrite E' in E.
    injection E as E. apply guid_injective in E. lia.
Qed.

Hypothesis run_keeps :
  forall cb d h w,
    identifiers_issued guid w -> identifiers_issued guid (world_after (run cb d h w)).

Local Ltac world_steps :=
  repeat first
    [ apply world_ret | apply world_gets | apply world_throw
    | apply world_call_cb; exact run_keeps
    | apply world_modify; intros w Hw;
      first [ apply issued_fewer_events; exact Hw
            | apply issued_no_events; exact Hw
            | apply issued_fewer_triggers; exact Hw
            | exact Hw ]
    | apply world_bind | apply world_try_catch | apply world_when
    | apply world_mapM | apply world_forEach
    | match goal with |- forall _, _ => intro end
    | match goal with |- keeps_world _ (match ?o with _ => _ end) => destruct o end ].

Lemma issued_on name cb : keeps_world (identifiers_issued guid) (on guid run name cb).
Proof.
  intros s H. pose proof (issued_subscribed name cb s H) as H1.
  unfold on. unfold bind at 1. unfold fresh_guid at 1. cbv iota beta.
  unfold bind at 1. unfold modify at 1. cbv iota beta.
  cbn [world emitter guids env fired].
  change (mkWorld (push_event (mkEvent name (guid (guids (world s))) cb)
                              (emitter (world s)))
                  (S (guids (world s))) (env (world s)))
    with (subscribed guid name cb s).
  change (identifiers_issued guid (subscribed guid name cb s))
    with (identifiers_issued guid
            (world (mkSys (subscribed guid name cb s) (fired s)))) in H1.
  revert H1. generalize (mkSys (subscribed guid name cb s) (fired s)).
  match goal with
  | |- forall s1, _ -> identifiers_issued guid (world (sys_after (?m s1))) =>
      change (keeps_world (identifiers_issued guid) m)
  end.
  world_steps.
Qed.

Lemma issued_onTriggerOff (name : string) cb :
  keeps_world (identifiers_issued guid) (_onTriggerOff guid name cb : M string).
Proof. intros s H. exact (issued_trigger_filed name cb H). Qed.

Lemma issued_perform op s :
  identifiers_issued guid (world s) ->
  identifiers_issued guid (world (perform null undefined guid type_error linq_same run op s)).
Proof.
  revert s. destruct op; cbn [perform].
  - apply issued_on.
  - change (keeps_world (identifiers_issued guid) (off null type_error run hash)).
    unfold off, off_cascade, _offAction, _offEmit, _offEventEmit, _offAllEmit,
      fire_triggers, invoke. world_steps.
  - change (keeps_world (identifiers_issued guid) (offEvent null type_error run name)).
    unfold offEvent, offEvent_cascade, _offEventAction, _offEmit, _offEventEmit,
      _offAllEmit, fire_triggers, invoke. world_steps.
  - change (keeps_world (identifiers_issued guid) (offAll null type_error linq_same run)).
    unfold offAll, offAll_cascade, _offAllAction, _offEmit, _offEventEmit,
      _offAllEmit, fire_triggers, invoke. world_steps.
  - apply issued_onTriggerOff.
  - change (keeps_world (identifiers_issued guid)
              (triggerOffEvent guid type_error name cb : M string)).
    unfold triggerOffEvent. destruct (to_template _);
      [apply issued_onTriggerOff|apply world_throw].
  - apply issued_onTriggerOff.
  - change (keeps_world (identifiers_issued guid) (offTriggerOff hash : M unit)).
    unfold offTriggerOff, _offTriggerOff. world_steps.
  - change (keeps_world (identifiers_issued guid) (emitSync run name d)).
    unfold emitSync, invoke. world_steps.
  - change (keeps_world (identifiers_issued guid) (emitAsync run name d)).
    unfold emitAsync, async_invoke, invoke. world_steps.
  - change (keeps_world (identifiers_issued guid) (emitStateSync run name d)).
    unfold emitStateSync, set_state, removeState, push_state, emitSync, invoke.
    world_steps.
  - change (keeps_world (identifiers_issued guid) (emitStateAsync run name d)).
    unfold emitStateAsync, set_state, removeState, push_state, emitAsync,
      async_invoke, invoke. world_steps.
  - change (keeps_world (identifiers_issued guid) (removeState name : M unit)).
    unfold removeState. world_steps.
  - change (keeps_world (identifiers_issued guid) (Legacy.off undefined run hash)).
    unfold Legacy.off, emitSync, invoke. world_steps.
  - change (keeps_world (identifiers_issued guid) (Legacy.offEvent undefined type_error run name)).
    unfold Legacy.offEvent, emitSync, invoke. world_steps.
  - change (keeps_world (identifiers_issued guid) (Legacy.offAll : M unit)).
    unfold Legacy.offAll. world_steps.
  - apply issued_on.
  - change (keeps_world (identifiers_issued guid)
              (Legacy.triggerOffEvent guid type_error run name cb)).
    unfold Legacy.triggerOffEvent. destruct (to_template _);
      [apply issued_on|apply world_throw].
  - change (keeps_world (identifiers_issued guid) (Legacy.emitAsync run name d)).
    unfold Legacy.emitAsync, invoke. world_steps.
  - change (keeps_world (identifiers_issued guid) (Legacy.emitStateAsync run name d)).
    unfold Legacy.emitStateAsync, Legacy.emitAsync, set_state, removeState,
      push_state, invoke. world_steps.
Qed.

Lemma issued_next_unused (w : World Data Callback Env) :
  identifiers_issued guid w ->
  has (guid (guids w)) (emitter w) = false /\
  some (fun m => String.eqb (eventHash m) ("trigger_off_" ++ guid (guids w)))
       (_offTriggers (emitter w)) = false.
Proof.
  intros (H1 & _ & H3 & _). unfold has, some. split.
  - destruct (existsb _ _) eqn:E; [|reflexivity]. exfalso.
    apply existsb_exists in E. destruct E as (o & Hin & E).
    apply String.eqb_eq in E. destruct (H1 o Hin) as (i & Hi & E').
    rewrite E' in E. apply guid_injective in E. lia.
  - destruct (existsb _ _) eqn:E; [|reflexivity]. exfalso.
    apply existsb_exists in E. destruct E as (o & Hin & E).
    apply String.eqb_eq in E. destruct (H3 o Hin) as (i & Hi & E').
    rewrite E' in E. injection E as E. apply guid_injective in E. lia.
Qed.

(** X15: when [guid] never hands out the same identifier twice and the
    callbacks reach the tables only through the operations, in every
    state either registry reaches from its construction no two
    subscriptions share an identifier and no two triggers do, and the
    identifier the next [on] (or the next filing of a trigger) will
    return is carried by no subscription (no trigger) yet. *)
Theorem identifiers_never_shared ops g e :
  let w := world (perform_all null undefined guid type_error linq_same run ops (fresh_sys Data Callback g e)) in
  NoDup (map (@eventHash Callback) (_events (emitter w))) /\
  NoDup (map (@eventHash Callback) (_offTriggers (emitter w))) /\
  has (guid (guids w)) (emitter w) = false /\
  some (fun m => String.eqb (eventHash m) ("trigger_off_" ++ guid (guids w)))
       (_offTriggers (emitter w)) = false.
Proof.
  cbv zeta.
  assert (H : identifiers_issued guid
                (world (perform_all null undefined guid type_error linq_same run ops
                          (fresh_sys Data Callback g e)))).
  { assert (H0 : identifiers_issued guid (world (fresh_sys Data Callback g e))).
    { repeat split; simpl; try constructor; intros o []. }
    revert H0. generalize (fresh_sys Data Callback g e).
    induction ops as [|op ops IH]; intros s H0; simpl; [exact H0|].
    apply IH. now apply issued_perform. }
  destruct (issued_next_unused H) as [Hn1 Hn2].
  destruct H as (_ & H2 & _ & H4). auto.
Qed.

End Identifiers.

(** ** The names of the three scopes of triggers *)

Lemma grows_ret {A} (a : A) : grows_log (ret a : M A).
Proof. intros s. exists []. now rewrite app_nil_r. Qed.

Lemma grows_bind {A B} (m : M A) (k : A -> M B) :
  grows_log m -> (forall a, grows_log (k a)) -> grows_log (bind m k).
Proof.
  intros Hm Hk s. unfold bind. destruct (Hm s) as [r1 H1].
  destruct (m s) as [a s'|e s']; simpl in *.
  - destruct (Hk a s') as [r2 H2]. exists (r1 ++ r2)%list.
    now rewrite H2, H1, app_assoc.
  - now exists r1.
Qed.

Lemma grows_try_catch {A} (m : M A) (handler : Exn -> M A) :
  grows_log m -> (forall e, grows_log (handler e)) -> grows_log (try_catch m handler).
Proof.
  intros Hm Hh s. unfold try_catch. destruct (Hm s) as [r1 H1].
  destruct (m s) as [a s'|e s']; simpl in *.
  - now exists r1.
  - destruct (Hh e s') as [r2 H2]. exists (r1 ++ r2)%list.
    now rewrite H2, H1, app_assoc.
Qed.

Lemma grows_gets {A} (f : EventEmitter -> A) : grows_log (gets f : M A).
Proof. intros s. exists []. now rewrite app_nil_r. Qed.

Lemma grows_throw {A} (e : Exn) : grows_log (throw e : M A).
Proof. intros s. exists []. now rewrite app_nil_r. Qed.

Lemma grows_when (b : bool) (m : M unit) : grows_log m -> grows_log (when b m).
Proof. destruct b; simpl; [easy|]. intros _. apply grows_ret. Qed.

Lemma grows_mapM {A B} (f : A -> M B) (xs : list A) :
  (forall x, grows_log (f x)) -> grows_log (mapM f xs).
Proof.
  intros Hf. induction xs as [|x xs IH]; simpl.
  - apply grows_ret.
  - apply grows_bind; [apply Hf|]. intros y.
    apply grows_bind; [exact IH|]. intros ys. apply grows_ret.
Qed.

Lemma grows_fire_triggers (name : string) : grows_log (fire_triggers null run name).
Proof.
  apply grows_bind; [apply grows_gets|]. intros hooks.
  apply grows_bind; [|intros; apply grows_ret].
  apply grows_mapM. intros o s. exists [firing_of null o]. apply fired_invoke.
Qed.

(** What [off] goes on to do once the triggers filed under the name
    [getOffName hash] have fired. *)
Lemma off_fires_name_of_identifier hash s :
  quiet_named null run (getOffName hash) (without hash s) ->
  exists rest,
    fired (sys_after (off null type_error run hash s))
    = (fired s ++ firings_named null (getOffName hash) (without hash s) ++ rest)%list.
Proof.
  intros Hq. unfold off, bind at 1 2, gets at 1.
  change (_offAction hash s) with (Ok (Exn:=Exn) tt (without hash s)).
  cbv iota beta. unfold try_catch, off_cascade, bind at 1, _offEmit.
  rewrite fire_triggers_ok by exact Hq.
  match goal with
  | |- context [match ?m ?s1 with Ok _ _ => _ | Raise _ _ => _ end] =>
      assert (Hg : grows_log m)
  end.
  { apply grows_bind; [apply grows_gets|]. intros remaining.
    apply grows_bind;
      [apply grows_when; unfold _offEventEmit;
       destruct (to_template _); [apply grows_fire_triggers|apply grows_throw]|].
    intros _. apply grows_bind; [apply grows_gets|]. intros all.
    apply grows_when. unfold _offAllEmit. apply grows_fire_triggers. }
  destruct (Hg (fire_named null run (getOffName hash) (without hash s))) as [rest Hr].
  exists rest. rewrite fired_fire_named in Hr.
  match goal with
  | |- context [match ?r with Ok _ _ => _ | Raise _ _ => _ end] =>
      destruct r as [[] s'|e s']
  end; simpl in *; now rewrite Hr, <- app_assoc.
Qed.

(** X22: the names under which the triggers of the three scopes are
    filed share one namespace: those of the event name [n] are filed
    under the name of the identifier [event_n], those of the whole
    registry under the name of the identifier [all].  So [off] given the
    string [event_n] fires the triggers of the name [n] (when they do not
    throw) although [n] may still have subscribers, and [off] given
    [all] fires the triggers of the whole registry although
    subscriptions may remain. *)
Theorem off_fires_overlapping_scopes (name : string) s :
  getOffName ("event_" ++ name) = getOffEventName name /\
  getOffName "all" = getOffAllName /\
  (quiet_named null run (getOffEventName name) (without ("event_" ++ name) s) ->
   exists rest,
     fired (sys_after (off null type_error run ("event_" ++ name) s))
     = (fired s
        ++ firings_named null (getOffEventName name) (without ("event_" ++ name) s)
        ++ rest)%list) /\
  (quiet_named null run getOffAllName (without "all" s) ->
   exists rest,
     fired (sys_after (off null type_error run "all" s))
     = (fired s ++ firings_named null getOffAllName (without "all" s) ++ rest)%list).
Proof.
  split; [reflexivity|]. split; [reflexivity|]. split.
  - intros Hq. exact (off_fires_name_of_identifier ("event_" ++ name) s Hq).
  - intros Hq. exact (off_fires_name_of_identifier "all" s Hq).
Qed.

End DeliveryFacts.

(** * Registries made from a registry *)

Section DerivedFacts.

Variable Data : Type.
Variable null : Data.
Variables Exn Callback Env : Type.
Variable guid : nat -> string.
Variable type_error : Exn.
Variable run : Callback -> Data -> string -> World Data Callback Env
               -> CbResult Data Exn Callback Env.

Import Derived.

Local Abbreviation Registry := (Registry Data Callback).
Local Abbreviation Store := (Store Callback).
Local Abbreviation Filter := (Filter Callback).

Implicit Types (st : Store) (a b : Address) (o : EventObject Callback) (this : Registry).

Lemma array_at_allocated st (l : list (EventObject Callback)) :
  array_at (snd (allocate st l)) (fst (allocate st l)) = l.
Proof.
  unfold allocate, array_at. cbn [fst snd].
  rewrite app_nth2 by lia. now rewrite Nat.sub_diag.
Qed.

Lemma array_at_kept st (l : list (EventObject Callback)) a :
  a < List.length st -> array_at (snd (allocate st l)) a = array_at st a.
Proof. intros H. unfold allocate, array_at. cbn [snd]. now apply app_nth1. Qed.

Lemma array_at_push_same st a o :
  a < List.length st -> array_at (push_at st a o) a = (array_at st a ++ [o])%list.
Proof.
  revert a. induction st as [|l st IH]; intros [|a] H; simpl in *; try lia.
  - reflexivity.
  - apply IH. lia.
Qed.

Lemma array_at_push_other st a b o :
  a <> b -> array_at (push_at st a o) b = array_at st b.
Proof.
  revert a b. induction st as [|l st IH]; intros [|a] [|b] H; simpl; try easy.
  apply IH. congruence.
Qed.

Lemma length_push_at st a o : List.length (push_at st a o) = List.length st.
Proof.
  revert a. induction st as [|l st IH]; intros [|a]; simpl; try easy.
  now rewrite IH.
Qed.

(** X23: [createNewEmitter] makes a registry without snapshots and
    without triggers, whatever the original holds: [hasState] is false
    and [getState] gives nothing on it, a subscription made on it is
    replayed nothing, and unsubscribing on it fires no trigger.  Its
    subscription array is the array the filter returned, or a new array
    of the one subscription the filter returned.  Without a filter it is
    a new array with the subscriptions of the original: a subscription
    one of the two registries pushes later is not in the other's.  With
    a filter that returns the array it was given, the two registries
    share the array: what [on] pushes on the original (the push is
    [push_event] on the registry as [on] reads it) is in the made
    registry as well. *)
Theorem derived_registry_starts_clean (filter : option Filter) this st
        name cb hash g (e : Env) (log : list (Firing Data Callback)) o :
  events_at this < List.length st ->
  let d := fst (createNewEmitter filter this st) in
  let st' := snd (createNewEmitter filter this st) in
  let derived := mkSys (mkWorld (emitter_of st' d) g e) log in
  (states d = [] /\ triggers d = [] /\
   hasState name (emitter_of st' d) = false /\
   getState name (emitter_of st' d) = None /\
   on guid run name cb derived
   = Ok (guid g) (mkSys (subscribed guid name cb derived) log) /\
   off null type_error run hash derived = Ok tt (without hash derived)) /\
  (forall f a st1,
      filter = Some f -> f (events_at this) st = (ArrayAt a, st1) ->
      events_at d = a /\ st' = st1) /\
  (forall f x st1,
      filter = Some f -> f (events_at this) st = (OneEvent x, st1) ->
      events_at d = List.length st1 /\ array_at st' (events_at d) = [x]) /\
  (filter = None ->
   events_at d = List.length st /\
   array_at st' (events_at d) = array_at st (events_at this) /\
   array_at st' (events_at this) = array_at st (events_at this) /\
   array_at (push_at st' (events_at this) o) (events_at d)
   = array_at st (events_at this) /\
   array_at (push_at st' (events_at d) o) (events_at this)
   = array_at st (events_at this)) /\
  (filter = Some identity_filter ->
   events_at d = events_at this /\ st' = st /\
   array_at (push_at st (events_at this) o) (events_at d)
   = (array_at st (events_at this) ++ [o])%list) /\
  emitter_of (push_at st (events_at this) o) this = push_event o (emitter_of st this).
Proof.
  intros Hthis d st' derived.
  assert (Hclean : states d = [] /\ triggers d = []).
  { unfold d, createNewEmitter.
    destruct filter as [f|].
    - destruct (f (events_at this) st) as [[x|a] st1]; now split.
    - now split. }
  destruct Hclean as [Hs Ht].
  split; [|split; [|split; [|split; [|split]]]].
  - split; [exact Hs|]. split; [exact Ht|].
    assert (Hno : hasState name (emitter_of st' d) = false).
    { unfold hasState, some, emitter_of. cbn [_states]. now rewrite Hs. }
    split; [exact Hno|]. split.
    + unfold getState, emitter_of. cbn [_states]. now rewrite Hs.
    + split.
      * now rewrite on_without_snapshot.
      * rewrite off_without_triggers; [reflexivity|].
        unfold derived, emitter_of. cbn [world emitter _offTriggers]. exact Ht.
  - intros f a st1 -> Hf. unfold d, st', createNewEmitter. rewrite Hf. now split.
  - intros f x st1 -> Hf. unfold d, st', createNewEmitter. rewrite Hf.
    cbn [allocate fst snd events_at]. split; [reflexivity|].
    unfold array_at. rewrite app_nth2 by lia. now rewrite Nat.sub_diag.
  - intros ->. unfold d, st', createNewEmitter.
    cbn [allocate fst snd events_at].
    assert (Hne : events_at this <> List.length st) by lia.
    assert (Hnew : array_at (st ++ [array_at st (events_at this)])%list (List.length st)
                   = array_at st (events_at this)).
    { unfold array_at. rewrite app_nth2 by lia. now rewrite Nat.sub_diag. }
    assert (Hold : array_at (st ++ [array_at st (events_at this)])%list (events_at this)
                   = array_at st (events_at this)).
    { unfold array_at. now apply app_nth1. }
    split; [reflexivity|]. split; [exact Hnew|]. split; [exact Hold|]. split.
    + now rewrite array_at_push_other by exact Hne.
    + rewrite array_at_push_other; [exact Hold|congruence].
  - intros ->. unfold d, st', createNewEmitter, identity_filter.
    cbn [fst snd events_at]. split; [reflexivity|]. split; [reflexivity|].
    now apply array_at_push_same.
  - unfold emitter_of, push_event. cbn [_events _offTriggers _states].
    now rewrite array_at_push_same by exact Hthis.
Qed.

End DerivedFacts.

(** * Further properties of the coordinator *)

Section CallerFacts.

Variable Value : Type.
Variable type_error : Value.
Variable Producer : Type.
Variable guid : nat -> string.
Variable trigger_run :
  CacheEmitter.Listener -> CacheEmitter.Payload Value -> string
  -> World (CacheEmitter.Payload Value) CacheEmitter.Listener (CacheEmitter.Promises Value)
  -> CbResult (CacheEmitter.Payload Value) Value CacheEmitter.Listener
              (CacheEmitter.Promises Value).
Hypothesis guid_injective : forall i j, guid i = guid j -> i = j.

Import CacheEmitter.

Local Abbreviation Coordinator := (Coordinator Value Producer).
Local Abbreviation call := (call type_error guid trigger_run).
Local Abbreviation step := (step type_error guid trigger_run).
Local Abbreviation run_actions := (run_actions type_error guid trigger_run).

Implicit Types (c : Coordinator) (v : Value) (k : string).

(** What the arrival of a result leaves of the registry: the listeners
    of the key answered and gone, the others in place. *)
Lemma settle_emitter c i t o :
  coordinated guid c ->
  nth_error (in_flight c) i = Some t ->
  _emitter (step c (Settle Producer i o))
  = mkWorld
      (mkEmitter
         (filter (fun m => negb (strict_eq (eventName m) (task_key t)))
                 (_events (emitter (_emitter c))))
         (_offTriggers (emitter (_emitter c))) (_states (emitter (_emitter c))))
      (guids (_emitter c))
      (env (_emitter c)
       ++ map (fun m => (caller_of m, Resolved (outcome_value o)))
              (getEvents (task_key t) (emitter (_emitter c))))%list.
Proof.
  intros Hc Hi. unfold CacheEmitter.step. rewrite Hi. cbn [_emitter].
  rewrite settle_world by exact (no_triggers Hc).
  unfold answered, getEvents.
  now rewrite (answered_events (task_key t) _ (hashes_distinct Hc)).
Qed.

Lemma reached_coordinated (actions : list (Action Value Producer)) :
  coordinated guid (run_actions actions).
Proof. now apply coordinated_run. Qed.

(** X16: while the coordinator is used through [call] only (no
    [subscribe], whose consumers share the registry and stay under their
    key), once the result of the producer in flight for a key has
    arrived, the key is idle again: no listener is left under it, no
    producer for it is queued or in flight, and the next [call] under the
    key, the only one waiting, queues its own producer. *)
Theorem delivery_frees_key (actions : list (Action Value Producer)) i t o (P : Producer) :
  let c := run_actions actions in
  nth_error (in_flight c) i = Some t ->
  let c' := step c (Settle Producer i o) in
  hasEvent (task_key t) (emitter (_emitter c')) = false /\
  count_key (task_key t) (scheduled c') + count_key (task_key t) (in_flight c') = 0 /\
  scheduled (snd (call (task_key t) P c'))
  = (scheduled c' ++ [mkTask (task_key t) P])%list /\
  waiting_on (task_key t) (snd (call (task_key t) P c')) = [callers c'].
Proof.
  intros c Hi c'. pose proof (reached_coordinated actions) as Hc. fold c in Hc.
  assert (Hc' : coordinated guid c')
    by (apply coordinated_step; [exact guid_injective|exact Hc]).
  assert (Hidle : hasEvent (task_key t) (emitter (_emitter c')) = false).
  { unfold c'. rewrite (settle_emitter i o Hc Hi).
    apply existsb_filter_negb. }
  split; [exact Hidle|]. split.
  - pose proof (one_active Hc' (task_key t)) as H. now rewrite Hidle in H.
  - rewrite call_without_snapshot by exact (no_states Hc').
    cbn [snd scheduled]. rewrite Hidle. split; [reflexivity|].
    unfold waiting_on, getEvents. cbn [_emitter subscribed emitter world push_event
                                        _events].
    rewrite filter_app.
    rewrite (some_false_filter _ _ Hidle).
    cbn [filter eventName strict_eq]. now rewrite String.eqb_refl.
Qed.

(** X17: the arrival of a result for one key leaves the callers of the
    other keys waiting: their listeners stay subscribed, in order, and
    their promises stay pending. *)
Theorem delivery_spares_other_keys (actions : list (Action Value Producer)) i t o k :
  let c := run_actions actions in
  nth_error (in_flight c) i = Some t ->
  k <> task_key t ->
  let c' := step c (Settle Producer i o) in
  waiting_on k c' = waiting_on k c /\
  forall p, In p (waiting_on k c') -> promise_state p (env (_emitter c')) = None.
Proof.
  intros c Hi Hk c'. pose proof (reached_coordinated actions) as Hc. fold c in Hc.
  assert (Hc' : coordinated guid c')
    by (apply coordinated_step; [exact guid_injective|exact Hc]).
  split.
  - unfold waiting_on, getEvents, c'. rewrite (settle_emitter i o Hc Hi).
    cbn [emitter _events]. rewrite filter_other_name; [reflexivity|].
    intros [= E]. congruence.
  - intros p Hp. unfold waiting_on in Hp. apply in_map_iff in Hp.
    destruct Hp as (m & <- & Hin). apply (listeners_pending Hc').
    unfold getEvents in Hin. now apply filter_In in Hin.
Qed.

(** X18: [call] hands every caller a promise of its own, still pending
    when [call] returns, and subscribes its listener last among those
    waiting on the key; no promise is settled by the invocation, and the
    callers waiting on other keys are the same. *)
Theorem call_joins_waiters (actions : list (Action Value Producer)) k (P : Producer) :
  let c := run_actions actions in
  let c' := snd (call k P c) in
  fst (call k P c) = callers c /\
  promise_state (callers c) (env (_emitter c')) = None /\
  env (_emitter c') = env (_emitter c) /\
  waiting_on k c' = (waiting_on k c ++ [callers c])%list /\
  (forall k', k' <> k -> waiting_on k' c' = waiting_on k' c).
Proof.
  intros c c'. pose proof (reached_coordinated actions) as Hc. fold c in Hc.
  unfold c'. rewrite call_without_snapshot by exact (no_states Hc).
  cbn [fst snd _emitter subscribed env]. split; [reflexivity|]. split.
  - apply promise_state_none. intros st Hin.
    pose proof (settled_created Hc _ _ Hin). lia.
  - split; [reflexivity|].
    unfold waiting_on, getEvents.
    cbn [_emitter subscribed emitter world push_event _events].
    split.
    + rewrite filter_app, map_app. cbn [filter eventName strict_eq].
      now rewrite String.eqb_refl.
    + intros k' Hk'. rewrite filter_app. cbn [filter eventName strict_eq].
      destruct (String.eqb k k') eqn:E.
      * apply String.eqb_eq in E. congruence.
      * now rewrite app_nil_r.
Qed.

Lemma answered_once_step c a :
  coordinated guid c ->
  NoDup (map fst (env (_emitter c))) /\
  (forall p st, In (p, st) (env (_emitter c)) -> exists v, st = Resolved v) ->
  NoDup (map fst (env (_emitter (step c a)))) /\
  (forall p st, In (p, st) (env (_emitter (step c a))) -> exists v, st = Resolved v).
Proof.
  intros Hc [Hnd Hres]. destruct a as [k P| |i o].
  - cbn [CacheEmitter.step].
    rewrite call_without_snapshot by exact (no_states Hc). now split.
  - cbn [CacheEmitter.step]. destruct (scheduled c); now split.
  - destruct (nth_error (in_flight c) i) as [t|] eqn:Hi.
    + rewrite (settle_emitter i o Hc Hi). cbn [env]. split.
      * rewrite map_app, map_map. cbn [fst].
        apply NoDup_app.
        -- exact Hnd.
        -- apply (NoDup_map_filter caller_of), (callers_distinct Hc).
        -- intros p Hold Hnew. apply in_map_iff in Hold.
           destruct Hold as ([q st] & <- & Hold). cbn [fst] in Hnew.
           apply in_map_iff in Hnew. destruct Hnew as (m & E & Hm).
           unfold getEvents in Hm. apply filter_In in Hm.
           pose proof (listeners_pending Hc m (proj1 Hm)) as Hpen.
           rewrite promise_state_none in Hpen. apply (Hpen st).
           now rewrite E.
      * intros p st Hin. apply in_app_or in Hin. destruct Hin as [Hin|Hin].
        -- now apply (Hres p).
        -- apply in_map_iff in Hin. destruct Hin as (m & [= _ <-] & _). eauto.
    + unfold CacheEmitter.step. rewrite Hi. now split.
Qed.

(** X19: while the coordinator is used through [call], [resolve] is
    called at most once on the promise of a caller and [reject] never is:
    in every state reached, the settlements recorded are resolutions, of
    promises [call] has created, and no promise has two. *)
Theorem callers_answered_once (actions : list (Action Value Producer)) :
  let c := run_actions actions in
  NoDup (map fst (env (_emitter c))) /\
  forall p st, In (p, st) (env (_emitter c)) ->
               p < callers c /\ exists v, st = Resolved v.
Proof.
  intros c.
  assert (H : forall c0 : Coordinator,
             coordinated guid c0 ->
             NoDup (map fst (env (_emitter c0))) /\
             (forall p st, In (p, st) (env (_emitter c0)) -> exists v, st = Resolved v) ->
             NoDup (map fst (env (_emitter (fold_left step actions c0)))) /\
             (forall p st, In (p, st) (env (_emitter (fold_left step actions c0))) ->
                           exists v, st = Resolved v)).
  { induction actions as [|a actions IH]; intros c0 Hc0 H0; simpl; [exact H0|].
    apply IH.
    - apply coordinated_step; [exact guid_injective|exact Hc0].
    - now apply answered_once_step. }
  destruct (H (new_coordinator Value Producer)) as [Hnd Hres].
  - apply coordinated_new.
  - split; [constructor|intros p st []].
  - split; [exact Hnd|]. intros p st Hin. split.
    + exact (settled_created (reached_coordinated actions) _ _ Hin).
    + now apply (Hres p).
Qed.

End CallerFacts.

(** * Properties of [waitEvent] *)

Section WaitFacts.

Variable Data : Type.
Variable null : Data.
Variables Exn Callback Env : Type.
Variable guid : nat -> string.
Variable type_error : Exn.

Import Waiting.

Local Abbreviation Waiter := (Subscriber Callback).
Local Abbreviation Around := (Surroundings Data Exn Env).

Variable plain_run :
  Callback -> Data -> string -> World Data Waiter Around -> CbResult Data Exn Waiter Around.
Variable trigger_run :
  Waiter -> Data -> string -> World Data Waiter Around -> CbResult Data Exn Waiter Around.

Local Abbreviation listener := (listener null type_error plain_run trigger_run).
Local Abbreviation waitEvent := (waitEvent null guid type_error plain_run trigger_run).

Implicit Types (s : Sys Data Waiter Around) (w : World Data Waiter Around)
         (name : EventNameType) (d v : Data) (p : PromiseId).

(** Where no trigger is filed, the closure resolves its promise and
    takes itself out. *)
Lemma listener_resolves p d h w :
  _offTriggers (emitter w) = [] ->
  listener (WaitListener Callback p) d h w
  = Returned RVoid (world (without h (mkSys (settle p (Resolved Exn d) w) []))).
Proof.
  intros H. unfold Waiting.listener.
  now rewrite off_without_triggers by exact H.
Qed.

Lemma without_subscribed name (cb : Waiter) (w : World Data Waiter Around)
      (around : Around) (log : list (Firing Data Waiter)) :
  has (guid (guids w)) (emitter w) = false ->
  without (guid (guids w))
    (mkSys (mkWorld (push_event (mkEvent name (guid (guids w)) cb) (emitter w))
                    (S (guids w)) around) log)
  = mkSys (mkWorld (emitter w) (S (guids w)) around) log.
Proof.
  intros Hfresh. unfold without.
  cbn [world emitter push_event _events _offTriggers _states guids env fired].
  rewrite filter_app. cbn [filter eventHash]. rewrite String.eqb_refl. cbn [negb].
  unfold has in Hfresh. rewrite (filter_negb_none _ _ Hfresh), app_nil_r.
  now rewrite emitter_eta.
Qed.

(** X20: where the name has a snapshot (and no trigger is filed),
    [waitEvent] resolves its promise with the snapshot before it returns:
    the closure it subscribes is replayed the snapshot at once, calls
    [resolve] and unsubscribes itself, so that when [waitEvent] returns
    the tables are what they were and the promise, a new one, is
    resolved. *)
Theorem waitEvent_resolves_from_snapshot name v s :
  getState name (emitter (world s)) = Some v ->
  has (guid (guids (world s))) (emitter (world s)) = false ->
  _offTriggers (emitter (world s)) = [] ->
  let p := created (env (world s)) in
  let log := (settlements (env (world s)) ++ [(p, Resolved Exn v)])%list in
  waitEvent name s
  = Ok p (mkSys (mkWorld (emitter (world s)) (S (guids (world s)))
                         (mkSurroundings (S p) log (outside (env (world s)))))
                (fired s ++ [mkFiring (WaitListener Callback p) v
                                      (guid (guids (world s)))])%list) /\
  (promise_state p (settlements (env (world s))) = None ->
   promise_state p log = Some (Resolved Exn v)).
Proof.
  intros Hv Hfresh Htr p log. split.
  - unfold Waiting.waitEvent. fold p.
    match goal with
    | |- context [on _ _ _ _ ?s0] =>
        rewrite (@on_with_snapshot _ _ _ _ guid listener name
                   (WaitListener Callback p) s0 v Hv)
    end.
    cbv zeta. cbn [world guids fired].
    rewrite listener_resolves by exact Htr.
    unfold subscribed, settle.
    cbn [world emitter guids env created settlements outside].
    pose proof (without_subscribed name (WaitListener Callback p) (world s)
                  (mkSurroundings (S p) log (outside (env (world s)))) [] Hfresh) as E.
    exact (f_equal (fun x => Ok (Exn:=Exn) p (mkSys (world x) _)) E).
  - intros Hnone. unfold log, promise_state in *. rewrite find_append.
    match goal with
    | H : option_map _ ?f = None |- _ => destruct f; [discriminate|]
    end.
    simpl. now rewrite Nat.eqb_refl.
Qed.

(** X21: for every name but [NaN] (which [===] never finds, so that no
    emit reaches what is subscribed under it): where the name has
    neither snapshot nor subscriber (and no trigger is filed),
    [waitEvent] leaves its promise unsettled and its closure subscribed;
    the first emit of the name then resolves the promise with the data
    emitted and takes the closure out, so that the tables are what they
    were before [waitEvent] and later emits of the name reach nobody and
    change nothing. *)
Theorem waitEvent_resolves_on_first_emit name d s :
  strict_eq name name = true ->
  hasState name (emitter (world s)) = false ->
  hasEvent name (emitter (world s)) = false ->
  has (guid (guids (world s))) (emitter (world s)) = false ->
  _offTriggers (emitter (world s)) = [] ->
  let p := created (env (world s)) in
  let hash := guid (guids (world s)) in
  exists s1 s2,
    waitEvent name s = Ok p s1 /\
    getEvents name (emitter (world s1)) = [mkEvent name hash (WaitListener Callback p)] /\
    settlements (env (world s1)) = settlements (env (world s)) /\
    emitSync listener name d s1 = Ok tt s2 /\
    emitter (world s2) = emitter (world s) /\
    settlements (env (world s2))
    = (settlements (env (world s)) ++ [(p, Resolved Exn d)])%list /\
    fired s2 = (fired s ++ [mkFiring (WaitListener Callback p) d hash])%list /\
    forall d', emitSync listener name d' s2 = Ok tt s2.
Proof.
  intros Hself Hs Hev Hfresh Htr p hash.
  eexists. eexists. split.
  { unfold Waiting.waitEvent. fold p.
    rewrite on_without_snapshot by exact Hs. reflexivity. }
  assert (Hsubs : getEvents name
                    (emitter (subscribed guid name (WaitListener Callback p)
                       (mkSys (mkWorld (emitter (world s)) (guids (world s))
                                 (mkSurroundings (S p) (settlements (env (world s)))
                                    (outside (env (world s)))))
                              (fired s))))
                  = [mkEvent name hash (WaitListener Callback p)]).
  { pose proof (getEvents_none _ _ Hev) as Hnone.
    unfold getEvents, subscribed in *.
    cbn [world emitter push_event _events guids]. rewrite filter_app, Hnone.
    cbn [app filter eventName]. now rewrite Hself. }
  cbn [world]. split; [exact Hsubs|]. split; [reflexivity|].
  unfold emitSync at 1, bind, gets. cbn [world]. rewrite Hsubs.
  cbn [mapM]. unfold bind, invoke, call_cb. cbn [callback eventHash world fired].
  rewrite listener_resolves by exact Htr.
  unfold subscribed, settle, ret.
  cbn [world emitter guids env created settlements outside fired].
  rewrite (without_subscribed name (WaitListener Callback p) (world s) _ [] Hfresh).
  cbn [world emitter env settlements fired].
  split; [reflexivity|]. split; [reflexivity|]. split; [reflexivity|].
  split; [reflexivity|].
  intros d'. apply emitSync_none. cbn [world emitter].
  now apply getEvents_none.
Qed.

End WaitFacts.

(** * Properties of the shared subscription *)

Section SharedFacts.

Variable Data : Type.
Variable null : Data.
Variable Exn : Type.
Variable stack_overflow : Exn.
Variable type_error : Exn.
Variables Consumer Opener Closer Outside : Type.
Variable guid : nat -> string.

Import Shared.

Local Abbreviation Hook := (Handler Consumer).
Local Abbreviation Around := (Surroundings Exn Opener Closer Outside).
Local Abbreviation HubWorld := (World Data Hook Around).

Variable consumer_run :
  Consumer -> Data -> string -> HubWorld -> CbResult Data Exn Hook Around.
Variable opener_run : Opener -> nat -> HubWorld -> HubWorld.
Variable closer_run : Closer -> HubWorld -> CbResult Data Exn Hook Around.

Local Abbreviation run := (run null stack_overflow type_error consumer_run).
Local Abbreviation subscribe := (subscribe null stack_overflow type_error guid consumer_run).
Local Abbreviation unsubscribe := (unsubscribe null stack_overflow type_error consumer_run).
Local Abbreviation resume := (resume null stack_overflow type_error consumer_run closer_run).

Implicit Types (s : Sys Data Hook Around) (w : HubWorld) (name hash th : string)
         (a i depth : nat) (act : Activation Exn Opener Closer).

Lemma update_nth_last {A} (f : A -> A) (l : list A) x :
  update_nth (List.length l) f (l ++ [x])%list = (l ++ [f x])%list.
Proof. induction l as [|y l IH]; simpl; [reflexivity|]. now rewrite IH. Qed.

Lemma subscribe_joins depth name (opener : Opener) (consumer : Consumer) s :
  hasState name (emitter (world s)) = false ->
  hasEvent name (emitter (world s)) = true ->
  subscribe depth name opener consumer s
  = Ok (guid (guids (world s)))
       (mkSys (mkWorld (push_event (mkEvent name (guid (guids (world s))) (Consume consumer))
                                   (emitter (world s)))
                       (S (guids (world s))) (env (world s)))
              (fired s)).
Proof.
  intros Hs Hev. unfold Shared.subscribe.
  rewrite on_without_snapshot by exact Hs. now rewrite Hev.
Qed.

Lemma subscribe_activates depth name (opener : Opener) (consumer : Consumer) s :
  hasState name (emitter (world s)) = false ->
  hasEvent name (emitter (world s)) = false ->
  subscribe depth name opener consumer s
  = Ok (guid (guids (world s)))
       (mkSys (mkWorld
                 (push_trigger
                    (mkEvent (getOffEventName name)
                             ("trigger_off_" ++ guid (S (guids (world s))))
                             (DrainHook (List.length (activations (env (world s))))))
                    (push_event (mkEvent name (guid (guids (world s))) (Consume consumer))
                                (emitter (world s))))
                 (S (S (guids (world s))))
                 (mkSurroundings
                    (activations (env (world s))
                     ++ [mkActivation name opener Queued false
                           ("trigger_off_" ++ guid (S (guids (world s))))])%list
                    (suspended (env (world s))) (effects (env (world s)))
                    (outside (env (world s)))))
              (fired s)).
Proof.
  intros Hs Hev. unfold Shared.subscribe.
  rewrite on_without_snapshot by exact Hs. rewrite Hev.
  unfold triggerOffEvent. cbn [to_template].
  unfold _onTriggerOff, bind, fresh_guid, modify, ret,
    update_activation, with_env, subscribed.
  cbn [world emitter guids env fired activations suspended effects outside].
  now rewrite update_nth_last.
Qed.

(** X24: [subscribe] always registers the consumer's callback, last
    among the consumers of the key.  Where the key already has a
    consumer it does nothing else: no call of [realCallback] is queued
    and no trigger is filed.  Where the key has none, it queues the call
    of [realCallback] and files one closure as trigger of the key's last
    unsubscription, under a second identifier drawn from [guid]. *)
Theorem subscribe_opens_once depth name (opener : Opener) (consumer : Consumer) s :
  hasState name (emitter (world s)) = false ->
  let n := guids (world s) in
  let o := mkEvent name (guid n) (Consume consumer) in
  (hasEvent name (emitter (world s)) = true ->
   subscribe depth name opener consumer s
   = Ok (guid n)
        (mkSys (mkWorld (push_event o (emitter (world s))) (S n) (env (world s)))
               (fired s))) /\
  (hasEvent name (emitter (world s)) = false ->
   let a := List.length (activations (env (world s))) in
   let hash := "trigger_off_" ++ guid (S n) in
   subscribe depth name opener consumer s
   = Ok (guid n)
        (mkSys (mkWorld
                  (push_trigger (mkEvent (getOffEventName name) hash (DrainHook a))
                                (push_event o (emitter (world s))))
                  (S (S n))
                  (mkSurroundings
                     (activations (env (world s))
                      ++ [mkActivation name opener Queued false hash])%list
                     (suspended (env (world s))) (effects (env (world s)))
                     (outside (env (world s)))))
               (fired s))).
Proof.
  intros Hs n o. split; intros Hev; cbv zeta.
  - now apply subscribe_joins.
  - now apply subscribe_activates.
Qed.

Lemma run_hook_suspends depth a act d h w :
  nth_error (activations (env w)) a = Some act ->
  forgotten act = false ->
  run depth (DrainHook a) d h w = Returned (RPromise a) (suspend a w).
Proof. intros Ha Hf. destruct depth; simpl; now rewrite Ha, Hf. Qed.

(** Unsubscribing an identifier no subscription carries, where nothing
    is filed under the names [off] then looks up. *)
Lemma off_silent (rn : Hook -> Data -> string -> HubWorld -> CbResult Data Exn Hook Around)
      hash s :
  has hash (emitter (world s)) = false ->
  triggers_named (getOffName hash) (emitter (world s)) = [] ->
  triggers_named (getOffEventName "undefined") (emitter (world s)) = [] ->
  triggers_named getOffAllName (emitter (world s)) = [] ->
  off null type_error rn hash s = Ok tt s.
Proof.
  intros Hunknown H1 H2 H3. unfold off, bind, gets.
  rewrite (linq_first_unknown _ _ Hunknown). cbn [option_map].
  change (_offAction hash s) with (Ok (Exn:=Exn) tt (without hash s)).
  rewrite (without_unknown _ _ Hunknown).
  unfold try_catch, off_cascade, bind, _offEmit, _offEventEmit, _offAllEmit, gets.
  rewrite (fire_triggers_none _ _ _ _ H1).
  cbn [getEvents_any List.length Nat.leb when to_template].
  rewrite (fire_triggers_none _ _ _ _ H2).
  destruct (List.length _ <=? 0)%nat; cbn [when].
  - now rewrite (fire_triggers_none _ _ _ _ H3).
  - reflexivity.
Qed.

(** X25: [unsubscribe] of a consumer, where no trigger is filed for its
    identifier or for the whole registry and the key (a string, as
    [subscribe] takes it, or any name that is not a symbol) has one
    closure filed, whose variable [unlistenerPromise] is still set.  While the
    key keeps another consumer, the consumer is removed and nothing is
    invoked.  When it was the last consumer of the key, the closure is
    invoked and suspends at its [await]: when [unsubscribe] returns,
    no closing function has been called yet. *)
Theorem unsubscribe_drains_key depth hash o th a act s :
  let key := eventName o in
  let s0 := without hash s in
  linq_first (fun m => String.eqb (eventHash m) hash) (_events (emitter (world s)))
  = Some o ->
  is_symbol key = false ->
  triggers_named (getOffName hash) (emitter (world s)) = [] ->
  triggers_named getOffAllName (emitter (world s)) = [] ->
  triggers_named (getOffEventName (to_string key)) (emitter (world s))
  = [mkEvent (NameString (getOffEventName (to_string key))) th (DrainHook a)] ->
  nth_error (activations (env (world s))) a = Some act ->
  forgotten act = false ->
  (hasEvent key (emitter (world s0)) = true ->
   unsubscribe depth hash s = Ok tt s0) /\
  (hasEvent key (emitter (world s0)) = false ->
   unsubscribe depth hash s
   = Ok tt (mkSys (suspend a (world s0))
                  (fired s ++ [mkFiring (DrainHook a) null th])%list)).
Proof.
  intros key s0 Hfirst Hsym H1 H3 H2 Ha Hf.
  assert (Hstart :
            unsubscribe depth hash s
            = try_catch (off_cascade null type_error (run depth) hash (Some key))
                        (fun _ => ret tt) s0).
  { unfold Shared.unsubscribe, off, bind, gets. rewrite Hfirst. reflexivity. }
  rewrite Hstart.
  split; intros Hev;
    unfold try_catch, off_cascade; unfold bind at 1; unfold _offEmit;
    rewrite (fire_triggers_none null (run depth) (getOffName hash) s0 H1);
    unfold bind at 1, gets at 1; cbn [getEvents_any].
  - assert (Hsubs : (List.length (getEvents key (emitter (world s0))) <=? 0)%nat = false).
    { unfold hasEvent, some in Hev. unfold getEvents.
      destruct (filter _ _) eqn:F; [|reflexivity].
      apply existsb_exists in Hev. destruct Hev as (m & Hin & Hm).
      assert (Hin' : In m (filter (fun m => strict_eq (eventName m) key)
                              (_events (emitter (world s0)))))
        by (apply filter_In; now split).
      rewrite F in Hin'. destruct Hin'. }
    rewrite Hsubs. cbn [when]. unfold bind, ret, gets.
    assert (Hall : (List.length (_events (emitter (world s0))) <=? 0)%nat = false).
    { unfold hasEvent, some in Hev.
      destruct (_events (emitter (world s0))); [discriminate|reflexivity]. }
    now rewrite Hall.
  - rewrite (getEvents_none _ _ Hev). cbn [List.length Nat.leb when].
    unfold bind at 1, _offEventEmit. rewrite (to_template_rendered _ Hsym).
    unfold fire_triggers at 1, bind at 1, gets at 1.
    change (triggers_named (getOffEventName (to_string key)) (emitter (world s0)))
      with (triggers_named (getOffEventName (to_string key)) (emitter (world s))).
    rewrite H2. cbn [mapM]. unfold bind at 1 2, invoke, call_cb.
    cbn [callback eventHash].
    rewrite (run_hook_suspends depth a null th (world s0) Ha Hf).
    unfold ret at 1 2. cbv iota beta.
    unfold bind, gets, _offAllEmit, ret. cbv iota beta.
    match goal with
    | |- context [(?n <=? 0)%nat] => destruct (n <=? 0)%nat
    end; cbn [when]; [|reflexivity].
    rewrite fire_triggers_none by exact H3. reflexivity.
Qed.

(** X26: when a closure resumes after its [await] and the promise was
    fulfilled with a closing function that returns, the closing function
    is called (whether or not an earlier resumption of the same closure
    has called it already), the variables are set to [null], and the
    closure ends with [off] on the identifier of its own trigger.  No
    subscription carries that identifier, so that (where nothing is
    filed under the names [off] looks up then) nothing is removed: the
    closure stays filed as a trigger of the key. *)
Theorem resume_closes_upstream depth i a act c r w :
  let th := triggerOffEventHash act in
  let w0 :=
    mkWorld (emitter w) (guids w)
            (mkSurroundings (activations (env w))
                            (CacheEmitter.remove_nth i (suspended (env w)))
                            (effects (env w) ++ [CloserCalled a])%list
                            (outside (env w))) in
  nth_error (suspended (env w)) i = Some a ->
  nth_error (activations (env w)) a = Some act ->
  unlistenerPromise act = Opened (Some c) ->
  closer_run c w0 = Returned r w0 ->
  has th (emitter w) = false ->
  triggers_named (getOffName th) (emitter w) = [] ->
  triggers_named (getOffEventName "undefined") (emitter w) = [] ->
  triggers_named getOffAllName (emitter w) = [] ->
  resume depth i w
  = mkWorld (emitter w) (guids w)
            (mkSurroundings (update_nth a (@forget Exn Opener Closer) (activations (env w)))
                            (CacheEmitter.remove_nth i (suspended (env w)))
                            (effects (env w) ++ [CloserCalled a])%list
                            (outside (env w))) /\
  _offTriggers (emitter (resume depth i w)) = _offTriggers (emitter w).
Proof.
  intros th w0 Hi Ha Hp Hc Hh H1 H2 H3.
  assert (E : resume depth i w
              = mkWorld (emitter w) (guids w)
                  (mkSurroundings
                     (update_nth a (@forget Exn Opener Closer) (activations (env w)))
                     (CacheEmitter.remove_nth i (suspended (env w)))
                     (effects (env w) ++ [CloserCalled a])%list
                     (outside (env w)))).
  { unfold Shared.resume. rewrite Hi, Ha, Hp.
    unfold log_effect, with_env.
    cbn [emitter guids env activations suspended effects outside].
    fold w0. rewrite Hc.
    unfold update_activation, with_env, w0.
    cbn [emitter guids env activations suspended effects outside].
    fold th. now rewrite off_silent. }
  split; [exact E|]. now rewrite E.
Qed.

(** X27: a closure whose variable [unlistenerPromise] has been set to
    [null] stays filed and is invoked again whenever its key loses its
    last consumer.  It then calls no closing function and does not
    suspend: it goes straight to [off] on the identifier of its own
    trigger, which (where nothing is filed under the names [off] looks
    up then) changes nothing. *)
Theorem forgotten_hook_only_unsubscribes depth a act d h w :
  nth_error (activations (env w)) a = Some act ->
  forgotten act = true ->
  has (triggerOffEventHash act) (emitter w) = false ->
  triggers_named (getOffName (triggerOffEventHash act)) (emitter w) = [] ->
  triggers_named (getOffEventName "undefined") (emitter w) = [] ->
  triggers_named getOffAllName (emitter w) = [] ->
  run (S depth) (DrainHook a) d h w = Returned (RPromise a) w.
Proof.
  intros Ha Hf Hh H1 H2 H3. cbn [Shared.run]. rewrite Ha, Hf.
  now rewrite off_silent.
Qed.

End SharedFacts.

(** * What the shared subscription keeps *)

Section HubFacts.

Variable Data : Type.
Variable null : Data.
Variable Exn : Type.
Variable stack_overflow : Exn.
Variable type_error : Exn.
Variables Consumer Opener Closer Outside : Type.
Variable guid : nat -> string.

Import Shared.

Local Abbreviation Hook := (Handler Consumer).
Local Abbreviation Around := (Surroundings Exn Opener Closer Outside).
Local Abbreviation HubWorld := (World Data Hook Around).
Local Abbreviation HubSys := (Sys Data Hook Around).
Local Abbreviation Act := (Activation Exn Opener Closer).

Variable consumer_run :
  Consumer -> Data -> string -> HubWorld -> CbResult Data Exn Hook Around.
Variable opener_run : Opener -> nat -> HubWorld -> HubWorld.
Variable closer_run : Closer -> HubWorld -> CbResult Data Exn Hook Around.

Local Abbreviation run := (run null stack_overflow type_error consumer_run).
Local Abbreviation step := (step null stack_overflow type_error guid consumer_run opener_run closer_run).
Local Abbreviation hub_inv := (hub_inv (Data:=Data) (Consumer:=Consumer) guid).
Local Abbreviation hub_ok := (hub_ok (Data:=Data) (Exn:=Exn) (Consumer:=Consumer)
                                     (Opener:=Opener) (Closer:=Closer)
                                     (Outside:=Outside) guid).
Local Abbreviation hooks_of := (@Shared.hooks_of Consumer).
Local Abbreviation named := (fun name (m : EventObject Hook) => strict_eq (eventName m) name).

Implicit Types (s : HubSys) (w : HubWorld) (name hash th k key : string)
         (a i n m depth : nat) (act : Act) (acts : list Act)
         (keys : list (string * string)) (em : EventEmitter Data Hook)
         (log : list (Firing Data Hook)) (o : EventObject Hook).

Hypothesis guid_injective : forall i j, guid i = guid j -> i = j.
Hypothesis guid_plain :
  forall i x, guid i <> "event_" ++ x /\ guid i <> "trigger_off_" ++ x.

(** ** Names of triggers *)

Lemma event_name_injective k k' : getOffEventName k = getOffEventName k' -> k = k'.
Proof. unfold getOffEventName. simpl. now intros [= H]. Qed.

Lemma off_name_is_event_name h k : getOffName h = getOffEventName k -> h = "event_" ++ k.
Proof. unfold getOffName, getOffEventName. simpl. now intros [= H]. Qed.

Lemma event_name_not_all k : getOffEventName k <> getOffAllName.
Proof. unfold getOffEventName, getOffAllName. simpl. intros [= H]. Qed.

Lemma event_name_not_nested k x : getOffEventName k <> getOffName ("trigger_off_" ++ x).
Proof. unfold getOffEventName, getOffName. simpl. intros [= H]. Qed.

(** ** The triggers of the activations *)

Lemma hooks_of_app n keys extra :
  hooks_of n (keys ++ extra)
  = (hooks_of n keys ++ hooks_of (n + List.length keys) extra)%list.
Proof.
  revert n. induction keys as [|[key hash] keys IH]; intros n; simpl.
  - now rewrite Nat.add_0_r.
  - rewrite IH. now rewrite Nat.add_succ_r.
Qed.

Lemma hooks_of_In n keys o :
  In o (hooks_of n keys) ->
  exists m key hash, nth_error keys m = Some (key, hash) /\
                     o = mkEvent (getOffEventName key) hash (DrainHook (n + m)).
Proof.
  revert n. induction keys as [|[key hash] keys IH]; intros n; simpl; [easy|].
  intros [<-|Hin].
  - exists 0, key, hash. now rewrite Nat.add_0_r.
  - destruct (IH _ Hin) as (m & key' & hash' & Hm & ->).
    exists (S m), key', hash'. split; [exact Hm|]. now rewrite Nat.add_succ_r.
Qed.

Lemma hooks_of_nth n keys m key hash :
  nth_error keys m = Some (key, hash) ->
  In (mkEvent (getOffEventName key) hash (DrainHook (n + m))) (hooks_of n keys).
Proof.
  revert n m. induction keys as [|[key' hash'] keys IH]; intros n [|m]; simpl; try easy.
  - intros [= -> ->]. left. now rewrite Nat.add_0_r.
  - intros H. right. rewrite <- Nat.add_succ_comm. now apply IH.
Qed.

Lemma hooks_named_none name n keys :
  (forall key hash, In (key, hash) keys -> getOffEventName key <> name) ->
  filter (named name) (hooks_of n keys) = [].
Proof.
  revert n. induction keys as [|[key hash] keys IH]; intros n H; [reflexivity|].
  cbn [Shared.hooks_of filter eventName strict_eq].
  destruct (String.eqb (getOffEventName key) name) eqn:E.
  - apply String.eqb_eq in E. exfalso. apply (H key hash); [now left|exact E].
  - apply IH. intros key' hash' Hin. apply (H key' hash'). now right.
Qed.

(** ** Which closures the registry has invoked *)

Lemma told_app a log log' : told a (log ++ log') = told a log || told a log'.
Proof. unfold told. apply existsb_app. Qed.

Lemma told_hooks_in k n keys m hash :
  nth_error keys m = Some (k, hash) ->
  told (n + m) (map (firing_of null) (filter (named (getOffEventName k)) (hooks_of n keys)))
  = true.
Proof.
  intros H. unfold told. apply existsb_exists.
  exists (firing_of null (mkEvent (getOffEventName k) hash (DrainHook (n + m)))).
  split.
  - apply in_map, filter_In. split; [now apply hooks_of_nth|].
    cbn [eventName strict_eq]. apply String.eqb_refl.
  - cbn. apply Nat.eqb_refl.
Qed.

Lemma told_hooks_out k n keys a :
  told a (map (firing_of null) (filter (named (getOffEventName k)) (hooks_of n keys)))
  = true ->
  exists m hash, a = n + m /\ nth_error keys m = Some (k, hash).
Proof.
  unfold told. intros H. apply existsb_exists in H. destruct H as (f & Hin & Hf).
  apply in_map_iff in Hin. destruct Hin as (o & <- & Hin).
  apply filter_In in Hin. destruct Hin as [Hin Hname].
  destruct (hooks_of_In _ _ _ Hin) as (m & key & hash & Hm & ->).
  cbn in Hf, Hname. apply Nat.eqb_eq in Hf. apply String.eqb_eq in Hname.
  try apply event_name_injective in Hname. subst key.
  exists m, hash. split; [now symmetry|exact Hm].
Qed.

Lemma told_consumers a (subs : list (EventObject Hook)) (d : Data) :
  (forall o, In o subs -> exists u, callback o = Consume u) ->
  told a (map (firing_of d) subs) = false.
Proof.
  intros H. unfold told.
  destruct (existsb _ _) eqn:E; [|reflexivity].
  apply existsb_exists in E. destruct E as (f & Hin & Hf).
  apply in_map_iff in Hin. destruct Hin as (o & <- & Hin).
  destruct (H o Hin) as [u Hu]. cbn in Hf. now rewrite Hu in Hf.
Qed.

(** ** The activations not yet told to close *)

Lemma wanted_same n k keys log log' :
  (forall m key hash, nth_error keys m = Some (key, hash) -> key = k ->
                      told (n + m) log' = told (n + m) log) ->
  wanted_from n k keys log' = wanted_from n k keys log.
Proof.
  revert n. induction keys as [|[key hash] keys IH]; intros n H; [reflexivity|].
  cbn [wanted_from].
  assert (IH' : wanted_from (S n) k keys log' = wanted_from (S n) k keys log).
  { apply IH. intros m key' hash' Hm Hk. rewrite Nat.add_succ_comm.
    now apply (H (S m) key' hash'). }
  rewrite IH'. destruct (String.eqb key k) eqn:E; [|reflexivity].
  apply String.eqb_eq in E.
  specialize (H 0 key hash eq_refl E). rewrite Nat.add_0_r in H. now rewrite H.
Qed.

Lemma wanted_drained n k keys log :
  (forall m hash, nth_error keys m = Some (k, hash) -> told (n + m) log = true) ->
  wanted_from n k keys log = [].
Proof.
  revert n. induction keys as [|[key hash] keys IH]; intros n H; [reflexivity|].
  cbn [wanted_from].
  assert (IH' : wanted_from (S n) k keys log = []).
  { apply IH. intros m hash' Hm. rewrite Nat.add_succ_comm. now apply (H (S m) hash'). }
  rewrite IH'. destruct (String.eqb key k) eqn:E; [|reflexivity].
  apply String.eqb_eq in E. subst key.
  specialize (H 0 hash eq_refl). rewrite Nat.add_0_r in H. now rewrite H.
Qed.

Lemma wanted_app n k keys extra log :
  wanted_from n k (keys ++ extra) log
  = (wanted_from n k keys log ++ wanted_from (n + List.length keys) k extra log)%list.
Proof.
  revert n. induction keys as [|[key hash] keys IH]; intros n; cbn [wanted_from app List.length].
  - now rewrite Nat.add_0_r.
  - rewrite IH, Nat.add_succ_r. cbn [Nat.add].
    now destruct (String.eqb key k && negb (told n log)).
Qed.

(** ** What the closures leave alone *)

Lemma hub_same_refl w : hub_same w w.
Proof. repeat split. Qed.

Lemma hub_same_trans w w1 w2 : hub_same w w1 -> hub_same w1 w2 -> hub_same w w2.
Proof.
  intros (A1 & A2 & A3) (B1 & B2 & B3). repeat split; congruence.
Qed.

Lemma filed_In acts act :
  In act acts -> In (act_key act, triggerOffEventHash act) (filed acts).
Proof. intros H. unfold filed. now apply (in_map (fun x => (act_key x, triggerOffEventHash x))). Qed.

Lemma filed_length acts : List.length (filed acts) = List.length acts.
Proof. unfold filed. apply length_map. Qed.

Lemma filed_update a (f : Act -> Act) acts :
  (forall act, act_key (f act) = act_key act /\
               triggerOffEventHash (f act) = triggerOffEventHash act) ->
  filed (update_nth a f acts) = filed acts.
Proof.
  intros Hf. revert a. induction acts as [|x acts IH]; intros [|a]; simpl; try reflexivity.
  - destruct (Hf x) as [-> ->]. reflexivity.
  - now rewrite IH.
Qed.

Lemma closures_silent_same w w' :
  hub_same w w' -> closures_silent w -> closures_silent w'.
Proof.
  intros (A1 & A2 & A3) (H1 & H2 & H3).
  unfold closures_silent. rewrite A1. split; [exact H1|]. split; [exact H2|].
  intros act Hin. apply filed_In in Hin. rewrite A3 in Hin.
  unfold filed in Hin. apply in_map_iff in Hin. destruct Hin as (act0 & [= _ E] & Hin).
  rewrite <- E. now apply H3.
Qed.

Lemma has_no_trigger_hash em g x :
  (forall o, In o (_events em) -> exists i, i < g /\ eventHash o = guid i) ->
  has ("trigger_off_" ++ x) em = false.
Proof.
  intros H. unfold has, some.
  destruct (existsb _ _) eqn:E; [|reflexivity].
  apply existsb_exists in E. destruct E as (o & Hin & Ho).
  apply String.eqb_eq in Ho. destruct (H o Hin) as (i & _ & Hi).
  rewrite Hi in Ho. now apply (guid_plain i x) in Ho.
Qed.

Lemma inv_silent em g log w :
  hub_inv em g (filed (activations (env w))) log -> emitter w = em ->
  closures_silent w.
Proof.
  intros H <-. unfold closures_silent, triggers_named.
  rewrite (hub_triggers H). split; [|split].
  - apply hooks_named_none. intros key hash Hin E.
    apply event_name_injective in E. now apply (hub_keys H) in Hin.
  - apply hooks_named_none. intros key hash _. apply event_name_not_all.
  - intros act Hin. apply filed_In in Hin.
    destruct (hub_keys H _ _ Hin) as [_ [j ->]]. split.
    + apply has_no_trigger_hash with (g := g). intros o Ho.
      now apply (hub_consumers H).
    + apply hooks_named_none. intros key hash _. apply event_name_not_nested.
Qed.

Lemma parked_refl w log : parked w w log.
Proof. repeat split. intros b Hb. now left. Qed.

Lemma parked_trans w w1 w2 log log' :
  parked w w1 log -> parked w1 w2 log' -> parked w w2 (log ++ log').
Proof.
  intros (A1 & A2 & A3 & A4 & A5) (B1 & B2 & B3 & B4 & B5).
  repeat split; try congruence.
  intros b Hb. rewrite told_app. destruct (B5 b Hb) as [Hin| ->].
  - destruct (A5 b Hin) as [Hin'| ->]; [now left|now right].
  - right. apply orb_true_r.
Qed.

Lemma parked_same w w' log : parked w w' log -> hub_same w w'.
Proof. intros (A1 & A2 & A3 & _). repeat split; congruence. Qed.

Lemma hook_leaves_tables depth a d h w :
  closures_silent w ->
  exists r w', run (S depth) (DrainHook a) d h w = Returned r w' /\
               parked w w' [mkFiring (DrainHook a) d h].
Proof.
  intros (H1 & H2 & H3). cbn [Shared.run].
  destruct (nth_error (activations (env w)) a) as [act|] eqn:Ha.
  - destruct (forgotten act).
    + destruct (H3 act (nth_error_In _ _ Ha)) as [Hh Hn].
      rewrite (off_silent null type_error (run depth) (triggerOffEventHash act) (mkSys w [])
                 Hh Hn H1 H2).
      eexists. eexists. split; [reflexivity|apply parked_refl].
    + eexists. eexists. split; [reflexivity|]. repeat split.
      cbn [suspend with_env env suspended]. intros b Hb.
      apply in_app_or in Hb. destruct Hb as [Hb|[<-|[]]]; [now left|right].
      cbn. now rewrite Nat.eqb_refl.
  - eexists. eexists. split; [reflexivity|apply parked_refl].
Qed.

(** Firing closures one after the other. *)
Lemma fire_hooks depth (hooks : list (EventObject Hook)) s :
  closures_silent (world s) ->
  (forall o, In o hooks -> exists a, callback o = DrainHook a) ->
  exists rs s',
    mapM (invoke (run (S depth)) null) hooks s = Ok rs s' /\
    parked (world s) (world s') (map (firing_of null) hooks) /\
    fired s' = (fired s ++ map (firing_of null) hooks)%list.
Proof.
  revert s. induction hooks as [|o hooks IH]; intros s Hs Hh.
  - exists [], s. split; [reflexivity|]. split; [apply parked_refl|].
    simpl. now rewrite app_nil_r.
  - destruct (Hh o (or_introl eq_refl)) as [a Ha].
    destruct (hook_leaves_tables depth a null (eventHash o) Hs) as (r & w' & Hr & Hsame).
    cbn [mapM]. unfold bind at 1. unfold invoke at 1, call_cb. rewrite Ha, Hr.
    destruct (IH (mkSys w' (fired s ++ [mkFiring (DrainHook a) null (eventHash o)])%list))
      as (rs & s' & Hm & Hsame' & Hlog).
    + exact (closures_silent_same (parked_same Hsame) Hs).
    + intros o' Hin. apply Hh. now right.
    + unfold bind. rewrite Hm. exists (r :: rs), s'. split; [reflexivity|].
      assert (E : firing_of null o = mkFiring (DrainHook a) null (eventHash o))
        by (unfold firing_of; now rewrite Ha).
      cbn [map]. rewrite E. split.
      * exact (parked_trans Hsame Hsame').
      * rewrite Hlog. cbn [fired]. now rewrite <- app_assoc.
Qed.

(** ** The invariant, operation by operation *)

Lemma hasEvent_pushed k o em :
  hasEvent k (push_event o em) = hasEvent k em || strict_eq (eventName o) k.
Proof.
  unfold hasEvent, some, push_event. cbn [_events].
  rewrite existsb_app. simpl. now rewrite orb_false_r.
Qed.

Lemma hasEvent_counts k em :
  hasEvent k em = negb (List.length (getEvents k em) <=? 0)%nat.
Proof.
  unfold hasEvent, some, getEvents.
  induction (_events em) as [|x l IH]; [reflexivity|].
  simpl. now destruct (strict_eq (eventName x) k).
Qed.

Lemma existsb_filter_kept {A} (p q : A -> bool) (l : list A) :
  (forall x, In x l -> p x = true -> q x = true) ->
  existsb p (filter q l) = existsb p l.
Proof.
  induction l as [|x l IH]; intros H; [reflexivity|].
  assert (IH' : existsb p (filter q l) = existsb p l).
  { apply IH. intros y Hy. apply H. now right. }
  simpl. destruct (q x) eqn:Eq; simpl; rewrite IH'; [reflexivity|].
  destruct (p x) eqn:Ep; [|reflexivity].
  rewrite (H x (or_introl eq_refl) Ep) in Eq. discriminate.
Qed.

Lemma find_none_filter {A} (p : A -> bool) (l : list A) :
  find p l = None -> filter (fun x => negb (p x)) l = l.
Proof.
  induction l as [|x l IH]; [reflexivity|].
  simpl. destruct (p x); [discriminate|]. intros H. simpl. now rewrite IH.
Qed.

Lemma inv_log em g keys log log' :
  hub_inv em g keys log -> (forall a, told a log' = told a log) ->
  hub_inv em g keys log'.
Proof.
  intros H Ht. constructor; try apply H.
  - intros a Ha. rewrite Ht in Ha. now apply (hub_told_known H).
  - intros k. rewrite <- (hub_wanted H k). f_equal.
    apply wanted_same. intros. apply Ht.
Qed.

Lemma inv_fresh_hash em g keys log :
  hub_inv em g keys log ->
  ~ In (guid g) (map (@eventHash Hook) (_events em)).
Proof.
  intros H Hin. apply in_map_iff in Hin. destruct Hin as (o & Ho & Hin).
  destruct (hub_consumers H o Hin) as [_ (i & Hi & E)].
  rewrite E in Ho. apply guid_injective in Ho. lia.
Qed.

Lemma inv_join em g keys log name (u : Consumer) :
  hub_inv em g keys log -> hasEvent name em = true ->
  hub_inv (push_event (mkEvent name (guid g) (Consume u)) em) (S g) keys log.
Proof.
  intros H Hev. constructor.
  - apply (hub_no_states H).
  - intros o Hin. unfold push_event in Hin. cbn [_events] in Hin.
    apply in_app_or in Hin. destruct Hin as [Hin|[<-|[]]].
    + destruct (hub_consumers H o Hin) as [Hu (i & Hi & E)].
      split; [exact Hu|]. exists i. split; [lia|exact E].
    + split; [now exists u|]. exists g. split; [lia|reflexivity].
  - unfold push_event. cbn [_events]. rewrite map_app.
    apply NoDup_snoc; [apply (hub_hashes_distinct H)|].
    apply (inv_fresh_hash H).
  - apply (hub_triggers H).
  - apply (hub_keys H).
  - apply (hub_told_known H).
  - intros k. rewrite hasEvent_pushed, (hub_wanted H k). cbn [eventName strict_eq].
    destruct (String.eqb name k) eqn:E.
    + apply String.eqb_eq in E. subst k. now rewrite Hev.
    + now rewrite orb_false_r.
  - intros o Hin. unfold push_event in Hin. cbn [_events] in Hin.
    apply in_app_or in Hin. destruct Hin as [Hin|[<-|[]]];
      [now apply (hub_names H)|now exists name].
Qed.

Lemma inv_activate em g keys log name (u : Consumer) :
  hub_inv em g keys log -> hasEvent name em = false -> name <> "undefined" ->
  hub_inv (push_trigger
             (mkEvent (getOffEventName name) ("trigger_off_" ++ guid (S g))
                      (DrainHook (List.length keys)))
             (push_event (mkEvent name (guid g) (Consume u)) em))
          (S (S g)) (keys ++ [(name, ("trigger_off_" ++ guid (S g))%string)])%list log.
Proof.
  intros H Hev Hname. constructor.
  - apply (hub_no_states H).
  - intros o Hin. unfold push_trigger, push_event in Hin. cbn [_events] in Hin.
    apply in_app_or in Hin. destruct Hin as [Hin|[<-|[]]].
    + destruct (hub_consumers H o Hin) as [Hu (i & Hi & E)].
      split; [exact Hu|]. exists i. split; [lia|exact E].
    + split; [now exists u|]. exists g. split; [lia|reflexivity].
  - unfold push_trigger, push_event. cbn [_events]. rewrite map_app.
    apply NoDup_snoc; [apply (hub_hashes_distinct H)|].
    apply (inv_fresh_hash H).
  - unfold push_trigger, push_event. cbn [_offTriggers].
    rewrite hooks_of_app, (hub_triggers H). reflexivity.
  - intros key hash Hin. apply in_app_or in Hin. destruct Hin as [Hin|[[= <- <-]|[]]].
    + now apply (hub_keys H).
    + split; [exact Hname|]. now exists (S g).
  - intros a Ha. apply (hub_told_known H) in Ha. rewrite length_app. simpl. lia.
  - intros k. rewrite wanted_app, length_app, (hub_wanted H k).
    assert (Hnew : told (List.length keys) log = false).
    { destruct (told (List.length keys) log) eqn:E; [|reflexivity].
      apply (hub_told_known H) in E. lia. }
    change (hasEvent k (push_trigger ?o ?e)) with (hasEvent k e).
    rewrite hasEvent_pushed. cbn [eventName strict_eq wanted_from Nat.add].
    rewrite Hnew. cbn [negb]. rewrite andb_true_r.
    destruct (String.eqb name k) eqn:E.
    + apply String.eqb_eq in E. subst k. now rewrite Hev.
    + rewrite orb_false_r. simpl. now rewrite Nat.add_0_r.
  - intros o Hin. unfold push_trigger, push_event in Hin. cbn [_events] in Hin.
    apply in_app_or in Hin. destruct Hin as [Hin|[<-|[]]];
      [now apply (hub_names H)|now exists name].
Qed.

Lemma inv_drain em em' g keys log log' :
  hub_inv em g keys log ->
  _states em' = _states em -> _offTriggers em' = _offTriggers em ->
  (forall o, In o (_events em') -> In o (_events em)) ->
  NoDup (map (@eventHash Hook) (_events em')) ->
  (forall a, told a log' = true -> a < List.length keys) ->
  (forall k, List.length (wanted_from 0 k keys (log ++ log'))
             = if hasEvent k em' then 1 else 0) ->
  hub_inv em' g keys (log ++ log').
Proof.
  intros H Hst Htr Hev Hnd Ht Hw. constructor.
  - rewrite Hst. apply (hub_no_states H).
  - intros o Hin. apply (hub_consumers H). now apply Hev.
  - exact Hnd.
  - rewrite Htr. apply (hub_triggers H).
  - apply (hub_keys H).
  - intros a Ha. rewrite told_app in Ha. apply orb_true_iff in Ha.
    destruct Ha as [Ha|Ha]; [now apply (hub_told_known H)|now apply Ht].
  - exact Hw.
  - intros o Hin. apply (hub_names H). now apply Hev.
Qed.

Lemma inv_remove em g keys log hash rendered :
  hub_inv em g keys log ->
  let em' :=
    mkEmitter (filter (fun x => negb (String.eqb (eventHash x) hash)) (_events em))
              (_offTriggers em) (_states em) in
  let name :=
    option_map (@eventName Hook)
               (linq_first (fun x => String.eqb (eventHash x) hash) (_events em)) in
  to_template name = Some rendered ->
  hub_inv em' g keys
    (log ++ if (List.length (getEvents_any name em') <=? 0)%nat
            then map (firing_of null) (triggers_named (getOffEventName rendered) em')
            else [])%list.
Proof.
  intros H em' name Hrend.
  assert (Htr : forall k, triggers_named k em' = filter (named k) (hooks_of 0 keys)).
  { intros k. unfold triggers_named, em'. cbn [_offTriggers]. now rewrite (hub_triggers H). }
  apply (@inv_drain em em' g keys log _ H); try reflexivity.
  - intros o Hin. unfold em' in Hin. cbn [_events] in Hin.
    now apply filter_In in Hin.
  - unfold em'. cbn [_events]. apply NoDup_map_filter, (hub_hashes_distinct H).
  - intros a Ha. destruct (_ <=? 0)%nat; [|discriminate].
    rewrite Htr in Ha. apply told_hooks_out in Ha.
    destruct Ha as (m & h & -> & Hm). apply nth_error_Some. simpl. now rewrite Hm.
  - intros k. unfold name, linq_first in *.
    destruct (find (fun x => String.eqb (eventHash x) hash) (_events em)) as [o|] eqn:Ef.
    + destruct (find_some _ _ Ef) as [Ho Hhash]. apply String.eqb_eq in Hhash.
      destruct (hub_names H o Ho) as [k0 Hk0].
      cbn [option_map getEvents_any] in *. rewrite Hk0 in *.
      cbn [to_template] in Hrend. injection Hrend as <-.
      assert (Hother : forall k', k' <> k0 -> hasEvent k' em' = hasEvent k' em).
      { intros k' Hk. unfold hasEvent, some, em'. cbn [_events].
        apply existsb_filter_kept. intros x Hx Hn.
        apply strict_eq_true in Hn. apply negb_true_iff, String.eqb_neq.
        intros Hh. apply Hk.
        assert (Hx0 : x = o).
        { apply (NoDup_map_injective (@eventHash Hook) (_events em));
            [apply (hub_hashes_distinct H)|exact Hx|exact Ho|congruence]. }
        subst x. rewrite Hk0 in Hn. now injection Hn. }
      assert (Hwas : hasEvent k0 em = true).
      { unfold hasEvent, some. apply existsb_exists. exists o.
        split; [exact Ho|]. rewrite Hk0. cbn [strict_eq]. apply String.eqb_refl. }
      pose proof (hasEvent_counts k0 em') as Hcount.
      destruct (List.length (getEvents k0 em') <=? 0)%nat eqn:El;
        cbn [negb] in Hcount.
      * rewrite Htr. destruct (String.eqb_spec k k0) as [->|Hk].
        -- rewrite Hcount. rewrite wanted_drained; [reflexivity|].
           intros m h Hm. rewrite told_app. apply orb_true_iff. right.
           exact (@told_hooks_in k0 0 keys m h Hm).
        -- rewrite (Hother k Hk), <- (hub_wanted H k). f_equal.
           apply wanted_same. intros m key h Hm ->. rewrite told_app.
           destruct (told (0 + m)
                       (map (firing_of null)
                            (filter (named (getOffEventName k0))
                                    (hooks_of 0 keys)))) eqn:E;
             [|now rewrite orb_false_r].
           apply told_hooks_out in E. destruct E as (m' & h' & Em & Hm').
           simpl in Em. subst m'. rewrite Hm in Hm'. now injection Hm' as -> _.
      * rewrite app_nil_r, (hub_wanted H k).
        destruct (String.eqb_spec k k0) as [->|Hk];
          [now rewrite Hcount, Hwas|now rewrite (Hother k Hk)].
    + cbn [option_map getEvents_any to_template List.length Nat.leb] in *.
      injection Hrend as <-.
      rewrite Htr, hooks_named_none.
      * simpl. rewrite app_nil_r, (hub_wanted H k). f_equal.
        unfold hasEvent, em'. cbn [_events]. now rewrite (find_none_filter _ _ Ef).
      * intros key h Hin E. apply event_name_injective in E.
        now apply (hub_keys H) in Hin.
Qed.

Lemma hub_rendered em g keys log hash :
  hub_inv em g keys log ->
  exists rendered,
    to_template
      (option_map (@eventName Hook)
         (linq_first (fun x => String.eqb (eventHash x) hash) (_events em)))
    = Some rendered.
Proof.
  intros H. unfold linq_first.
  destruct (find _ (_events em)) as [o|] eqn:Ef; [|now eexists].
  destruct (find_some _ _ Ef) as [Ho _].
  destruct (hub_names H o Ho) as [k0 Hk0].
  exists k0. cbn [option_map]. now rewrite Hk0.
Qed.

(** ** The coordinator's operations *)

Lemma hub_ok_same s w' :
  hub_ok s -> hub_same (world s) w' -> hub_ok (mkSys w' (fired s)).
Proof.
  intros H (A1 & A2 & A3). unfold Shared.hub_ok. cbn [world fired].
  rewrite A1, A2, A3. exact H.
Qed.

Lemma cascade_at_hub depth hash (name : option EventNameType) rendered s :
  to_template name = Some rendered ->
  closures_silent (world s) ->
  triggers_named (getOffName hash) (emitter (world s)) = [] ->
  (forall o, In o (_offTriggers (emitter (world s))) -> exists a, callback o = DrainHook a) ->
  let invoked :=
    if (List.length (getEvents_any name (emitter (world s))) <=? 0)%nat
    then map (firing_of null)
             (triggers_named (getOffEventName rendered) (emitter (world s)))
    else [] in
  exists s',
    off_cascade null type_error (run (S depth)) hash name s = Ok tt s' /\
    parked (world s) (world s') invoked /\
    fired s' = (fired s ++ invoked)%list.
Proof.
  intros Hrend Hs Hn Hh.
  assert (Hend : forall s1,
             emitter (world s1) = emitter (world s) ->
             bind (gets (@_events Data Hook))
                  (fun all => when (List.length all <=? 0)%nat
                                   (_offAllEmit null (run (S depth)))) s1
             = Ok tt s1).
  { intros s1 A1. unfold bind, gets.
    destruct (List.length _ <=? 0)%nat; cbn [when]; [|reflexivity].
    unfold _offAllEmit. apply fire_triggers_none. rewrite A1. apply Hs. }
  cbv zeta. unfold off_cascade. unfold bind at 1. unfold _offEmit.
  rewrite (fire_triggers_none null (run (S depth)) (getOffName hash) s Hn).
  unfold bind at 1, gets at 1.
  destruct (List.length (getEvents_any name (emitter (world s))) <=? 0)%nat; cbn [when].
  - unfold bind at 1, _offEventEmit. rewrite Hrend.
    unfold fire_triggers at 1, bind at 1, gets at 1.
    destruct (@fire_hooks depth
                (triggers_named (getOffEventName rendered) (emitter (world s))) s Hs)
      as (rs & s1 & Hm & Hsame & Hlog).
    { intros o Hin. apply Hh. unfold triggers_named in Hin.
      now apply filter_In in Hin. }
    unfold bind at 1. rewrite Hm. unfold ret at 1.
    exists s1. split; [apply Hend, Hsame|]. split; [exact Hsame|exact Hlog].
  - unfold bind at 1, ret at 1. exists s. split; [now apply Hend|].
    split; [apply parked_refl|now rewrite app_nil_r].
Qed.

Lemma hub_subscribe depth name (opener : Opener) (consumer : Consumer) s :
  hub_ok s -> name <> "undefined" ->
  let s' := sys_after (Shared.subscribe null stack_overflow type_error guid consumer_run depth
                                        name opener consumer s) in
  hub_ok s' /\
  exists extra,
    filed (activations (env (world s')))
    = (filed (activations (env (world s))) ++ extra)%list.
Proof.
  intros H Hname s'.
  assert (Hst : hasState name (emitter (world s)) = false).
  { unfold hasState, some. now rewrite (hub_no_states H). }
  destruct (hasEvent name (emitter (world s))) eqn:Hev; unfold s'.
  - rewrite subscribe_joins by assumption. cbn [sys_after]. split.
    + unfold Shared.hub_ok. cbn [world emitter guids env fired]. now apply inv_join.
    + exists []. now rewrite app_nil_r.
  - rewrite subscribe_activates by assumption. cbn [sys_after]. split.
    + unfold Shared.hub_ok.
      cbn [world emitter guids env fired activations].
      unfold filed at 1. rewrite map_app. cbn [map act_key triggerOffEventHash].
      rewrite <- filed_length. now apply inv_activate.
    + cbn [world env activations]. unfold filed at 1. rewrite map_app.
      now eexists.
Qed.

Lemma unsubscribe_at_hub depth hash s :
  hub_ok s -> (exists i, hash = guid i) ->
  exists invoked s',
    Shared.unsubscribe null stack_overflow type_error consumer_run (S depth) hash s = Ok tt s' /\
    parked (world (without hash s)) (world s') invoked /\
    fired s' = (fired s ++ invoked)%list /\
    hub_ok s'.
Proof.
  intros H [i ->].
  destruct (hub_rendered (guid i) H) as [rendered Hrend].
  pose proof (inv_remove (guid i) H Hrend) as Hrem. cbv zeta in Hrem.
  set (s0 := without (guid i) s).
  assert (Htr : _offTriggers (emitter (world s0))
                = hooks_of 0 (filed (activations (env (world s))))).
  { apply (hub_triggers H). }
  destruct (@cascade_at_hub depth (guid i)
              (option_map (@eventName Hook)
                 (linq_first (fun x => String.eqb (eventHash x) (guid i))
                             (_events (emitter (world s))))) rendered s0 Hrend)
    as (s1 & Hc & Hpark & Hlog).
  - exact (inv_silent (world s0) Hrem eq_refl).
  - unfold triggers_named. rewrite Htr. apply hooks_named_none.
    intros key h _ E. symmetry in E. apply off_name_is_event_name in E.
    now apply (guid_plain i key) in E.
  - intros o Hin. rewrite Htr in Hin.
    destruct (hooks_of_In _ _ _ Hin) as (m & key & h & _ & ->). now eexists.
  - eexists. exists s1. unfold Shared.unsubscribe.
    change (off null type_error (run (S depth)) (guid i) s)
      with (try_catch
              (off_cascade null type_error (run (S depth)) (guid i)
                 (option_map (@eventName Hook)
                    (linq_first (fun x => String.eqb (eventHash x) (guid i))
                                (_events (emitter (world s))))))
              (fun _ => ret tt) s0).
    unfold try_catch. rewrite Hc.
    split; [reflexivity|]. split; [exact Hpark|]. split; [exact Hlog|].
    destruct Hpark as (A1 & A2 & A3 & _).
    unfold Shared.hub_ok. rewrite A1, A2, A3, Hlog. exact Hrem.
Qed.

Lemma hub_unsubscribe depth hash s :
  hub_ok s -> (exists i, hash = guid i) ->
  let s' := sys_after (Shared.unsubscribe null stack_overflow type_error consumer_run (S depth)
                                          hash s) in
  hub_ok s' /\
  filed (activations (env (world s'))) = filed (activations (env (world s))).
Proof.
  intros H Hh s'. unfold s'.
  destruct (unsubscribe_at_hub depth H Hh) as (invoked & s1 & -> & Hpark & _ & H1).
  cbn [sys_after]. split; [exact H1|].
  destruct Hpark as (_ & _ & A3 & _). now rewrite A3.
Qed.

Section Apart.

Hypothesis apart : keep_out consumer_run opener_run closer_run.

Lemma run_opener_same a w : hub_same w (run_opener opener_run a w).
Proof.
  unfold run_opener.
  destruct (nth_error (activations (env w)) a) as [act|]; [|apply hub_same_refl].
  destruct (unlistenerPromise act); try apply hub_same_refl.
  destruct apart as (_ & Ho & _).
  destruct (Ho (realCallback act) a (log_effect (OpenerCalled a) w)) as (A1 & A2 & A3).
  unfold hub_same, update_activation, with_env. cbn [emitter guids env activations].
  rewrite filed_update by (intros x; split; reflexivity).
  rewrite A1, A2, A3. repeat split.
Qed.

Lemma opener_settles_same a (st : Unlistener Exn Closer) w :
  hub_same w (opener_settles a st w).
Proof.
  unfold opener_settles.
  destruct (nth_error (activations (env w)) a) as [act|]; [|apply hub_same_refl].
  destruct (unlistenerPromise act), st; try apply hub_same_refl;
    unfold hub_same, update_activation, with_env; cbn [emitter guids env activations];
    rewrite filed_update by (intros x; split; reflexivity); repeat split.
Qed.

Lemma self_off_silent depth act w w' :
  closures_silent w -> In act (activations (env w)) -> hub_same w w' ->
  world (sys_after (off null type_error (run depth) (triggerOffEventHash act) (mkSys w' []))) = w'.
Proof.
  intros (H1 & H2 & H3) Hin (A1 & _). destruct (H3 act Hin) as [Hh Hn].
  rewrite off_silent; [reflexivity| | | |]; cbn [world]; now rewrite A1.
Qed.

Lemma resume_same depth i w :
  closures_silent w ->
  hub_same w (resume null stack_overflow type_error consumer_run closer_run depth i w).
Proof.
  intros Hs. unfold resume.
  destruct (nth_error (suspended (env w)) i) as [a|]; [|apply hub_same_refl].
  destruct (nth_error (activations (env w)) a) as [act|] eqn:Ha; [|apply hub_same_refl].
  apply nth_error_In in Ha.
  set (w0 := with_env _ w).
  assert (H0 : hub_same w w0) by (repeat split).
  destruct (unlistenerPromise act) as [| |[c|]|e]; try apply hub_same_refl.
  - destruct apart as (_ & _ & Hc).
    specialize (Hc c (log_effect (CloserCalled a) w0)).
    destruct (closer_run c (log_effect (CloserCalled a) w0)) as [r w1|e w1];
      cbn [world_after] in Hc.
    + assert (H2 : hub_same w (update_activation a (@forget Exn Opener Closer) w1)).
      { destruct Hc as (A1 & A2 & A3).
        unfold hub_same, update_activation, with_env. cbn [emitter guids env activations].
        rewrite filed_update by (intros x; split; reflexivity).
        rewrite A1, A2, A3. repeat split. }
      now rewrite (@self_off_silent depth act w _ Hs Ha H2).
    + apply (hub_same_trans H0). exact Hc.
  - now rewrite (@self_off_silent depth act w _ Hs Ha H0).
  - exact H0.
Qed.

Lemma deliver_consumers depth (d : Data) (subs : list (EventObject Hook)) s :
  (forall o, In o subs -> exists u, callback o = Consume u) ->
  hub_same (world s) (world (deliver_all (run depth) d subs s)).
Proof.
  revert s. induction subs as [|o subs IH]; intros s H; [apply hub_same_refl|].
  unfold deliver_all. cbn [fold_left].
  apply hub_same_trans with (w1 := world (sys_after (invoke (run depth) d o s))).
  - destruct (H o (or_introl eq_refl)) as [u Hu].
    unfold invoke, call_cb. rewrite Hu.
    destruct apart as (Hc & _).
    specialize (Hc u d (eventHash o) (world s)).
    destruct depth; cbn [Shared.run];
      destruct (consumer_run u d (eventHash o) (world s)); exact Hc.
  - apply IH. intros o' Hin. apply H. now right.
Qed.

Lemma hub_upstream depth a (d : Data) s :
  hub_ok s ->
  let s' := sys_after (upstream_emits null stack_overflow type_error consumer_run depth a d s) in
  hub_ok s' /\
  filed (activations (env (world s'))) = filed (activations (env (world s))).
Proof.
  intros H s'. unfold s', upstream_emits.
  destruct (nth_error (activations (env (world s))) a) as [act|];
    [|split; [exact H|reflexivity]].
  unfold emitAsync, bind, gets. rewrite mapM_async_invoke_handles.
  unfold ret. cbn [sys_after].
  assert (Hsubs : forall o, In o (getEvents (act_key act) (emitter (world s))) ->
                            exists u, callback o = Consume u).
  { intros o Hin. unfold getEvents in Hin. apply filter_In in Hin.
    now apply (hub_consumers H). }
  destruct (@deliver_consumers depth d _ s Hsubs) as (A1 & A2 & A3).
  split; [|exact A3].
  unfold Shared.hub_ok. rewrite A1, A2, A3, fired_deliver_all.
  apply inv_log with (log := fired s); [exact H|].
  intros b. rewrite told_app, told_consumers by exact Hsubs. apply orb_false_r.
Qed.

(** Every step of a program that passes [unsubscribe] identifiers
    [subscribe] can have returned keeps the invariant, and removes no
    activation. *)
Lemma hub_step depth s (x : Action Data Exn Consumer Opener Closer) :
  hub_ok s -> well_formed guid x ->
  hub_ok (step (S depth) s x) /\
  exists extra,
    filed (activations (env (world (step (S depth) s x))))
    = (filed (activations (env (world s))) ++ extra)%list.
Proof.
  intros H Hx. destruct x as [name opener consumer|hash|a|a st|i|a d]; cbn [Shared.step].
  - now apply hub_subscribe.
  - destruct (hub_unsubscribe depth H Hx) as [H1 H2].
    split; [exact H1|]. exists []. now rewrite app_nil_r.
  - pose proof (run_opener_same a (world s)) as Hsame.
    split; [now apply hub_ok_same|]. exists []. rewrite app_nil_r. apply Hsame.
  - pose proof (opener_settles_same a st (world s)) as Hsame.
    split; [now apply hub_ok_same|]. exists []. rewrite app_nil_r. apply Hsame.
  - pose proof (resume_same (S depth) i (inv_silent (world s) H eq_refl)) as Hsame.
    split; [now apply hub_ok_same|]. exists []. rewrite app_nil_r. apply Hsame.
  - destruct (hub_upstream (S depth) a d H) as [H1 H2].
    split; [exact H1|]. exists []. now rewrite app_nil_r.
Qed.

Lemma hub_new (out : Outside) : hub_ok (new_hub out).
Proof.
  constructor; cbn; try easy. constructor.
Qed.

Lemma hub_steps depth s (actions : list (Action Data Exn Consumer Opener Closer)) :
  hub_ok s -> Forall (well_formed guid) actions ->
  hub_ok (fold_left (step (S depth)) actions s) /\
  exists extra,
    filed (activations (env (world (fold_left (step (S depth)) actions s))))
    = (filed (activations (env (world s))) ++ extra)%list.
Proof.
  revert s. induction actions as [|x actions IH]; intros s H Hw.
  - split; [exact H|]. exists []. now rewrite app_nil_r.
  - inversion Hw as [|? ? Hx Hrest]; subst.
    destruct (@hub_step depth s x H Hx) as [H1 [e1 E1]].
    destruct (IH _ H1 Hrest) as [H2 [e2 E2]].
    cbn [fold_left]. split; [exact H2|].
    exists (e1 ++ e2)%list. now rewrite E2, E1, app_assoc.
Qed.

Lemma hub_reached depth (out : Outside)
      (actions : list (Action Data Exn Consumer Opener Closer)) :
  Forall (well_formed guid) actions ->
  hub_ok (run_actions null stack_overflow type_error guid consumer_run opener_run closer_run
                      (S depth) out actions).
Proof. intros Hw. now apply hub_steps; [apply hub_new|]. Qed.

(** X28: one upstream per key in use.  While the program's functions
    do not call the coordinator themselves and [unsubscribe] is given
    identifiers that [subscribe] can have returned, in every state
    reached (on a call stack with room for a closure's own call of
    [off]) a key that has a consumer has exactly one activation whose
    closure the registry has not invoked (one upstream opened or about
    to be, and not told to close), and a key without consumer has
    none. *)
Theorem one_upstream_per_key_in_use depth (out : Outside)
        (actions : list (Action Data Exn Consumer Opener Closer)) k :
  Forall (well_formed guid) actions ->
  let s := run_actions null stack_overflow type_error guid consumer_run opener_run closer_run
                       (S depth) out actions in
  List.length (wanted k s) = if hasEvent k (emitter (world s)) then 1 else 0.
Proof.
  intros Hw s. exact (hub_wanted (hub_reached depth out Hw) k).
Qed.

(** X29: the closure that [subscribe] files for an activation is never
    removed, although it ends with [off] on its own identifier: in every
    state reached the trigger table holds one closure per activation
    ever made, in the order of the activations and under the name of
    the activation's key, and whatever the program does next only adds
    to the table. *)
Theorem closures_stay_filed depth (out : Outside)
        (actions more : list (Action Data Exn Consumer Opener Closer)) :
  Forall (well_formed guid) actions -> Forall (well_formed guid) more ->
  let reach := run_actions null stack_overflow type_error guid consumer_run opener_run closer_run
                           (S depth) out in
  _offTriggers (emitter (world (reach actions)))
  = hooks_of 0 (filed (activations (env (world (reach actions))))) /\
  exists extra,
    _offTriggers (emitter (world (reach (actions ++ more)%list)))
    = (_offTriggers (emitter (world (reach actions))) ++ extra)%list.
Proof.
  intros Hw Hm reach.
  pose proof (hub_reached depth out Hw) as H. fold (reach actions) in H.
  split; [apply (hub_triggers H)|].
  destruct (hub_steps depth H Hm) as [H' [extra E]].
  unfold reach at 1, run_actions. rewrite fold_left_app.
  fold (run_actions null stack_overflow type_error guid consumer_run opener_run closer_run
                    (S depth) out actions).
  fold (reach actions).
  rewrite (hub_triggers H'), (hub_triggers H), E, hooks_of_app. now eexists.
Qed.

End Apart.

(** ** The calls made to the program's functions *)

Section Within.

Hypothesis within : stay_out consumer_run opener_run closer_run.

Lemma beside_same w w' : beside w w' -> hub_same w w'.
Proof. intros (A1 & A2 & A3 & _). repeat split; congruence. Qed.

Lemma within_apart : keep_out consumer_run opener_run closer_run.
Proof.
  destruct within as (Hc & Ho & Hk).
  split; [|split]; intros; apply beside_same; auto.
Qed.

Lemma opened_app a (fx fx' : list Effect) :
  opened a (fx ++ fx') = opened a fx + opened a fx'.
Proof. unfold opened. now rewrite filter_app, length_app. Qed.

Lemma closed_app a (fx fx' : list Effect) :
  closed a (fx ++ fx') = closed a fx || closed a fx'.
Proof. unfold closed. apply existsb_app. Qed.

Lemma nth_update_same {A} a (f : A -> A) (l : list A) x :
  nth_error l a = Some x -> nth_error (update_nth a f l) a = Some (f x).
Proof.
  revert a. induction l as [|y l IH]; intros [|a]; simpl; try easy.
  - now intros [= ->].
  - apply IH.
Qed.

Lemma nth_update_other {A} a b (f : A -> A) (l : list A) :
  b <> a -> nth_error (update_nth a f l) b = nth_error l b.
Proof.
  revert a b. induction l as [|y l IH]; intros [|a] [|b] H; simpl; try easy.
  apply IH. congruence.
Qed.

Lemma update_nth_id {A} a (l : list A) : update_nth a (fun x => x) l = l.
Proof.
  revert a. induction l as [|y l IH]; intros [|a]; simpl; try easy. now rewrite IH.
Qed.

Lemma In_remove_nth {A} i (l : list A) x :
  In x (CacheEmitter.remove_nth i l) -> In x l.
Proof.
  unfold CacheEmitter.remove_nth. intros H. apply in_app_or in H.
  destruct H as [H|H].
  - rewrite <- (firstn_skipn i l). apply in_or_app. now left.
  - rewrite <- (firstn_skipn (S i) l). apply in_or_app. now right.
Qed.

Lemma wanted_untold n k keys log a :
  In a (wanted_from n k keys log) -> told a log = false.
Proof.
  revert n. induction keys as [|[key hash] keys IH]; intros n; cbn [wanted_from]; [easy|].
  destruct (String.eqb key k && negb (told n log)) eqn:E; [|apply IH].
  intros [<-|Hin]; [|now apply IH in Hin].
  apply andb_true_iff in E. destruct E as [_ E]. now apply negb_true_iff in E.
Qed.

(** *** The properties of the calls, operation by operation *)

Lemma fx_parked acts (susp susp' : list nat) (fx : list Effect) log log' :
  effects_inv acts susp fx log ->
  (forall b, In b susp' -> In b susp \/ told b log' = true) ->
  effects_inv acts susp' fx (log ++ log').
Proof.
  intros H Hs. constructor.
  - intros a Ha. rewrite told_app. destruct (Hs a Ha) as [Hin| ->].
    + now rewrite (fx_suspended H a Hin).
    + apply orb_true_r.
  - intros a Ha. destruct (fx_closed H a Ha) as [Ht Hp].
    split; [now rewrite told_app, Ht|exact Hp].
  - apply (fx_opened H).
Qed.

Lemma fx_fewer acts (susp susp' : list nat) (fx : list Effect) log :
  effects_inv acts susp fx log ->
  (forall b, In b susp' -> In b susp) ->
  effects_inv acts susp' fx log.
Proof.
  intros H Hs. constructor.
  - intros a Ha. apply (fx_suspended H). now apply Hs.
  - apply (fx_closed H).
  - apply (fx_opened H).
Qed.

Lemma fx_activate acts (susp : list nat) (fx : list Effect) log name (o : Opener) hash :
  effects_inv acts susp fx log ->
  effects_inv (acts ++ [mkActivation name o Queued false hash])%list susp fx log.
Proof.
  intros H. constructor.
  - apply (fx_suspended H).
  - intros a Ha. destruct (fx_closed H a Ha) as [Ht (act & c & Hn & Hp)].
    split; [exact Ht|]. exists act, c. split; [|exact Hp].
    rewrite nth_error_app1; [exact Hn|]. apply nth_error_Some. now rewrite Hn.
  - intros a. rewrite (fx_opened H a).
    destruct (nth_error acts a) as [act|] eqn:Hn.
    + rewrite nth_error_app1; [now rewrite Hn|]. apply nth_error_Some. now rewrite Hn.
    + apply nth_error_None in Hn. rewrite nth_error_app2 by exact Hn.
      destruct (a - List.length acts) as [|[|j]]; reflexivity.
Qed.

Lemma fx_update acts (susp susp' : list nat) (fx fx' : list Effect) log a act
      (f : Act -> Act) :
  effects_inv acts susp fx log ->
  nth_error acts a = Some act ->
  (forall b, In b susp' -> In b susp) ->
  opened a fx' = match unlistenerPromise (f act) with Queued => 0 | _ => 1 end ->
  (forall b, b <> a -> opened b fx' = opened b fx) ->
  (forall b, closed b fx' = true ->
             (b <> a /\ closed b fx = true) \/
             (b = a /\ told a log = true /\
              exists c, unlistenerPromise (f act) = Opened (Some c))) ->
  effects_inv (update_nth a f acts) susp' fx' log.
Proof.
  intros H Ha Hs Ho Hother Hc. constructor.
  - intros b Hb. apply (fx_suspended H). now apply Hs.
  - intros b Hb. destruct (Hc b Hb) as [[Hne Hold]|(-> & Ht & c & Hpc)].
    + destruct (fx_closed H b Hold) as [Ht (act' & c & Hn & Hp)].
      split; [exact Ht|]. exists act', c. now rewrite nth_update_other.
    + split; [exact Ht|]. exists (f act), c. split; [now apply nth_update_same|exact Hpc].
  - intros b. destruct (Nat.eq_dec b a) as [->|Hne].
    + now rewrite (nth_update_same a f acts Ha), Ho.
    + rewrite nth_update_other by exact Hne. rewrite Hother by exact Hne.
      apply (fx_opened H).
Qed.

Lemma fx_subscribe depth name (opener : Opener) (consumer : Consumer) s :
  hub_ok s -> effects_ok s ->
  effects_ok (sys_after (Shared.subscribe null stack_overflow type_error guid consumer_run depth
                                          name opener consumer s)).
Proof.
  intros H Hfx.
  assert (Hst : hasState name (emitter (world s)) = false).
  { unfold hasState, some. now rewrite (hub_no_states H). }
  destruct (hasEvent name (emitter (world s))) eqn:Hev.
  - rewrite subscribe_joins by assumption. exact Hfx.
  - rewrite subscribe_activates by assumption.
    unfold effects_ok. cbn [sys_after world env fired activations suspended effects].
    now apply fx_activate.
Qed.

Lemma fx_unsubscribe depth hash s :
  hub_ok s -> effects_ok s -> (exists i, hash = guid i) ->
  effects_ok (sys_after (Shared.unsubscribe null stack_overflow type_error consumer_run (S depth)
                                            hash s)).
Proof.
  intros H Hfx Hh.
  destruct (unsubscribe_at_hub depth H Hh)
    as (invoked & s1 & -> & (_ & _ & A3 & A4 & A5) & Hlog & _).
  unfold effects_ok. cbn [sys_after]. rewrite A3, A4, Hlog.
  exact (@fx_parked _ _ _ _ _ _ Hfx A5).
Qed.

Lemma fx_run_opener a s :
  effects_ok s -> effects_ok (mkSys (run_opener opener_run a (world s)) (fired s)).
Proof.
  intros H. unfold effects_ok. cbn [world fired]. unfold run_opener.
  destruct (nth_error (activations (env (world s))) a) as [act|] eqn:Ha; [|exact H].
  destruct (unlistenerPromise act) eqn:Hp; try exact H.
  destruct within as (_ & Ho & _).
  destruct (Ho (realCallback act) a (log_effect (OpenerCalled a) (world s)))
    as (_ & _ & A3 & A4 & A5).
  unfold update_activation, with_env. cbn [env activations suspended effects].
  rewrite A3, A4, A5. cbn [log_effect with_env env activations suspended effects].
  pose proof (fx_opened H a) as Hcount. rewrite Ha, Hp in Hcount.
  apply (@fx_update _ _ _ _ _ _ _ _ (settle_promise Opening) H Ha).
  - auto.
  - rewrite opened_app, Hcount. cbn. now rewrite Nat.eqb_refl.
  - intros b Hb. rewrite opened_app. cbn.
    destruct (Nat.eqb_spec a b) as [->|_]; [easy|]. cbn. lia.
  - intros b Hb. rewrite closed_app in Hb. cbn in Hb. rewrite orb_false_r in Hb.
    left. split; [|exact Hb]. intros ->.
    destruct (fx_closed H a Hb) as [_ (act' & c & Hn & Hc)].
    rewrite Ha in Hn. injection Hn as <-. rewrite Hp in Hc. discriminate.
Qed.

Lemma fx_opener_settles a (st : Unlistener Exn Closer) s :
  effects_ok s -> effects_ok (mkSys (opener_settles a st (world s)) (fired s)).
Proof.
  intros H. unfold effects_ok. cbn [world fired]. unfold opener_settles.
  destruct (nth_error (activations (env (world s))) a) as [act|] eqn:Ha; [|exact H].
  pose proof (fx_opened H a) as Hcount. rewrite Ha in Hcount.
  assert (Hnot : forall b, closed b (effects (env (world s))) = true ->
                           unlistenerPromise act = Opening -> b <> a).
  { intros b Hb Hp ->. destruct (fx_closed H a Hb) as [_ (act' & c & Hn & Hc)].
    rewrite Ha in Hn. injection Hn as <-. rewrite Hp in Hc. discriminate. }
  destruct (unlistenerPromise act) eqn:Hp, st; try exact H;
    unfold update_activation, with_env; cbn [env activations suspended effects];
    apply (@fx_update _ _ _ _ _ _ _ _ (settle_promise _) H Ha); auto;
    intros b Hb; left; (split; [now apply Hnot|exact Hb]).
Qed.

Lemma fx_resume depth i s :
  hub_ok s -> effects_ok s ->
  effects_ok (mkSys (resume null stack_overflow type_error consumer_run closer_run depth i (world s))
                    (fired s)).
Proof.
  intros H Hfx. pose proof (inv_silent (world s) H eq_refl) as Hs.
  unfold effects_ok. cbn [world fired]. unfold resume.
  destruct (nth_error (suspended (env (world s))) i) as [a|] eqn:Hi; [|exact Hfx].
  destruct (nth_error (activations (env (world s))) a) as [act|] eqn:Ha; [|exact Hfx].
  pose proof (nth_error_In _ _ Ha) as Hin.
  set (w0 := with_env _ (world s)).
  assert (H0 : hub_same (world s) w0) by (repeat split).
  assert (Hfewer : effects_inv (activations (env w0)) (suspended (env w0))
                               (effects (env w0)) (fired s)).
  { apply (@fx_fewer _ _ _ _ _ Hfx). apply In_remove_nth. }
  pose proof (fx_opened Hfx a) as Hcount. rewrite Ha in Hcount.
  destruct (unlistenerPromise act) as [| |[c|]|e] eqn:Hp; try exact Hfx.
  - destruct within as (_ & _ & Hc).
    specialize (Hc c (log_effect (CloserCalled a) w0)).
    assert (Hlate : forall b,
               closed b (effects (env (world s)) ++ [CloserCalled a])%list = true ->
               (b <> a /\ closed b (effects (env (world s))) = true) \/
               (b = a /\ told a (fired s) = true /\
                exists c0, unlistenerPromise act = Opened (Some c0))).
    { intros b Hb. rewrite closed_app in Hb. cbn in Hb. rewrite orb_false_r in Hb.
      destruct (Nat.eqb_spec a b) as [E|Hne].
      - subst b. right. split; [reflexivity|]. split; [|now exists c].
        apply (fx_suspended Hfx). exact (nth_error_In _ _ Hi).
      - left. rewrite orb_false_r in Hb. split; [congruence|exact Hb]. }
    assert (Hopened : forall b, opened b (effects (env (world s)) ++ [CloserCalled a])%list
                                = opened b (effects (env (world s)))).
    { intros b. rewrite opened_app. cbn. lia. }
    destruct (closer_run c (log_effect (CloserCalled a) w0)) as [r w1|e w1];
      cbn [world_after] in Hc; destruct Hc as (B1 & B2 & B3 & B4 & B5).
    + rewrite (@self_off_silent depth act (world s) _ Hs Hin).
      * unfold update_activation, with_env. cbn [env activations suspended effects].
        rewrite B3, B4, B5.
        cbn [log_effect with_env w0 env activations suspended effects].
        apply (@fx_update _ _ _ _ _ _ _ _ (@forget Exn Opener Closer) Hfx Ha).
        -- apply In_remove_nth.
        -- rewrite Hopened, Hcount. cbn [forget unlistenerPromise]. now rewrite Hp.
        -- intros b _. apply Hopened.
        -- intros b Hb. cbn [forget unlistenerPromise]. now apply Hlate.
      * unfold hub_same, update_activation, with_env. cbn [emitter guids env activations].
        rewrite filed_update by (intros x; split; reflexivity).
        rewrite B1, B2, B3. repeat split.
    + rewrite B3, B4, B5.
      cbn [log_effect with_env w0 env activations suspended effects].
      rewrite <- (update_nth_id a (activations (env (world s)))).
      apply (@fx_update _ _ _ _ _ _ _ _ (fun x => x) Hfx Ha).
      * apply In_remove_nth.
      * rewrite Hopened, Hcount. now rewrite Hp.
      * intros b _. apply Hopened.
      * intros b Hb. now apply Hlate.
  - now rewrite (@self_off_silent depth act (world s) _ Hs Hin H0).
  - exact Hfewer.
Qed.

Lemma deliver_beside depth (d : Data) (subs : list (EventObject Hook)) s :
  (forall o, In o subs -> exists u, callback o = Consume u) ->
  beside (world s) (world (deliver_all (run depth) d subs s)).
Proof.
  revert s. induction subs as [|o subs IH]; intros s H; [repeat split|].
  unfold deliver_all. cbn [fold_left].
  assert (Hfirst : beside (world s) (world (sys_after (invoke (run depth) d o s)))).
  { destruct (H o (or_introl eq_refl)) as [u Hu].
    unfold invoke, call_cb. rewrite Hu.
    destruct within as (Hc & _).
    specialize (Hc u d (eventHash o) (world s)).
    destruct depth; cbn [Shared.run];
      destruct (consumer_run u d (eventHash o) (world s)); exact Hc. }
  assert (Hrest : beside (world (sys_after (invoke (run depth) d o s)))
                         (world (deliver_all (run depth) d subs
                                   (sys_after (invoke (run depth) d o s))))).
  { apply IH. intros o' Hin. apply H. now right. }
  destruct Hfirst as (A1 & A2 & A3 & A4 & A5), Hrest as (B1 & B2 & B3 & B4 & B5).
  unfold deliver_all in *. repeat split; congruence.
Qed.

Lemma fx_upstream depth a (d : Data) s :
  hub_ok s -> effects_ok s ->
  effects_ok (sys_after (upstream_emits null stack_overflow type_error consumer_run depth a d s)).
Proof.
  intros H Hfx. unfold upstream_emits.
  destruct (nth_error (activations (env (world s))) a) as [act|]; [|exact Hfx].
  unfold emitAsync, bind, gets. rewrite mapM_async_invoke_handles.
  unfold ret. cbn [sys_after].
  assert (Hsubs : forall o, In o (getEvents (act_key act) (emitter (world s))) ->
                            exists u, callback o = Consume u).
  { intros o Hin. unfold getEvents in Hin. apply filter_In in Hin.
    now apply (hub_consumers H). }
  destruct (@deliver_beside depth d _ s Hsubs) as (_ & _ & A3 & A4 & A5).
  unfold effects_ok. rewrite A3, A4, A5, fired_deliver_all.
  apply (@fx_parked _ _ _ _ _ _ Hfx). intros b Hb. now left.
Qed.

Lemma fx_step depth s (x : Action Data Exn Consumer Opener Closer) :
  hub_ok s -> effects_ok s -> well_formed guid x ->
  effects_ok (step (S depth) s x).
Proof.
  intros H Hfx Hx.
  destruct x as [name opener consumer|hash|a|a st|i|a d]; cbn [Shared.step].
  - now apply fx_subscribe.
  - now apply fx_unsubscribe.
  - now apply fx_run_opener.
  - now apply fx_opener_settles.
  - now apply fx_resume.
  - now apply fx_upstream.
Qed.

Lemma fx_reached depth (out : Outside)
      (actions : list (Action Data Exn Consumer Opener Closer)) :
  Forall (well_formed guid) actions ->
  let s := run_actions null stack_overflow type_error guid consumer_run opener_run closer_run
                       (S depth) out actions in
  hub_ok s /\ effects_ok s.
Proof.
  intros Hw. cbv zeta. unfold run_actions.
  assert (Hnew : hub_ok (new_hub out) /\
                 effects_ok (new_hub (Data:=Data) (Exn:=Exn) (Consumer:=Consumer)
                                     (Opener:=Opener) (Closer:=Closer) out)).
  { split; [apply hub_new|]. constructor; cbn; try easy.
    intros a. now destruct a. }
  revert Hnew. generalize (new_hub (Data:=Data) (Exn:=Exn) (Consumer:=Consumer)
                                   (Opener:=Opener) (Closer:=Closer) out).
  induction Hw as [|x actions Hx Hw IH]; intros s [H Hfx]; [now split|].
  cbn [fold_left]. apply IH. split.
  - exact (proj1 (@hub_step within_apart depth s x H Hx)).
  - now apply fx_step.
Qed.

(** X30: the upstream of a key is opened once and not closed while
    the key is in use.  While the program's functions change nothing of
    the coordinator and [unsubscribe] is given identifiers that
    [subscribe] can have returned, in every state reached
    [realCallback] has been called at most once for each activation; a
    closing function has been called only for an activation whose
    [realCallback] has been called and whose closure the registry has
    invoked; and a key that has a consumer has one activation whose
    closure has not been invoked, for which no closing function has been
    called. *)
Theorem upstream_opened_once_closed_late depth (out : Outside)
        (actions : list (Action Data Exn Consumer Opener Closer)) :
  Forall (well_formed guid) actions ->
  let s := run_actions null stack_overflow type_error guid consumer_run opener_run closer_run
                       (S depth) out actions in
  let fx := effects (env (world s)) in
  (forall a, opened a fx <= 1) /\
  (forall a, closed a fx = true -> opened a fx = 1 /\ told a (fired s) = true) /\
  (forall k, hasEvent k (emitter (world s)) = true ->
             exists a, wanted k s = [a] /\ closed a fx = false).
Proof.
  intros Hw s fx. destruct (fx_reached depth out Hw) as [H Hfx].
  fold s in H, Hfx. split; [|split].
  - intros a. unfold fx. rewrite (fx_opened Hfx a).
    destruct (nth_error _ a) as [act|]; [|lia].
    destruct (unlistenerPromise act); lia.
  - intros a Ha. destruct (fx_closed Hfx a Ha) as [Ht (act & c & Hn & Hp)].
    split; [|exact Ht]. unfold fx. now rewrite (fx_opened Hfx a), Hn, Hp.
  - intros k Hk. pose proof (hub_wanted H k) as Hone. rewrite Hk in Hone.
    fold (wanted k s) in Hone.
    destruct (wanted k s) as [|a [|b r]] eqn:E; try discriminate.
    exists a. split; [reflexivity|].
    destruct (closed a fx) eqn:Hc; [|reflexivity].
    destruct (fx_closed Hfx a Hc) as [Ht _].
    assert (Hin : In a (wanted k s)) by (rewrite E; now left).
    apply wanted_untold in Hin. congruence.
Qed.

End Within.

End HubFacts.

(** * The properties on concrete registries *)

Lemma tally_injective i j : Sample.tally i = Sample.tally j -> i = j.
Proof.
  revert j. induction i as [|i IH]; intros [|j]; simpl; try easy.
  intros [= H]. f_equal. now apply IH.
Qed.

Lemma sample_guid_injective i j : Sample.guid i = Sample.guid j -> i = j.
Proof. unfold Sample.guid. intros [= H]. now apply tally_injective. Qed.

Lemma quiet_keeps_snapshots cb d h (w : Sample.SWorld) :
  states_unique (emitter w) ->
  states_unique (emitter (world_after (Sample.quiet cb d h w))).
Proof. destruct cb; intros H; exact H. Qed.

(** Emitting [y] on a registry with one subscription, to [x]. *)
Lemma emit_without_subscribers_witness :
  hasEvent "y" (emitter (world Sample.plain)) = false /\
  (emitSync Sample.quiet "y" (Sample.js_num 1) Sample.plain = Ok tt Sample.plain /\
   emitAsync Sample.quiet "y" (Sample.js_num 1) Sample.plain
   = Ok (AllOf []) Sample.plain /\
   Legacy.emitAsync Sample.quiet "y" (Sample.js_num 1) Sample.plain
   = Ok (AllOf []) Sample.plain /\
   forall hist, completion_status (AllOf []) hist = @Fulfilled string).
Proof.
  split; [reflexivity|].
  apply (emit_without_subscribers Sample.quiet "y" (Sample.js_num 1) Sample.plain).
  reflexivity.
Defined.

(** Subscribing to [x] some time after the snapshot 1 was stored. *)
Lemma subscribe_replays_snapshot_witness :
  strict_eq "x" "x" = true /\
  getState "x" (emitter (world Sample.later))
  = getState "x" (emitter (world Sample.stored)) /\
  getState "x" (emitter (world Sample.stored)) = Some (Sample.js_num 1) /\
  on Sample.guid Sample.quiet "x" 1 Sample.later
  = Ok (Sample.guid 1)
       (mkSys (subscribed Sample.guid "x" 1 Sample.later)
              [mkFiring 1 (Sample.js_num 1) (Sample.guid 1)]).
Proof.
  split; [reflexivity|]. split; [reflexivity|].
  apply (subscribe_replays_snapshot Sample.guid Sample.quiet "x" (Sample.js_num 1) 1
           Sample.plain Sample.later); reflexivity.
Defined.

(** C6 as stated fails for the name [NaN]: [emitStateSync] stores the
    snapshot, but [hasState], which compares with [===], does not find
    it, and a subscription then made to [NaN] is replayed nothing. *)
Lemma subscribe_misses_snapshot_of_nan :
  _states (emitter (world Scenario.nan_stored))
  = [mkState (NameNumber NaN) (Sample.js_num 1)] /\
  hasState (NameNumber NaN) (emitter (world Scenario.nan_stored)) = false /\
  on Sample.guid Sample.quiet (NameNumber NaN) 3 Scenario.nan_stored
  = Ok (Sample.guid 0)
       (mkSys (subscribed Sample.guid (NameNumber NaN) 3 Scenario.nan_stored) []) /\
  fired (sys_after (on Sample.guid Sample.quiet (NameNumber NaN) 3 Scenario.nan_stored))
  <> [mkFiring 3 (Sample.js_num 1) (Sample.guid 0)].
Proof.
  split; [reflexivity|]. split; [reflexivity|]. split; [reflexivity|].
  discriminate.
Qed.

(** Two snapshots stored for [x] one after the other, then a
    subscription and a removal. *)
Lemma one_snapshot_per_name_witness :
  (forall cb d h (w : Sample.SWorld),
      states_unique (emitter w) ->
      states_unique (emitter (world_after (Sample.quiet cb d h w)))) /\
  strict_eq "x" "x" = true /\
  List.length
    (snapshots_of "x"
       (emitter (world (perform_all Sample.js_null Sample.js_undefined Sample.guid "TypeError" strict_eq
                          Sample.quiet
                          [OpEmitStateSync nat "x" (Sample.js_num 1);
                           OpEmitStateAsync nat "x" (Sample.js_num 2);
                           OpOn Sample.Js "x" 0;
                           OpRemoveState Sample.Js nat "y"]
                          (fresh_sys Sample.Js nat 0 tt))))) <= 1.
Proof.
  split; [exact quiet_keeps_snapshots|]. split; [reflexivity|].
  apply (proj1 (one_snapshot_per_name Sample.js_null Sample.js_undefined Sample.guid
                  "TypeError" strict_eq Sample.quiet quiet_keeps_snapshots)).
  reflexivity.
Defined.

(** C9 as stated fails for the name [NaN]: [removeState] keeps every
    snapshot that is not [===] to the name, those stored with [NaN]
    among them, so that a second [emitStateSync] of [NaN] leaves two
    snapshots stored with that name. *)
Lemma two_snapshots_named_nan :
  _states (emitter (world Scenario.nan_stored_twice))
  = [mkState (NameNumber NaN) (Sample.js_num 1);
     mkState (NameNumber NaN) (Sample.js_num 2)] /\
  List.length (snapshots_of (NameNumber NaN) (emitter (world Scenario.nan_stored_twice)))
  = 2 /\
  ~ List.length (snapshots_of (NameNumber NaN) (emitter (world Scenario.nan_stored_twice)))
    <= 1.
Proof.
  split; [reflexivity|]. split; [reflexivity|].
  intros H. vm_compute in H. lia.
Qed.

(** Unsubscribing the only subscription: the four triggers fire in turn. *)
Lemma off_fires_cascade_witness :
  linq_first (fun m => String.eqb (eventHash m) "h1")
             (_events (emitter (world (Sample.watched 0))))
  = Some (mkEvent "x" "h1" 0) /\
  is_symbol (eventName (mkEvent "x" "h1" 0)) = false /\
  unsubscribe_quiet Sample.js_null Sample.quiet "h1" (mkEvent "x" "h1" 0)
                    (Sample.watched 0) /\
  _events (emitter (world (sys_after (off Sample.js_null "TypeError" Sample.quiet "h1"
                                          (Sample.watched 0)))))
  = [] /\
  unsubscribe_cascade Sample.js_null "TypeError" Sample.quiet "h1" (mkEvent "x" "h1" 0)
                      (Sample.watched 0).
Proof.
  split; [reflexivity|]. split; [reflexivity|].
  assert (Hq : unsubscribe_quiet Sample.js_null Sample.quiet "h1" (mkEvent "x" "h1" 0)
                                 (Sample.watched 0)).
  { repeat split; intros; reflexivity. }
  split; [exact Hq|].
  pose proof (@off_fires_cascade _ Sample.js_null _ _ _ "TypeError" Sample.quiet "h1"
                (mkEvent "x" "h1" 0) (Sample.watched 0) eq_refl)
    as (_ & _ & Htable & Hcascade).
  split.
  - apply Htable. intros [|cb] d h w; reflexivity.
  - apply Hcascade; [reflexivity|exact Hq].
Defined.

(** C4 as stated fails: the first trigger of the identifier throws, and
    neither the second trigger of the identifier nor the triggers of the
    drained name and of the emptied registry are fired. *)
Lemma off_cascade_cut_by_throwing_trigger :
  linq_first (fun m => String.eqb (eventHash m) "h1")
             (_events (emitter (world (Sample.watched 1))))
  = Some (mkEvent "x" "h1" 0) /\
  triggers_named (getOffName "h1") (emitter (world (Sample.watched 1)))
  = [mkEvent (getOffName "h1") "t1" 1; mkEvent (getOffName "h1") "t1b" 0] /\
  off Sample.js_null "TypeError" Sample.faulty "h1" (Sample.watched 1)
  = Ok tt (mkSys (world (without "h1" (Sample.watched 1)))
                 [mkFiring 1 Sample.js_null "t1"]) /\
  ~ unsubscribe_cascade Sample.js_null "TypeError" Sample.faulty "h1" (mkEvent "x" "h1" 0)
                        (Sample.watched 1).
Proof.
  split; [reflexivity|]. split; [reflexivity|]. split; [reflexivity|].
  intros [H _]. vm_compute in H. discriminate H.
Qed.

(** A subscription named by a symbol: rendering the name throws inside
    the [try] block of [off], so that the triggers of the whole registry
    are not fired although the registry is empty and no trigger throws;
    the subscription is removed all the same. *)
Example off_of_symbol_name :
  off Sample.js_null "TypeError" Sample.quiet "h1" Scenario.symbol_named
  = Ok tt (mkSys (world (without "h1" Scenario.symbol_named))
                 [mkFiring 1 Sample.js_null "t1"]) /\
  _events (emitter (world (without "h1" Scenario.symbol_named))) = [] /\
  firings_named Sample.js_null getOffAllName Scenario.symbol_named
  = [mkFiring 3 Sample.js_null "t3"].
Proof. repeat split. Qed.

(** The number 1 and the string of the character [1] are different
    names with one rendering: unsubscribing the last subscription to
    the number fires the trigger filed for the string. *)
Example off_of_number_name :
  strict_eq (NameNumber (Num "1")) (NameString "1") = false /\
  fired (sys_after (off Sample.js_null "TypeError" Sample.quiet "h1" Scenario.number_named))
  = [mkFiring 2 Sample.js_null "t2"].
Proof. split; reflexivity. Qed.

(** Clearing the registry: the four triggers fire in turn. *)
Lemma offAll_fires_cascade_witness :
  clear_quiet Sample.js_null strict_eq Sample.quiet (Sample.watched 0) /\
  clear_cascade Sample.js_null "TypeError" strict_eq Sample.quiet (Sample.watched 0).
Proof.
  assert (Hq : clear_quiet Sample.js_null strict_eq Sample.quiet (Sample.watched 0)).
  { repeat split; reflexivity. }
  split; [exact Hq|].
  apply (proj2 (offAll_fires_cascade Sample.js_null "TypeError" strict_eq Sample.quiet
                  (Sample.watched 0))).
  - intros o [<-|[]]. reflexivity.
  - exact Hq.
Defined.

(** C5 as stated fails: the first trigger of the identifier throws, and
    no other trigger is fired, those of the whole registry included; the
    subscriptions are removed all the same. *)
Lemma offAll_cascade_cut_by_throwing_trigger :
  offAll Sample.js_null "TypeError" strict_eq Sample.faulty (Sample.watched 1)
  = Ok tt (mkSys (world (cleared_of_subscriptions (Sample.watched 1)))
                 [mkFiring 1 Sample.js_null "t1"]) /\
  firings_named Sample.js_null getOffAllName (Sample.watched 1)
  = [mkFiring 0 Sample.js_null "t3"] /\
  ~ clear_cascade Sample.js_null "TypeError" strict_eq Sample.faulty (Sample.watched 1).
Proof.
  split; [reflexivity|]. split; [reflexivity|].
  intros [H _]. vm_compute in H. discriminate H.
Qed.

(** [offAll] fires the triggers scope by scope; unsubscribing the
    subscriptions one by one fires the same triggers subscription by
    subscription. *)
Example offAll_fires_scope_by_scope :
  map (@fired_callback Sample.Js nat)
      (fired (sys_after (offAll Sample.js_null "TypeError" strict_eq Sample.quiet Sample.two_names)))
  = [1; 2; 3; 4; 5] /\
  map (@fired_callback Sample.Js nat)
      (fired (sys_after (off Sample.js_null "TypeError" Sample.quiet "h2"
                           (sys_after (off Sample.js_null "TypeError" Sample.quiet "h1"
                                         Sample.two_names)))))
  = [1; 3; 2; 4; 5].
Proof. split; reflexivity. Qed.

(** Unsubscribing an unknown identifier where no trigger is filed. *)
Lemma off_unknown_identifier_witness :
  has "nope" (emitter (world Sample.plain)) = false /\
  _events (emitter (world (sys_after (off Sample.js_null "TypeError" Sample.quiet "nope"
                                          Sample.plain))))
  = _events (emitter (world Sample.plain)) /\
  unsubscribe_noop Sample.js_null "TypeError" Sample.quiet "nope" Sample.plain /\
  Legacy.off Sample.js_undefined Sample.quiet "nope" Sample.plain = Ok tt Sample.plain.
Proof.
  split; [reflexivity|].
  pose proof (off_unknown_identifier Sample.js_null Sample.js_undefined "TypeError"
                Sample.quiet "nope" Sample.plain eq_refl)
    as (_ & _ & Htable & Hnoop & Hlegacy).
  split; [|split].
  - apply Htable. intros [|cb] d h w; reflexivity.
  - apply Hnoop.
    + reflexivity.
    + reflexivity.
    + intros _. reflexivity.
  - apply Hlegacy. reflexivity.
Defined.

(** C7 as stated fails: the trigger filed for an identifier is fired
    when that identifier is unsubscribed, whether or not a subscription
    carries it. *)
Lemma off_unknown_identifier_fires_trigger :
  has "h1" (emitter (world Sample.revisited)) = false /\
  fired (sys_after (off Sample.js_null "TypeError" Sample.quiet "h1" Sample.revisited))
  = [mkFiring 0 Sample.js_null "t1"] /\
  ~ unsubscribe_noop Sample.js_null "TypeError" Sample.quiet "h1" Sample.revisited.
Proof.
  split; [reflexivity|]. split; [reflexivity|].
  intros H. vm_compute in H. discriminate H.
Qed.

(** On a registry without subscriptions, unsubscribing an unknown
    identifier fires the trigger of the whole registry as well. *)
Example off_unknown_identifier_clears_again :
  has "nope" (emitter (world Sample.idle)) = false /\
  fired (sys_after (off Sample.js_null "TypeError" Sample.quiet "nope" Sample.idle))
  = [mkFiring 0 Sample.js_null "t3"].
Proof. split; reflexivity. Qed.



(** C8 is broken by [off] of the earlier registry: it runs the trigger
    through [emitSync] without a handler, so that what the trigger throws
    reaches the caller of [off]; [off] of the registry with the trigger
    table catches it ([off_returns_normally]). *)
Theorem legacy_off_propagates :
  fired (sys_after (Legacy.off Sample.js_undefined Sample.faulty "h1"
                      Sample.legacy_watched))
  = [mkFiring 1 Sample.js_undefined "h2"] /\
  Legacy.off Sample.js_undefined Sample.faulty "h1" Sample.legacy_watched
  = Raise "boom"
      (mkSys (mkWorld (mkEmitter [mkEvent "off_h1" "h2" 1] [] []) 0 tt)
             [mkFiring 1 Sample.js_undefined "h2"]) /\
  ~ exists s', Legacy.off Sample.js_undefined Sample.faulty "h1" Sample.legacy_watched
               = Ok tt s'.
Proof.
  split; [reflexivity|]. split; [reflexivity|].
  intros [s' H]. vm_compute in H. discriminate H.
Qed.

(** The same trigger, filed in the trigger table: [off] returns. *)
Example off_returns_despite_throwing_trigger :
  raised (off Sample.js_null "TypeError" Sample.faulty "h1" (Sample.watched 1)) = false.
Proof. reflexivity. Qed.

(** Two callers of [query1], and a third one once the producer runs. *)
Lemma call_single_flight_witness :
  (forall i j, Sample.guid i = Sample.guid j -> i = j) /\
  forallb (fun a => negb (CacheEmitter.is_settle a)) Sample.two_callers = true /\
  hasEvent "query1" (emitter (CacheEmitter._emitter (Sample.run_actions Sample.two_callers)))
  = true /\
  CacheEmitter.count_key "query1"
    (CacheEmitter.invoked (Sample.run_actions Sample.two_callers)) <= 1 /\
  CacheEmitter.scheduled
    (snd (CacheEmitter.call 0 Sample.guid Sample.no_trigger "query1" 8
            (Sample.run_actions Sample.two_callers)))
  = CacheEmitter.scheduled (Sample.run_actions Sample.two_callers).
Proof.
  split; [exact sample_guid_injective|].
  split; [reflexivity|]. split; [reflexivity|].
  pose proof (call_single_flight 0 Sample.guid Sample.no_trigger sample_guid_injective
                Sample.two_callers "query1") as (_ & _ & Honce & Hgate & _).
  split.
  - apply Honce. reflexivity.
  - apply (Hgate 8). reflexivity.
Defined.

(** The producer for [query1] rejects with 13 while two callers wait. *)
Lemma rejection_delivered_as_resolution_witness :
  (forall i j, Sample.guid i = Sample.guid j -> i = j) /\
  let c := Sample.run_actions Sample.two_callers in
  let failed := CacheEmitter.Settle nat 0 (CacheEmitter.Rejects 13) in
  let succeeded := CacheEmitter.Settle nat 0 (CacheEmitter.Resolves 13) in
  nth_error (CacheEmitter.in_flight c) 0 = Some (CacheEmitter.mkTask "query1" 7) /\
  In 1 (CacheEmitter.waiting_on "query1" c) /\
  CacheEmitter.step 0 Sample.guid Sample.no_trigger c failed
  = CacheEmitter.step 0 Sample.guid Sample.no_trigger c succeeded /\
  CacheEmitter._emitter (CacheEmitter.step 0 Sample.guid Sample.no_trigger c failed)
  = snd (CacheEmitter.broadcast 0 Sample.no_trigger "query1" 13 (CacheEmitter._emitter c)) /\
  CacheEmitter.promise_state 1 (env (CacheEmitter._emitter c)) = None /\
  CacheEmitter.promise_state 1
    (env (CacheEmitter._emitter (CacheEmitter.step 0 Sample.guid Sample.no_trigger c failed)))
  = Some (CacheEmitter.Resolved 13).
Proof.
  split; [exact sample_guid_injective|].
  cbv zeta. split; [reflexivity|]. split; [right; left; reflexivity|].
  apply (rejection_delivered_as_resolution 0 Sample.guid Sample.no_trigger sample_guid_injective
           Sample.two_callers 0 (t:=CacheEmitter.mkTask "query1" 7) 13 1).
  - reflexivity.
  - right. left. reflexivity.
Defined.

(** The test of the repository: two concurrent calls of [query1] whose
    producer yields 42 both resolve with 42, and the producer ran once. *)
Example two_calls_one_producer :
  let c := Sample.run_actions
             (Sample.two_callers
              ++ [CacheEmitter.Settle nat 0 (CacheEmitter.Resolves 42)])%list in
  CacheEmitter.invoked c = [CacheEmitter.mkTask "query1" 7] /\
  CacheEmitter.promise_state 0 (env (CacheEmitter._emitter c))
  = Some (CacheEmitter.Resolved 42) /\
  CacheEmitter.promise_state 1 (env (CacheEmitter._emitter c))
  = Some (CacheEmitter.Resolved 42) /\
  _events (emitter (CacheEmitter._emitter c)) = [].
Proof. vm_compute. repeat split. Qed.

(** ** The tests of the repository *)

(** "off & offEvent & offAll" *)
Example test_off_offEvent_offAll :
  List.length (_events (emitter (world (Sample.after_ops Sample.four_subscriptions)))) = 4 /\
  map (@eventHash nat)
      (_events (emitter (world (Sample.after_ops
         (Sample.four_subscriptions ++ [OpOff Sample.Js nat (Sample.guid 0)])%list))))
  = [Sample.guid 1; Sample.guid 2; Sample.guid 3] /\
  map (@eventHash nat)
      (_events (emitter (world (Sample.after_ops
         (Sample.four_subscriptions
          ++ [OpOff Sample.Js nat (Sample.guid 0); OpOffEvent Sample.Js nat "test3"])%list))))
  = [Sample.guid 1] /\
  _events (emitter (world (Sample.after_ops
     (Sample.four_subscriptions
      ++ [OpOff Sample.Js nat (Sample.guid 0); OpOffEvent Sample.Js nat "test3";
          OpOffAll Sample.Js nat])%list)))
  = [].
Proof. vm_compute. repeat split. Qed.

(** "has & hasEvent & hasCallback" *)
Example test_has_hasEvent :
  let em := emitter (world (Sample.after_ops Sample.four_subscriptions)) in
  hasEvent "test1" em = true /\ hasEvent "test3" em = true /\
  hasEvent "test4" em = false /\
  has "test1" em = false /\ has (Sample.guid 0) em = true /\ has (Sample.guid 3) em = true.
Proof. vm_compute. repeat split. Qed.

(** "check state": the subscription made after [emitStateSync] gets the
    snapshot at once; the one made after a plain [emitSync] gets nothing. *)
Example test_check_state :
  fired (Sample.after_ops
           [OpOn Sample.Js "test1" 1; OpOn Sample.Js "test2" 2;
            OpEmitStateSync nat "test1" (Sample.js_num 1);
            OpEmitSync nat "test2" (Sample.js_num 1);
            OpOn Sample.Js "test1" 3; OpOn Sample.Js "test2" 4])
  = [mkFiring 1 (Sample.js_num 1) (Sample.guid 0);
     mkFiring 2 (Sample.js_num 1) (Sample.guid 1);
     mkFiring 3 (Sample.js_num 1) (Sample.guid 2)].
Proof. reflexivity. Qed.

(** "off triggers": unsubscribing [test1] fires its two triggers only;
    unsubscribing the event [test2] then fires the two of [test2] and the
    one of the whole registry. *)
Example test_off_triggers :
  map (@fired_callback Sample.Js nat)
      (fired (Sample.after_ops
                (Sample.five_triggers ++ [OpOff Sample.Js nat (Sample.guid 0)])%list))
  = [1; 3] /\
  map (@fired_callback Sample.Js nat)
      (fired (Sample.after_ops
                (Sample.five_triggers
                 ++ [OpOff Sample.Js nat (Sample.guid 0);
                     OpOffEvent Sample.Js nat "test2"])%list))
  = [1; 3; 2; 4; 5].
Proof. vm_compute. repeat split. Qed.

(** * The further properties on concrete registries *)

(** An emit of [x] whose first subscriber clears the table: the second
    one, found when the emit began, is invoked all the same. *)
Lemma emitSync_delivers_in_order_witness :
  delivers_quietly Scenario.meddling (Sample.js_num 5)
    (getEvents "x" (emitter (world Scenario.pair))) Scenario.pair /\
  emitSync Scenario.meddling "x" (Sample.js_num 5) Scenario.pair
  = Ok tt (mkSys (mkWorld (mkEmitter [] [] []) 0 tt)
                 [mkFiring 1 (Sample.js_num 5) "h1"; mkFiring 0 (Sample.js_num 5) "h2"]).
Proof.
  assert (Hq : delivers_quietly Scenario.meddling (Sample.js_num 5)
                 (getEvents "x" (emitter (world Scenario.pair))) Scenario.pair)
    by (repeat split).
  split; [exact Hq|].
  exact (proj1 (emitSync_delivers_in_order Scenario.meddling "x" (Sample.js_num 5)
                  Scenario.pair Hq)).
Defined.

(** The second of three subscribers throws: the third is not invoked. *)
Lemma emitSync_stops_at_throw_witness :
  getEvents "x" (emitter (world Scenario.three))
  = ([mkEvent "x" "h1" 0] ++ mkEvent "x" "h2" 1 :: [mkEvent "x" "h3" 0])%list /\
  delivers_quietly Sample.faulty (Sample.js_num 5) [mkEvent "x" "h1" 0] Scenario.three /\
  Sample.faulty 1 (Sample.js_num 5) "h2"
    (world (deliver_all Sample.faulty (Sample.js_num 5) [mkEvent "x" "h1" 0] Scenario.three))
  = Threw "boom" (world Scenario.three) /\
  emitSync Sample.faulty "x" (Sample.js_num 5) Scenario.three
  = Raise "boom" (mkSys (world Scenario.three) (Scenario.first_two (Sample.js_num 5))).
Proof.
  split; [reflexivity|]. split; [simpl; auto|]. split; [reflexivity|].
  apply (emitSync_stops_at_throw Sample.faulty "x" (Sample.js_num 5) Scenario.three
           [mkEvent "x" "h1" 0] (mkEvent "x" "h2" 1) [mkEvent "x" "h3" 0]).
  - reflexivity.
  - simpl. auto.
  - reflexivity.
Defined.

(** The same emit, asynchronous: all three subscribers are invoked, and
    the promise is rejected with what the second one threw. *)
Example emitAsync_goes_on_after_throw :
  emitAsync Sample.faulty "x" (Sample.js_num 5) Scenario.three
  = Ok (AllOf [HReturned RVoid; HThrown "boom"; HReturned RVoid])
       (mkSys (world Scenario.three)
              (Scenario.first_two (Sample.js_num 5) ++ [mkFiring 0 (Sample.js_num 5) "h3"])) /\
  completion_status (AllOf [HReturned RVoid; HThrown "boom"; HReturned RVoid]) []
  = Rejected "boom".
Proof. split; reflexivity. Qed.

(** In the earlier registry the third subscriber is not invoked. *)
Lemma legacy_emitAsync_stops_at_throw_witness :
  getEvents "x" (emitter (world Scenario.three))
  = ([mkEvent "x" "h1" 0] ++ mkEvent "x" "h2" 1 :: [mkEvent "x" "h3" 0])%list /\
  delivers_quietly Sample.faulty (Sample.js_num 5) [mkEvent "x" "h1" 0] Scenario.three /\
  Sample.faulty 1 (Sample.js_num 5) "h2"
    (world (deliver_all Sample.faulty (Sample.js_num 5) [mkEvent "x" "h1" 0] Scenario.three))
  = Threw "boom" (world Scenario.three) /\
  Legacy.emitAsync Sample.faulty "x" (Sample.js_num 5) Scenario.three
  = Ok (Failed "boom")
       (mkSys (world Scenario.three) (Scenario.first_two (Sample.js_num 5))) /\
  forall hist, completion_status (Failed "boom") hist = Rejected "boom".
Proof.
  split; [reflexivity|]. split; [simpl; auto|]. split; [reflexivity|].
  apply (legacy_emitAsync_stops_at_throw Sample.faulty "x" (Sample.js_num 5) Scenario.three
           [mkEvent "x" "h1" 0] (mkEvent "x" "h2" 1) [mkEvent "x" "h3" 0]).
  - reflexivity.
  - simpl. auto.
  - reflexivity.
Defined.

(** Unsubscribing the name [x] where [y] stays subscribed: the triggers
    of the identifier and of the name fire, not those of the registry. *)
Lemma offEvent_fires_cascade_witness :
  is_symbol "x" = false /\
  drain_quiet Sample.js_null Sample.quiet "x" Sample.two_names /\
  hasEvent "x"
    (emitter (world (sys_after (offEvent Sample.js_null "TypeError" Sample.quiet "x"
                                         Sample.two_names))))
  = false /\
  drain_cascade Sample.js_null "TypeError" Sample.quiet "x" Sample.two_names /\
  map (@fired_callback Sample.Js nat)
      (fired (sys_after (offEvent Sample.js_null "TypeError" Sample.quiet "x" Sample.two_names)))
  = [1; 3].
Proof.
  split; [reflexivity|].
  assert (Hq : drain_quiet Sample.js_null Sample.quiet "x" Sample.two_names).
  { repeat split; intros; reflexivity. }
  split; [exact Hq|].
  pose proof (offEvent_fires_cascade Sample.js_null "TypeError" Sample.quiet "x"
                Sample.two_names) as (_ & _ & Htable & Hcascade & _).
  split; [|split; [|reflexivity]].
  - apply Htable. intros [|cb] d h w; reflexivity.
  - apply Hcascade; [reflexivity|exact Hq].
Defined.

(** Unsubscribing a name nobody subscribed to, on a registry without
    subscription: the triggers of the name and of the registry fire. *)
Example offEvent_of_unknown_name :
  map (@fired_callback Sample.Js nat)
      (fired (sys_after (offEvent Sample.js_null "TypeError" Sample.quiet "x"
                (Sample.sys_of (mkEmitter []
                   [mkEvent (getOffEventName "x") "t1" 1; mkEvent getOffAllName "t2" 2]
                   [])))))
  = [1; 2].
Proof. reflexivity. Qed.

(** A second subscription to [x]. *)
Lemma on_appends_subscription_witness :
  hasState "x" (emitter (world Sample.plain)) = false /\
  strict_eq "x" "x" = true /\
  on Sample.guid Sample.quiet "x" 7 Sample.plain
  = Ok (Sample.guid 0)
       (mkSys (mkWorld (mkEmitter [mkEvent "x" "h1" 0; mkEvent "x" (Sample.guid 0) 7] [] [])
                       1 tt) []) /\
  hasEvent "x" (emitter (subscribed Sample.guid "x" 7 Sample.plain)) = true.
Proof.
  split; [reflexivity|]. split; [reflexivity|].
  pose proof (on_appends_subscription Sample.guid Sample.quiet "x" 7 Sample.plain eq_refl)
    as (Hon & _ & _ & _ & Hfound & _).
  split; [exact Hon|]. apply Hfound. reflexivity.
Defined.

(** Subscribing to [y] and unsubscribing at once. *)
Lemma on_then_off_restores_witness :
  hasState "y" (emitter (world Sample.plain)) = false /\
  has (Sample.guid 0) (emitter (world Sample.plain)) = false /\
  exists s1,
    on Sample.guid Sample.quiet "y" 7 Sample.plain = Ok (Sample.guid 0) s1 /\
    has (Sample.guid 0) (emitter (world s1)) = true /\
    off Sample.js_null "TypeError" Sample.quiet (Sample.guid 0) s1
    = Ok tt (mkSys (mkWorld (emitter (world Sample.plain)) 1 tt) []).
Proof.
  split; [reflexivity|]. split; [reflexivity|].
  apply (on_then_off_restores Sample.js_null Sample.guid "TypeError" Sample.quiet "y" 7
           Sample.plain);
    reflexivity.
Defined.

(** A trigger filed for the identifier [h1], and removed. *)
Lemma trigger_filed_then_removed_witness :
  some (fun m : EventObject nat => String.eqb (eventHash m) ("trigger_off_" ++ Sample.guid 0))
       (_offTriggers (emitter (world Sample.plain))) = false /\
  exists s1,
    triggerOff (Exn:=string) Sample.guid "h1" 7 Sample.plain
    = Ok ("trigger_off_" ++ Sample.guid 0) s1 /\
    triggers_named (getOffName "h1") (emitter (world s1))
    = [mkEvent (getOffName "h1") ("trigger_off_" ++ Sample.guid 0) 7] /\
    offTriggerOff (Exn:=string) ("trigger_off_" ++ Sample.guid 0) s1
    = Ok tt (mkSys (mkWorld (emitter (world Sample.plain)) 1 tt) []).
Proof.
  split; [reflexivity|].
  destruct (trigger_filed_then_removed Sample.guid "TypeError" (getOffName "h1") 7
              Sample.plain eq_refl)
    as (s1 & H1 & H2 & _ & H4 & _).
  exists s1. split; [exact H1|]. split; [exact H2|exact H4].
Defined.

Lemma quiet_leaves_world cb d h (w : Sample.SWorld) :
  world_after (Sample.quiet cb d h w) = w.
Proof. now destruct cb. Qed.

(** Unsubscribing [h1] fires all four triggers and removes none. *)
Lemma triggers_stay_filed_witness :
  (forall cb d h (w : Sample.SWorld),
      _offTriggers (emitter (world_after (Sample.quiet cb d h w)))
      = _offTriggers (emitter w)) /\
  List.length (fired (perform Sample.js_null Sample.js_undefined Sample.guid "TypeError" strict_eq Sample.quiet
                        (OpOff Sample.Js nat "h1") (Sample.watched 0))) = 4 /\
  _offTriggers (emitter (world (perform Sample.js_null Sample.js_undefined Sample.guid "TypeError" strict_eq
                                  Sample.quiet (OpOff Sample.Js nat "h1")
                                  (Sample.watched 0))))
  = _offTriggers (emitter (world (Sample.watched 0))).
Proof.
  assert (H : forall cb d h (w : Sample.SWorld),
             _offTriggers (emitter (world_after (Sample.quiet cb d h w)))
             = _offTriggers (emitter w))
    by (intros; now rewrite quiet_leaves_world).
  split; [exact H|]. split; [reflexivity|].
  apply (triggers_stay_filed Sample.js_null Sample.js_undefined Sample.guid "TypeError"
           strict_eq Sample.quiet
           (OpOff Sample.Js nat "h1") (Sample.watched 0) H).
  reflexivity.
Defined.

(** Clearing the registry leaves the snapshot of [x], which the next
    subscriber to [x] is replayed. *)
Lemma snapshots_stay_stored_witness :
  (forall cb d h (w : Sample.SWorld),
      _states (emitter (world_after (Sample.quiet cb d h w))) = _states (emitter w)) /\
  _states (emitter (world (perform Sample.js_null Sample.js_undefined Sample.guid "TypeError" strict_eq
                             Sample.quiet (OpOffAll Sample.Js nat) Sample.stored)))
  = _states (emitter (world Sample.stored)) /\
  fired (Sample.after_ops [OpEmitStateSync nat "x" (Sample.js_num 1);
                           OpOffAll Sample.Js nat; OpOn Sample.Js "x" 3])
  = [mkFiring 3 (Sample.js_num 1) (Sample.guid 0)].
Proof.
  assert (H : forall cb d h (w : Sample.SWorld),
             _states (emitter (world_after (Sample.quiet cb d h w))) = _states (emitter w))
    by (intros; now rewrite quiet_leaves_world).
  split; [exact H|]. split; [|reflexivity].
  apply (snapshots_stay_stored Sample.js_null Sample.js_undefined Sample.guid "TypeError"
           strict_eq Sample.quiet
           (OpOffAll Sample.Js nat) Sample.stored H).
  reflexivity.
Defined.

(** Storing a snapshot for [x] leaves the subscription to [x]. *)
Lemma subscriptions_stay_witness :
  (forall cb d h (w : Sample.SWorld),
      _events (emitter (world_after (Sample.quiet cb d h w))) = _events (emitter w)) /\
  _events (emitter (world (perform Sample.js_null Sample.js_undefined Sample.guid "TypeError" strict_eq
                             Sample.quiet (OpEmitStateSync nat "x" (Sample.js_num 1))
                             Sample.plain)))
  = _events (emitter (world Sample.plain)).
Proof.
  assert (H : forall cb d h (w : Sample.SWorld),
             _events (emitter (world_after (Sample.quiet cb d h w))) = _events (emitter w))
    by (intros; now rewrite quiet_leaves_world).
  split; [exact H|].
  apply (subscriptions_stay Sample.js_null Sample.js_undefined Sample.guid "TypeError"
           strict_eq Sample.quiet
           (OpEmitStateSync nat "x" (Sample.js_num 1)) Sample.plain H).
  reflexivity.
Defined.

(** A second value stored for [x], looked up under [x] and under [y]. *)
Lemma getState_after_emitState_witness :
  (forall cb d h (w : Sample.SWorld),
      _states (emitter (world_after (Sample.quiet cb d h w))) = _states (emitter w)) /\
  getState "x" (emitter (world (sys_after
     (emitStateSync Sample.quiet "x" (Sample.js_num 2) Sample.stored))))
  = Some (Sample.js_num 2) /\
  getState "y" (emitter (world (sys_after
     (emitStateSync Sample.quiet "x" (Sample.js_num 2) Sample.stored))))
  = None.
Proof.
  assert (H : forall cb d h (w : Sample.SWorld),
             _states (emitter (world_after (Sample.quiet cb d h w))) = _states (emitter w))
    by (intros; now rewrite quiet_leaves_world).
  split; [exact H|]. split.
  - exact (proj1 (getState_after_emitState Sample.quiet H "x" (Sample.js_num 2) "x"
                    Sample.stored)).
  - exact (proj1 (getState_after_emitState Sample.quiet H "x" (Sample.js_num 2) "y"
                    Sample.stored)).
Defined.

(** The snapshot of [x] removed: a subscriber to [x] is replayed
    nothing. *)
Example removeState_then_on :
  fired (Sample.after_ops [OpEmitStateSync nat "x" (Sample.js_num 1);
                           OpRemoveState Sample.Js nat "x"; OpOn Sample.Js "x" 3])
  = [].
Proof. reflexivity. Qed.

(** In the earlier registry: unsubscribing [h1] hands [undefined] to
    the trigger of the identifier and, [x] being drained, to the one of
    the name. *)
Lemma legacy_off_cascade_witness :
  hd_error (filter (fun m : EventObject nat => String.eqb (eventHash m) "h1")
                   (_events (emitter (world Scenario.legacy_hooks))))
  = Some (mkEvent "x" "h1" 0) /\
  legacy_cascade_quiet Sample.js_undefined Sample.quiet "h1" (mkEvent "x" "h1" 0)
                       Scenario.legacy_hooks /\
  Legacy.off Sample.js_undefined Sample.quiet "h1" Scenario.legacy_hooks
  = Ok tt (mkSys (mkWorld (mkEmitter [mkEvent "off_h1" "h2" 0; mkEvent "off_event_x" "h3" 0]
                                     [] []) 0 tt)
                 [mkFiring 0 Sample.js_undefined "h2"; mkFiring 0 Sample.js_undefined "h3"]).
Proof.
  split; [reflexivity|].
  assert (Hq : legacy_cascade_quiet Sample.js_undefined Sample.quiet "h1"
                 (mkEvent "x" "h1" 0) Scenario.legacy_hooks).
  { split; [simpl; auto|]. intros _. simpl. auto. }
  split; [exact Hq|].
  exact (proj1 (@legacy_off_cascade _ Sample.js_undefined _ _ _ Sample.quiet "h1"
                  (mkEvent "x" "h1" 0) Scenario.legacy_hooks eq_refl Hq)).
Defined.

(** The same for a subscription to the empty name: the trigger of the
    name is not invoked by [off]; [offEvent] invokes it. *)
Example legacy_off_of_empty_name :
  fired (sys_after (Legacy.off Sample.js_undefined Sample.quiet "h1"
                      Scenario.legacy_nameless))
  = [mkFiring 0 Sample.js_undefined "h2"] /\
  fired (sys_after (Legacy.offEvent Sample.js_undefined "TypeError" Sample.quiet ""
                      Scenario.legacy_nameless))
  = [mkFiring 0 Sample.js_undefined "h3"].
Proof. split; reflexivity. Qed.

(** The same for the names 0 and [NaN]. *)
Example legacy_off_of_falsy_names :
  fired (sys_after (Legacy.off Sample.js_undefined Sample.quiet "h1" Scenario.legacy_zero))
  = [] /\
  fired (sys_after (Legacy.off Sample.js_undefined Sample.quiet "h1" Scenario.legacy_nan))
  = [] /\
  fired (sys_after (Legacy.offEvent Sample.js_undefined "TypeError" Sample.quiet
                      (NameNumber (Num "0")) Scenario.legacy_zero))
  = [mkFiring 0 Sample.js_undefined "h3"].
Proof. repeat split. Qed.

(** The registry of the test "off triggers": two subscriptions and five
    triggers, all with identifiers of their own. *)
Lemma identifiers_never_shared_witness :
  (forall i j, Sample.guid i = Sample.guid j -> i = j) /\
  (forall cb d h (w : Sample.SWorld),
      identifiers_issued Sample.guid w ->
      identifiers_issued Sample.guid (world_after (Sample.quiet cb d h w))) /\
  let w := world (Sample.after_ops Sample.five_triggers) in
  NoDup (map (@eventHash nat) (_events (emitter w))) /\
  NoDup (map (@eventHash nat) (_offTriggers (emitter w))) /\
  has (Sample.guid 7) (emitter w) = false.
Proof.
  assert (H : forall cb d h (w : Sample.SWorld),
             identifiers_issued Sample.guid w ->
             identifiers_issued Sample.guid (world_after (Sample.quiet cb d h w)))
    by (intros cb d h w Hw; now rewrite quiet_leaves_world).
  split; [exact sample_guid_injective|]. split; [exact H|].
  destruct (identifiers_never_shared Sample.js_null Sample.js_undefined "TypeError"
              strict_eq Sample.quiet sample_guid_injective H Sample.five_triggers 0 tt)
    as (H1 & H2 & H3 & _).
  cbv zeta. split; [exact H1|]. split; [exact H2|exact H3].
Defined.

(** [query1] is answered while [query2] waits: [query1] is idle again,
    and a new caller of [query1] queues a producer. *)
Lemma delivery_frees_key_witness :
  (forall i j, Sample.guid i = Sample.guid j -> i = j) /\
  let c := Sample.run_actions Scenario.asked_twice in
  let c' := Sample.run_actions Scenario.answered_once in
  nth_error (CacheEmitter.in_flight c) 0 = Some (CacheEmitter.mkTask "query1" 7) /\
  hasEvent "query1" (emitter (CacheEmitter._emitter c')) = false /\
  CacheEmitter.scheduled
    (snd (CacheEmitter.call 0 Sample.guid Sample.no_trigger "query1" 8 c'))
  = [CacheEmitter.mkTask "query2" 9; CacheEmitter.mkTask "query1" 8].
Proof.
  split; [exact sample_guid_injective|]. cbv zeta. split; [reflexivity|].
  destruct (delivery_frees_key 0 Sample.guid Sample.no_trigger sample_guid_injective
              Scenario.asked_twice 0 (t:=CacheEmitter.mkTask "query1" 7)
              (CacheEmitter.Resolves 42) 8 eq_refl) as (H1 & _ & H3 & _).
  split; [exact H1|exact H3].
Defined.

(** The caller of [query2] goes on waiting. *)
Lemma delivery_spares_other_keys_witness :
  (forall i j, Sample.guid i = Sample.guid j -> i = j) /\
  let c := Sample.run_actions Scenario.asked_twice in
  let c' := Sample.run_actions Scenario.answered_once in
  nth_error (CacheEmitter.in_flight c) 0 = Some (CacheEmitter.mkTask "query1" 7) /\
  "query2" <> "query1" /\
  CacheEmitter.waiting_on "query2" c' = [2] /\
  CacheEmitter.promise_state 2 (env (CacheEmitter._emitter c')) = None.
Proof.
  split; [exact sample_guid_injective|]. cbv zeta. split; [reflexivity|].
  split; [discriminate|].
  destruct (delivery_spares_other_keys 0 Sample.guid Sample.no_trigger sample_guid_injective
              Scenario.asked_twice 0 (t:=CacheEmitter.mkTask "query1" 7)
              (CacheEmitter.Resolves 42) (k:="query2") eq_refl) as (H1 & H2).
  - discriminate.
  - split; [exact H1|]. apply H2. left. reflexivity.
Defined.

(** A third caller of [query1]. *)
Lemma call_joins_waiters_witness :
  (forall i j, Sample.guid i = Sample.guid j -> i = j) /\
  let c := Sample.run_actions Sample.two_callers in
  let c' := snd (CacheEmitter.call 0 Sample.guid Sample.no_trigger "query1" 8 c) in
  fst (CacheEmitter.call 0 Sample.guid Sample.no_trigger "query1" 8 c) = 2 /\
  CacheEmitter.promise_state 2 (env (CacheEmitter._emitter c')) = None /\
  CacheEmitter.waiting_on "query1" c' = [0; 1; 2].
Proof.
  split; [exact sample_guid_injective|]. cbv zeta.
  destruct (call_joins_waiters 0 Sample.guid Sample.no_trigger sample_guid_injective
              Sample.two_callers "query1" 8) as (H1 & H2 & _ & H4 & _).
  split; [exact H1|]. split; [exact H2|exact H4].
Defined.

(** After the answer to [query1], its two callers are resolved, once
    each. *)
Lemma callers_answered_once_witness :
  (forall i j, Sample.guid i = Sample.guid j -> i = j) /\
  env (CacheEmitter._emitter (Sample.run_actions Scenario.answered_once))
  = [(0, CacheEmitter.Resolved 42); (1, CacheEmitter.Resolved 42)] /\
  NoDup (map fst (env (CacheEmitter._emitter (Sample.run_actions Scenario.answered_once)))).
Proof.
  split; [exact sample_guid_injective|]. split; [reflexivity|].
  exact (proj1 (callers_answered_once 0 Sample.guid Sample.no_trigger sample_guid_injective
                  Scenario.answered_once)).
Defined.

(** [waitEvent] on [x], whose snapshot is 1. *)
Lemma waitEvent_resolves_from_snapshot_witness :
  getState "x" (emitter (world Scenario.remembered)) = Some (Sample.js_num 1) /\
  has (Sample.guid 0) (emitter (world Scenario.remembered)) = false /\
  _offTriggers (emitter (world Scenario.remembered)) = [] /\
  Waiting.waitEvent Sample.js_null Sample.guid "TypeError" Scenario.inert Scenario.inert_trigger "x"
    Scenario.remembered
  = Ok 0 (mkSys (mkWorld (emitter (world Scenario.remembered)) 1
                   (Waiting.mkSurroundings 1 [(0, Waiting.Resolved string (Sample.js_num 1))] tt))
                [mkFiring (Waiting.WaitListener nat 0) (Sample.js_num 1) (Sample.guid 0)]).
Proof.
  split; [reflexivity|]. split; [reflexivity|]. split; [reflexivity|].
  exact (proj1 (waitEvent_resolves_from_snapshot Sample.js_null Sample.guid "TypeError"
                  Scenario.inert Scenario.inert_trigger "x" Scenario.remembered
                  eq_refl eq_refl eq_refl)).
Defined.

(** [waitEvent] on [x], which has no snapshot, and the first emit of
    [x]. *)
Lemma waitEvent_resolves_on_first_emit_witness :
  strict_eq "x" "x" = true /\
  hasState "x" (emitter (world Scenario.unheard)) = false /\
  hasEvent "x" (emitter (world Scenario.unheard)) = false /\
  has (Sample.guid 0) (emitter (world Scenario.unheard)) = false /\
  _offTriggers (emitter (world Scenario.unheard)) = [] /\
  exists s1 s2,
    Waiting.waitEvent Sample.js_null Sample.guid "TypeError" Scenario.inert Scenario.inert_trigger "x"
      Scenario.unheard = Ok 0 s1 /\
    Waiting.settlements (env (world s1)) = [] /\
    emitSync (Waiting.listener Sample.js_null "TypeError" Scenario.inert Scenario.inert_trigger)
             "x" (Sample.js_num 5) s1 = Ok tt s2 /\
    emitter (world s2) = emitter (world Scenario.unheard) /\
    Waiting.settlements (env (world s2)) = [(0, Waiting.Resolved string (Sample.js_num 5))].
Proof.
  split; [reflexivity|]. split; [reflexivity|]. split; [reflexivity|].
  split; [reflexivity|]. split; [reflexivity|].
  destruct (waitEvent_resolves_on_first_emit Sample.js_null Sample.guid "TypeError"
              Scenario.inert Scenario.inert_trigger "x" (Sample.js_num 5) Scenario.unheard
              eq_refl eq_refl eq_refl eq_refl eq_refl)
    as (s1 & s2 & H1 & _ & H3 & H4 & H5 & H6 & _).
  exists s1, s2. repeat split; assumption.
Defined.

(** A registry made with the filter [data => data] from one that holds
    a snapshot of [x]: it has no snapshot, and a subscription pushed on
    the original is in its table too. *)
Lemma derived_registry_starts_clean_witness :
  Derived.events_at Scenario.original < List.length Scenario.arrays /\
  hasState "x"
    (Derived.emitter_of
       (snd (Derived.createNewEmitter (Some Derived.identity_filter)
               Scenario.original Scenario.arrays))
       (fst (Derived.createNewEmitter (Some Derived.identity_filter)
               Scenario.original Scenario.arrays)))
  = false /\
  Derived.array_at
    (Derived.push_at Scenario.arrays (Derived.events_at Scenario.original)
       (mkEvent "y" "h2" 7))
    (Derived.events_at
       (fst (Derived.createNewEmitter (Some Derived.identity_filter)
               Scenario.original Scenario.arrays)))
  = [mkEvent "x" "h1" 0; mkEvent "y" "h2" 7].
Proof.
  assert (Hthis : Derived.events_at Scenario.original < List.length Scenario.arrays)
    by (simpl; lia).
  split; [exact Hthis|].
  destruct (@derived_registry_starts_clean Sample.Js Sample.js_null string nat unit
              Sample.guid "TypeError" Sample.quiet (Some Derived.identity_filter)
              Scenario.original Scenario.arrays "x" 0 "h1" 0 tt [] (mkEvent "y" "h2" 7)
              Hthis)
    as ((_ & _ & Hstate & _) & _ & _ & _ & Hshared & _).
  split; [exact Hstate|].
  exact (proj2 (proj2 (Hshared eq_refl))).
Defined.

(** Without a filter the made registry has an array of its own. *)
Example derived_registry_copies_without_filter :
  Derived.createNewEmitter None Scenario.original Scenario.arrays
  = (Derived.mkRegistry 1 [] [], [[mkEvent "x" "h1" 0]; [mkEvent "x" "h1" 0]]).
Proof. reflexivity. Qed.

(** [waitEvent] on [NaN]: no emit of [NaN] reaches the closure, and the
    promise stays unsettled. *)
Example waitEvent_of_nan_stays_pending :
  exists s1,
    Waiting.waitEvent Sample.js_null Sample.guid "TypeError" Scenario.inert
      Scenario.inert_trigger (NameNumber NaN) Scenario.unheard = Ok 0 s1 /\
    has (Sample.guid 0) (emitter (world s1)) = true /\
    emitSync (Waiting.listener Sample.js_null "TypeError" Scenario.inert Scenario.inert_trigger)
             (NameNumber NaN) (Sample.js_num 5) s1 = Ok tt s1 /\
    Waiting.settlements (env (world s1)) = [].
Proof. eexists. repeat split. Qed.

(** [off] given [event_x] fires the trigger of the name [x], which
    keeps its subscriber; given [all], the trigger of the whole
    registry, which keeps two subscriptions. *)
Lemma off_fires_overlapping_scopes_witness :
  quiet_named Sample.js_null Sample.quiet (getOffEventName "x")
              (without "event_x" Sample.two_names) /\
  hasEvent "x" (emitter (world (sys_after
     (off Sample.js_null "TypeError" Sample.quiet "event_x" Sample.two_names)))) = true /\
  (exists rest,
     fired (sys_after (off Sample.js_null "TypeError" Sample.quiet "event_x" Sample.two_names))
     = ([] ++ [mkFiring 3 Sample.js_null "t3"] ++ rest)%list) /\
  map (@fired_callback Sample.Js nat)
      (fired (sys_after (off Sample.js_null "TypeError" Sample.quiet "all" Sample.two_names)))
  = [5].
Proof.
  assert (Hq : quiet_named Sample.js_null Sample.quiet (getOffEventName "x")
                 (without "event_x" Sample.two_names)) by (repeat split).
  split; [exact Hq|]. split; [reflexivity|]. split; [|reflexivity].
  exact (proj1 (proj2 (proj2 (off_fires_overlapping_scopes Sample.js_null "TypeError"
                                Sample.quiet "x" Sample.two_names))) Hq).
Defined.

(** The first consumer of [query1] on a new coordinator, and the
    second. *)
Lemma subscribe_opens_once_witness :
  let s0 := Scenario.hub [] in
  let s1 := Scenario.hub [Shared.Subscribe "query1" 7 1] in
  hasState "query1" (emitter (world s0)) = false /\
  hasEvent "query1" (emitter (world s0)) = false /\
  Shared.activations (env (world s1))
  = [Shared.mkActivation "query1" 7 Shared.Queued false ("trigger_off_" ++ Sample.guid 1)] /\
  hasState "query1" (emitter (world s1)) = false /\
  hasEvent "query1" (emitter (world s1)) = true /\
  Shared.activations
    (env (world (sys_after
       (Shared.subscribe Sample.js_null "stack" "TypeError" Sample.guid Scenario.consumer 8
                         "query1" 7 2 s1))))
  = Shared.activations (env (world s1)) /\
  List.length (_offTriggers (emitter (world (sys_after
       (Shared.subscribe Sample.js_null "stack" "TypeError" Sample.guid Scenario.consumer 8
                         "query1" 7 2 s1))))) = 1.
Proof.
  cbv zeta. split; [reflexivity|]. split; [reflexivity|]. split; [reflexivity|].
  split; [reflexivity|]. split; [reflexivity|].
  pose proof (proj1 (subscribe_opens_once Sample.js_null "stack" "TypeError" (Closer:=nat)
                       Sample.guid Scenario.consumer 8 "query1" 7 2
                       (Scenario.hub [Shared.Subscribe "query1" 7 1]) eq_refl) eq_refl)
    as H.
  rewrite H. split; reflexivity.
Defined.

(** The test "cacheSubscribe": both consumers get the value the
    upstream sends; after the first has left, the second still does; when
    the second has left and the closure has resumed, the closing function
    has been called once, no consumer is left, and the closure is still
    filed. *)
Example test_cacheSubscribe :
  map (@fired_callback Sample.Js (Shared.Handler nat))
      (fired (Scenario.hub Scenario.two_consumers))
  = [Shared.Consume 1; Shared.Consume 2] /\
  map (@fired_callback Sample.Js (Shared.Handler nat))
      (fired (Scenario.hub Scenario.both_leave))
  = [Shared.Consume 1; Shared.Consume 2; Shared.Consume 2; Shared.DrainHook 0] /\
  Shared.effects (env (world (Scenario.hub Scenario.both_leave)))
  = [Shared.OpenerCalled 0; Shared.CloserCalled 0] /\
  _events (emitter (world (Scenario.hub Scenario.both_leave))) = [] /\
  map (@callback (Shared.Handler nat))
      (_offTriggers (emitter (world (Scenario.hub Scenario.both_leave))))
  = [Shared.DrainHook 0].
Proof. vm_compute. repeat split. Qed.

(** A consumer that comes and goes twice within one tick: the closure
    of the first activation is invoked twice while its variable is set,
    suspends twice, and calls the closing function twice. *)
Example closing_function_called_twice :
  Shared.effects (env (world (Scenario.hub Scenario.in_and_out_twice)))
  = [Shared.OpenerCalled 0; Shared.CloserCalled 0; Shared.CloserCalled 0].
Proof. reflexivity. Qed.

(** The first of two consumers of [query1] leaves, then the second. *)
Lemma unsubscribe_drains_key_witness :
  let s := Scenario.hub Scenario.two_consumers in
  let s' := Scenario.hub (Scenario.two_consumers ++ [Shared.Unsubscribe (Sample.guid 0)]) in
  let act := Shared.mkActivation "query1" 7 (Shared.Opened (Some 5)) false "trigger_off_gi" in
  linq_first (fun m => String.eqb (eventHash m) (Sample.guid 0)) (_events (emitter (world s)))
  = Some (mkEvent "query1" (Sample.guid 0) (Shared.Consume 1)) /\
  hasEvent "query1" (emitter (world (without (Sample.guid 0) s))) = true /\
  Shared.unsubscribe Sample.js_null "stack" "TypeError" Scenario.consumer 8 (Sample.guid 0) s
  = Ok tt (without (Sample.guid 0) s) /\
  linq_first (fun m => String.eqb (eventHash m) (Sample.guid 2)) (_events (emitter (world s')))
  = Some (mkEvent "query1" (Sample.guid 2) (Shared.Consume 2)) /\
  nth_error (Shared.activations (env (world s'))) 0 = Some act /\
  hasEvent "query1" (emitter (world (without (Sample.guid 2) s'))) = false /\
  Shared.unsubscribe Sample.js_null "stack" "TypeError" Scenario.consumer 8 (Sample.guid 2) s'
  = Ok tt (mkSys (Shared.suspend 0 (world (without (Sample.guid 2) s')))
                 (fired s' ++ [mkFiring (Shared.DrainHook 0) Sample.js_null "trigger_off_gi"])).
Proof.
  cbv zeta. split; [reflexivity|]. split; [reflexivity|]. split.
  - apply (proj1 (unsubscribe_drains_key Sample.js_null "stack" "TypeError" Scenario.consumer 8
                    (Sample.guid 0)
                    (o:=mkEvent "query1" (Sample.guid 0) (Shared.Consume 1))
                    (th:="trigger_off_gi") (a:=0)
                    (act:=Shared.mkActivation "query1" 7 (Shared.Opened (Some 5)) false
                            "trigger_off_gi")
                    (Scenario.hub Scenario.two_consumers)
                    eq_refl eq_refl eq_refl eq_refl eq_refl eq_refl eq_refl)).
    reflexivity.
  - split; [reflexivity|]. split; [reflexivity|]. split; [reflexivity|].
    apply (proj2 (unsubscribe_drains_key Sample.js_null "stack" "TypeError" Scenario.consumer 8
                    (Sample.guid 2)
                    (o:=mkEvent "query1" (Sample.guid 2) (Shared.Consume 2))
                    (th:="trigger_off_gi") (a:=0)
                    (act:=Shared.mkActivation "query1" 7 (Shared.Opened (Some 5)) false
                            "trigger_off_gi")
                    (Scenario.hub (Scenario.two_consumers
                                   ++ [Shared.Unsubscribe (Sample.guid 0)]))
                    eq_refl eq_refl eq_refl eq_refl eq_refl eq_refl eq_refl)).
    reflexivity.
Defined.

(** The closure of [query1] resumes once both consumers have left. *)
Lemma resume_closes_upstream_witness :
  let w := world (Scenario.hub
                    (Scenario.two_consumers
                     ++ [Shared.Unsubscribe (Sample.guid 0);
                         Shared.Unsubscribe (Sample.guid 2)])) in
  let act := Shared.mkActivation "query1" 7 (Shared.Opened (Some 5)) false "trigger_off_gi" in
  nth_error (Shared.suspended (env w)) 0 = Some 0 /\
  nth_error (Shared.activations (env w)) 0 = Some act /\
  has "trigger_off_gi" (emitter w) = false /\
  Shared.effects
    (env (Shared.resume Sample.js_null "stack" "TypeError" Scenario.consumer Scenario.closer 8 0 w))
  = [Shared.OpenerCalled 0; Shared.CloserCalled 0] /\
  _offTriggers
    (emitter (Shared.resume Sample.js_null "stack" "TypeError" Scenario.consumer Scenario.closer 8 0 w))
  = _offTriggers (emitter w).
Proof.
  cbv zeta. split; [reflexivity|]. split; [reflexivity|]. split; [reflexivity|].
  destruct (resume_closes_upstream Sample.js_null "stack" "TypeError" Scenario.consumer Scenario.closer
              8 0 (a:=0)
              (act:=Shared.mkActivation "query1" 7 (Shared.Opened (Some 5)) false
                      "trigger_off_gi")
              (c:=5) (r:=RVoid)
              (world (Scenario.hub
                        (Scenario.two_consumers
                         ++ [Shared.Unsubscribe (Sample.guid 0);
                             Shared.Unsubscribe (Sample.guid 2)])))
              eq_refl eq_refl eq_refl eq_refl eq_refl eq_refl eq_refl eq_refl)
    as [H1 H2].
  split; [|exact H2]. rewrite H1. reflexivity.
Defined.

(** The closure of [query1], invoked again after it has closed the
    upstream. *)
Lemma forgotten_hook_only_unsubscribes_witness :
  let w := world (Scenario.hub Scenario.both_leave) in
  let act := Shared.mkActivation "query1" 7 (Shared.Opened (Some 5)) true "trigger_off_gi" in
  nth_error (Shared.activations (env w)) 0 = Some act /\
  Shared.forgotten act = true /\
  has (Shared.triggerOffEventHash act) (emitter w) = false /\
  Shared.run Sample.js_null "stack" "TypeError" Scenario.consumer 1 (Shared.DrainHook 0)
             Sample.js_null "trigger_off_gi" w
  = Returned (RPromise 0) w.
Proof.
  cbv zeta. split; [reflexivity|]. split; [reflexivity|]. split; [reflexivity|].
  apply (forgotten_hook_only_unsubscribes Sample.js_null "stack" "TypeError" Scenario.consumer 0 0
           (act:=Shared.mkActivation "query1" 7 (Shared.Opened (Some 5)) true
                   "trigger_off_gi")
           Sample.js_null "trigger_off_gi"
           (world (Scenario.hub Scenario.both_leave)));
    reflexivity.
Defined.

(** The invariant of the shared subscription on the replay of the test
    "cacheSubscribe" and on what follows it. *)
Lemma sample_guid_plain i x :
  Sample.guid i <> "event_" ++ x /\ Sample.guid i <> "trigger_off_" ++ x.
Proof. unfold Sample.guid. split; intros [= ]. Qed.

Lemma scenario_keeps_out :
  Shared.keep_out Scenario.consumer Scenario.opener Scenario.closer.
Proof. repeat split. Qed.

Lemma both_leave_well_formed :
  Forall (Shared.well_formed Sample.guid) Scenario.both_leave.
Proof.
  unfold Scenario.both_leave, Scenario.two_consumers. cbn [app].
  repeat constructor; try discriminate; now eexists.
Qed.

Lemma one_upstream_per_key_in_use_witness :
  (forall i j, Sample.guid i = Sample.guid j -> i = j) /\
  (forall i x, Sample.guid i <> "event_" ++ x /\ Sample.guid i <> "trigger_off_" ++ x) /\
  Shared.keep_out Scenario.consumer Scenario.opener Scenario.closer /\
  Forall (Shared.well_formed Sample.guid) Scenario.both_leave /\
  hasEvent "query1" (emitter (world (Scenario.hub Scenario.both_leave))) = false /\
  List.length (Shared.wanted "query1" (Scenario.hub Scenario.both_leave))
  = if hasEvent "query1" (emitter (world (Scenario.hub Scenario.both_leave)))
    then 1 else 0.
Proof.
  split; [exact sample_guid_injective|]. split; [exact sample_guid_plain|].
  split; [exact scenario_keeps_out|]. split; [exact both_leave_well_formed|].
  split; [reflexivity|].
  exact (one_upstream_per_key_in_use Sample.js_null "stack" "TypeError" sample_guid_injective
           sample_guid_plain scenario_keeps_out 7 tt "query1" both_leave_well_formed).
Defined.

(** While both consumers listen the one activation is wanted. *)
Example two_consumers_one_upstream :
  Shared.wanted "query1" (Scenario.hub Scenario.two_consumers) = [0] /\
  Shared.effects (env (world (Scenario.hub Scenario.two_consumers)))
  = [Shared.OpenerCalled 0].
Proof. split; reflexivity. Qed.

Lemma closures_stay_filed_witness :
  (forall i j, Sample.guid i = Sample.guid j -> i = j) /\
  (forall i x, Sample.guid i <> "event_" ++ x /\ Sample.guid i <> "trigger_off_" ++ x) /\
  Shared.keep_out Scenario.consumer Scenario.opener Scenario.closer /\
  Forall (Shared.well_formed Sample.guid) Scenario.both_leave /\
  _offTriggers (emitter (world (Scenario.hub Scenario.both_leave)))
  = [mkEvent "trigger_off_event_query1" ("trigger_off_" ++ Sample.guid 1)
             (Shared.DrainHook 0)] /\
  exists extra,
    _offTriggers (emitter (world (Scenario.hub
                    (Scenario.both_leave ++ [Shared.Subscribe "query1" 7 3])%list)))
    = (_offTriggers (emitter (world (Scenario.hub Scenario.both_leave))) ++ extra)%list.
Proof.
  split; [exact sample_guid_injective|]. split; [exact sample_guid_plain|].
  split; [exact scenario_keeps_out|]. split; [exact both_leave_well_formed|].
  split; [reflexivity|].
  refine (proj2 (closures_stay_filed Sample.js_null "stack" "TypeError" sample_guid_injective
                   sample_guid_plain scenario_keeps_out 7 tt
                   both_leave_well_formed _)).
  repeat constructor. discriminate.
Defined.

(** The calls made on the replay of the test "cacheSubscribe", while
    both consumers listen. *)
Lemma scenario_stays_out :
  Shared.stay_out Scenario.consumer Scenario.opener Scenario.closer.
Proof. repeat split. Qed.

Lemma two_consumers_well_formed :
  Forall (Shared.well_formed Sample.guid) Scenario.two_consumers.
Proof. unfold Scenario.two_consumers. repeat constructor; discriminate. Qed.

Lemma upstream_opened_once_closed_late_witness :
  (forall i j, Sample.guid i = Sample.guid j -> i = j) /\
  (forall i x, Sample.guid i <> "event_" ++ x /\ Sample.guid i <> "trigger_off_" ++ x) /\
  Shared.stay_out Scenario.consumer Scenario.opener Scenario.closer /\
  Forall (Shared.well_formed Sample.guid) Scenario.two_consumers /\
  let s := Scenario.hub Scenario.two_consumers in
  let fx := Shared.effects (env (world s)) in
  hasEvent "query1" (emitter (world s)) = true /\
  (forall a, Shared.opened a fx <= 1) /\
  (forall a, Shared.closed a fx = true ->
             Shared.opened a fx = 1 /\ Shared.told a (fired s) = true) /\
  (forall k : string, hasEvent k (emitter (world s)) = true ->
             exists a, Shared.wanted k s = [a] /\ Shared.closed a fx = false).
Proof.
  split; [exact sample_guid_injective|]. split; [exact sample_guid_plain|].
  split; [exact scenario_stays_out|]. split; [exact two_consumers_well_formed|].
  cbv zeta. split; [reflexivity|].
  exact (upstream_opened_once_closed_late Sample.js_null "stack" "TypeError" sample_guid_injective
           sample_guid_plain scenario_stays_out 7 tt two_consumers_well_formed).
Defined.

(** After a consumer has come and gone twice the one upstream has been
    opened once, and its closure, invoked twice, has called the closing
    function twice. *)
Example twice_drained_once_opened :
  let s := Scenario.hub Scenario.in_and_out_twice in
  Shared.opened 0 (Shared.effects (env (world s))) = 1 /\
  Shared.opened 1 (Shared.effects (env (world s))) = 0 /\
  Shared.closed 0 (Shared.effects (env (world s))) = true /\
  Shared.told 0 (fired s) = true /\
  Shared.wanted "query1" s = [].
Proof. cbv zeta. repeat split. Qed.
